(** * A shallow embedding of deno-spring's router (src/router.ts)

    The router keeps one radix tree per request method ([Router.radixGroup])
    and a list of all registered routes ([Router._routes]).  [Radix.add]
    inserts a pattern by splitting and merging nodes in place; [Radix.find]
    is an iterative depth-first search with an explicit stack.

    Conventions of the embedding:
    - a JS string is a [string]; [s[i]] is [char_at s i], which is [None]
      where JS yields [undefined]; [s.slice(a, b)] is [slice s a b] and
      [s.slice(a)] is [slice_from s a];
    - [Map<string, Radix>] is a [gmap Key Radix] whose keys are the values
      [path[0]] can take ([None] for [undefined]); the code only uses
      [get], [set], [has] and [size], so insertion order is never observed;
    - a [Callback] is a function object compared with [===]; it is
      represented by its identity, a natural number;
    - a reference to a node inside the tree ([let n: Radix = this], [n = c])
      is a zipper: the node in focus together with the chain of parents it
      was reached through;
    - [throw] is the outcome [Throw e s], which carries the state the
      mutations performed before the [throw] have left behind;
    - loops run on fuel; the lemmas of the section on termination show that
      the fuel each caller supplies is never exhausted. *)

From stdpp Require Import gmap strings list fin_maps.
From Stdlib Require Import Ascii String.

#[local] Set Warnings "-register-all".
#[local] Open Scope nat_scope.

(** ** Strings *)

Definition char_at (s : string) (i : nat) : option ascii := String.get i s.

Fixpoint str_drop (n : nat) (s : string) : string :=
  match n, s with
  | 0, _ => s
  | S n', String _ s' => str_drop n' s'
  | S _, EmptyString => EmptyString
  end.

Fixpoint str_take (n : nat) (s : string) : string :=
  match n, s with
  | 0, _ => EmptyString
  | S n', String c s' => String c (str_take n' s')
  | S _, EmptyString => EmptyString
  end.

(** [s.slice(a, b)] for non-negative indices. *)
Definition slice (s : string) (a b : nat) : string := str_take (b - a) (str_drop a s).

(** [s.slice(a)]. *)
Definition slice_from (s : string) (a : nat) : string := str_drop a s.

Definition str_eqb (a b : string) : bool := bool_decide (a = b).

(** Number of leading characters of [s] that satisfy [f]: the distance a
    loop [for (; i < s.length && f(s[i]); ++i);] travels. *)
Fixpoint span (f : ascii → bool) (s : string) : nat :=
  match s with
  | EmptyString => 0
  | String c s' => if f c then S (span f s') else 0
  end.

Definition is_char (x : ascii) (c : option ascii) : bool :=
  bool_decide (c = Some x).

(** ** Helper functions of router.ts *)

(** [isWildcard]: callers only pass [path[i]] with [i < path.length], so the
    length test of the source never fires. *)
Definition isWildcard (c : ascii) : bool :=
  bool_decide (c = ":"%char) || bool_decide (c = "*"%char).

Fixpoint longestCommonPrefix (a b : string) : nat :=
  match a, b with
  | String x a', String y b' =>
      if bool_decide (x = y) then S (longestCommonPrefix a' b') else 0
  | _, _ => 0
  end.

Definition splitFromFirstSlash (path : string) : string * string :=
  let i := span (λ c, negb (bool_decide (c = "/"%char))) path in
  (slice path 0 i, slice_from path i).
Arguments splitFromFirstSlash : simpl never.

(** ** Data model *)

Definition Callback := nat.
Abbreviation Key := (option ascii).
Abbreviation Params := (gmap string string).

Inductive Radix := Node {
  path : string;
  children : gmap Key Radix;
  handler : option Callback }.

Definition empty_radix : Radix := Node "" ∅ None.

Definition set_path (n : Radix) (p : string) : Radix :=
  Node p (children n) (handler n).
Definition set_children (n : Radix) (ch : gmap Key Radix) : Radix :=
  Node (path n) ch (handler n).
Definition set_handler (n : Radix) (h : option Callback) : Radix :=
  Node (path n) (children n) h.

(** [n.path.slice(1)]: the name a parameter or wildcard node binds. *)
Definition name_of (n : Radix) : string := slice_from (path n) 1.

Fixpoint height (n : Radix) : nat :=
  match n with
  | Node _ ch _ => S (map_fold (λ _ c acc, max (height c) acc) 0 ch)
  end.

(** An upper bound on the number of iterations of the search loop below a
    node: one to visit it, one to leave it, and each child is pushed at most
    three times. *)
Fixpoint weight (n : Radix) : nat :=
  match n with
  | Node _ ch _ => 2 + 3 * map_fold (λ _ c acc, weight c + acc) 0 ch
  end.

(** ** Radix.find *)

(** An entry [[node, path, vis]] of the search stack. *)
Record Frame := MkFrame { fnode : Radix; fpath : string; fvis : bool }.

Inductive Step :=
  | Continue (stack : list Frame) (params : Params)
  | Break (h : option Callback) (params : Params).

(** The three pushes that end an iteration.  The stack is a list whose head
    is [stack[i]]; [stack[++i] = e] is a cons (slots above [i] are never
    read before they are overwritten). *)
Definition push_children (n : Radix) (np : string)
    (stack : list Frame) : list Frame :=
  let stack :=
    match children n !! Some "*"%char with
    | Some c => MkFrame c np false :: stack
    | None => stack
    end in
  if str_eqb np "" then stack
  else
    let stack :=
      match children n !! Some ":"%char with
      | Some c => MkFrame c np false :: stack
      | None => stack
      end in
    match children n !! char_at np 0 with
    | Some c => MkFrame c np false :: stack
    | None => stack
    end.

(** One iteration of [for (let i = 0; i >= 0;)].  [np = None] stands for
    [undefined]. *)
Definition find_step (stack : list Frame) (params : Params) : Step :=
  match stack with
  | [] => Break None params
  | MkFrame n p v :: rest =>
      if v then
        Continue rest
          (if is_char ":" (char_at (path n) 0)
           then delete (name_of n) params else params)
      else
        let visited := MkFrame n p true :: rest in
        if is_char "*" (char_at (path n) 0) then
          let params :=
            if 1 <? String.length (path n)
            then <[name_of n := p]> params else params in
          Break (handler n) params
        else if is_char ":" (char_at (path n) 0) then
          let '(_cp, _np) := splitFromFirstSlash p in
          let params := <[name_of n := _cp]> params in
          if str_eqb _np "" then Break (handler n) params
          else Continue (push_children n _np visited) params
        else if str_eqb (path n) p then
          match handler n with
          | None =>
              if bool_decide (is_Some (children n !! Some "*"%char))
              then Continue (push_children n "" visited) params
              else Continue rest params
          | Some h => Break (Some h) params
          end
        else
          let lcp := longestCommonPrefix (path n) p in
          if negb (lcp =? String.length (path n)) then Continue rest params
          else Continue (push_children n (slice_from p lcp) visited) params
  end.

Fixpoint find_loop (fuel : nat) (stack : list Frame) (params : Params)
    : option (option Callback * Params) :=
  match fuel with
  | 0 => None
  | S fuel' =>
      match find_step stack params with
      | Break h ps => Some (h, ps)
      | Continue stack' ps => find_loop fuel' stack' ps
      end
  end.

(** [Radix.find]: [None] would mean that the fuel ran out, which
    [Radix_find_total] excludes. *)
Definition Radix_find (root : Radix) (p : string)
    : option (option Callback * Params) :=
  find_loop (S (weight root)) [MkFrame root p false] ∅.

(** ** Registration: Radix.merge, Radix.insert, Radix.add *)

Inductive Error :=
  | WildcardConflict   (* "only one wildcard per path segment is allowed" *)
  | EmptyParamName     (* "param must be named with a non-empty name" *)
  | DuplicateRoute     (* "a handler is already registered for path" *)
  | TypeError          (* "radix.add is not a function", see [inherited] *)
  | OutOfFuel.         (* artefact of the embedding, never produced *)

(** A reference to a node of the tree: the node itself and, innermost
    first, the parents it hangs under together with the key it has in each
    parent's [children]. *)
Record Zipper := MkZipper { focus : Radix; above : list (Radix * Key) }.

Definition at_root (root : Radix) : Zipper := MkZipper root [].

(** A write through the reference. *)
Definition set_focus (z : Zipper) (n : Radix) : Zipper :=
  MkZipper n (above z).

(** [n = c] for the child [c] stored under key [k] of the node in focus. *)
Definition down (z : Zipper) (k : Key) (c : Radix) : Zipper :=
  MkZipper c ((focus z, k) :: above z).

(** The whole tree a reference points into. *)
Fixpoint zip_up (n : Radix) (ctx : list (Radix * Key)) : Radix :=
  match ctx with
  | [] => n
  | (parent, k) :: ctx' =>
      zip_up (set_children parent (<[k := n]> (children parent))) ctx'
  end.

Definition root_of (z : Zipper) : Radix := zip_up (focus z) (above z).

Inductive Res (A : Type) :=
  | Ok (a : A)
  | Throw (e : Error) (z : Zipper).
Arguments Ok {A} a.
Arguments Throw {A} e z.

#[global] Instance Res_bind : MBind Res := λ A B f r,
  match r with
  | Ok a => f a
  | Throw e z => Throw e z
  end.

(** The [for (;;)] of [merge]; [z] is the variable [n]. *)
Fixpoint merge_loop (fuel : nat) (z : Zipper) (p : string)
    (h : option Callback) : Res Zipper :=
  match fuel with
  | 0 => Throw OutOfFuel z
  | S fuel' =>
      let n := focus z in
      let i := longestCommonPrefix p (path n) in
      let n :=
        if i <? String.length (path n) then
          let c := Node (slice_from (path n) i) (children n) (handler n) in
          Node (slice p 0 i) {[ char_at (path c) 0 := c ]} None
        else n in
      if i <? String.length p then
        let p := slice_from p i in
        match children n !! char_at p 0 with
        | Some c => merge_loop fuel' (down (set_focus z n) (char_at p 0) c) p h
        | None =>
            let c := Node p ∅ h in
            let n := set_children n (<[char_at p 0 := c]> (children n)) in
            Ok (down (set_focus z n) (char_at p 0) c)
        end
      else
        match h with
        | Some _ =>
            match handler n with
            | Some _ => Throw DuplicateRoute (set_focus z n)
            | None => Ok (set_focus z (set_handler n h))
            end
        | None => Ok (set_focus z n)
        end
  end.

Definition merge (z : Zipper) (p : string) (h : option Callback)
    : Res Zipper :=
  let n := focus z in
  if str_eqb (path n) "" && bool_decide (size (children n) = 0) then
    Ok (set_focus z (Node p (children n) h))
  else if str_eqb p "" then
    match handler n with
    | Some _ => Throw DuplicateRoute z
    | None => Ok (set_focus z (set_handler n h))
    end
  else merge_loop (height n) z p h.

Definition insert (z : Zipper) (p : string) (h : option Callback)
    : Res Zipper :=
  let n := focus z in
  match children n !! char_at p 0 with
  | Some c => merge (down z (char_at p 0) c) p h
  | None =>
      let c := Node p ∅ h in
      let n := set_children n (<[char_at p 0 := c]> (children n)) in
      Ok (down (set_focus z n) (char_at p 0) c)
  end.

(** The inner loop of [add] over [s = path.slice(i)]: the distance to the
    next ["/"] or to the end, or [None] where the source throws because it
    met a second marker. *)
Fixpoint scan_name (s : string) : option nat :=
  match s with
  | EmptyString => Some 0
  | String c s' =>
      if bool_decide (c = "/"%char) then Some 0
      else if isWildcard c then None
      else S <$> scan_name s'
  end.

(** The main loop of [add]; it returns the final [j] and [n]. *)
Fixpoint add_loop (fuel : nat) (p : string) (i j : nat) (n : Zipper)
    : Res (nat * Zipper) :=
  match fuel with
  | 0 => Throw OutOfFuel n
  | S fuel' =>
      match char_at p i with
      | None => Ok (j, n)
      | Some c =>
          if isWildcard c then
            '(j, n) ←
              (if bool_decide (j ≠ i)
               then n' ← insert n (slice p j i) None; Ok (i, n')
               else Ok (j, n)) ;
            let i := S i in
            match scan_name (slice_from p i) with
            | None => Throw WildcardConflict n
            | Some k =>
                let i := i + k in
                if is_char ":" (char_at p j) && (i - j =? 1)
                then Throw EmptyParamName n
                else
                  n ← insert n (slice p j i) None;
                  add_loop fuel' p (S i) i n
            end
          else add_loop fuel' p (S i) j n
      end
  end.

(** [Radix.add], applied to the root [this]; the result is the tree after
    the call, also where the call throws. *)
Definition Radix_add_at (root : Radix) (p : string) (h : Callback)
    : Res Zipper :=
  let i := span (λ c, negb (isWildcard c)) p in
  n ← merge (at_root root) (slice p 0 i) None;
  '(j, n) ← add_loop (S (String.length p)) p i i n;
  if j =? String.length p then merge n "" (Some h)
  else insert n (slice_from p j) (Some h).

Inductive Outcome (A : Type) :=
  | Done (a : A)
  | Fail (e : Error) (a : A).
Arguments Done {A} a.
Arguments Fail {A} e a.

Definition Radix_add (root : Radix) (p : string) (h : Callback)
    : Outcome Radix :=
  match Radix_add_at root p h with
  | Ok z => Done (root_of z)
  | Throw e z => Fail e (root_of z)
  end.

(** ** Router *)

(** Modelled from the spec: the type [Route] of defs.ts, which is not part of
    the sources at hand.  A route entry has a method, the original pattern,
    the handler reference and auxiliary metadata (a view-template name);
    router.ts reads [method], [path] and [callback] and writes [params]. *)
Record Route := MkRoute {
  method : string;
  route_path : string;
  callback : Callback;
  template : option string;
  params : option Params }.

Definition set_params (r : Route) (ps : Params) : Route :=
  MkRoute (method r) (route_path r) (callback r) (template r) (Some ps).

Record Router := MkRouter {
  radixGroup : gmap string Radix;
  _routes : list Route }.

Definition new_router : Router := MkRouter ∅ [].

(** [radixGroup] is a plain object ([= {}]), so that
    [this.radixGroup[method]] also finds the members that every object
    inherits from [Object.prototype], unless the object has a property of
    its own under that name.  The inherited members are functions: they are
    truthy, so that no tree is created for them, and they have neither
    [add] nor [find], so that the call on them throws a TypeError.  (Deno,
    the runtime of this repository, removes the accessor [__proto__] from
    [Object.prototype]; it is therefore not in the list.) *)
Definition inherited_members : list string :=
  ["constructor"; "hasOwnProperty"; "isPrototypeOf"; "propertyIsEnumerable";
   "toLocaleString"; "toString"; "valueOf"; "__defineGetter__";
   "__defineSetter__"; "__lookupGetter__"; "__lookupSetter__"].

Definition inherited (m : string) : bool :=
  bool_decide (m ∈ inherited_members).

(** What a call hands back: the value it returns or the error it throws. *)
Inductive Result (A : Type) :=
  | Returns (a : A)
  | Throws (e : Error).
Arguments Returns {A} a.
Arguments Throws {A} e.

(** [Router.add].  Where [this.radixGroup[route.method]] is an inherited
    member, [radix.add] throws before anything is written. *)
Definition Router_add (r : Router) (route : Route) : Outcome Router :=
  match radixGroup r !! method route, inherited (method route) with
  | None, true => Fail TypeError r
  | own, _ =>
      let radix := default empty_radix own in
      match Radix_add radix (route_path route) (callback route) with
      | Done radix' =>
          Done (MkRouter (<[method route := radix']> (radixGroup r))
                  (_routes r ++ [route]))
      | Fail e radix' =>
          Fail e (MkRouter (<[method route := radix']> (radixGroup r))
                    (_routes r))
      end
  end.

(** [this._routes.find(v => v.callback === callback)], with the position of
    the entry found: the entry is an object of the store, and the position
    is its identity there. *)
Fixpoint find_route (cb : Callback) (routes : list Route) (k : nat)
    : option (nat * Route) :=
  match routes with
  | [] => None
  | v :: routes' =>
      if bool_decide (callback v = cb) then Some (k, v)
      else find_route cb routes' (S k)
  end.

(** [Router.find]: what the call hands back and the router after the call.
    The route returned is the stored object itself, whose [params] the call
    overwrites.  Where [this.radixGroup[method]] is an inherited member,
    [radix.find] throws. *)
Definition Router_find (r : Router) (m p : string)
    : Result (option Route) * Router :=
  match radixGroup r !! m with
  | Some radix =>
      match Radix_find radix p with
      | Some (Some cb, ps) =>
          match find_route cb (_routes r) 0 with
          | Some (k, route) =>
              let route := set_params route ps in
              (Returns (Some route),
               MkRouter (radixGroup r) (<[k := route]> (_routes r)))
          | None => (Returns None, r)
          end
      | _ => (Returns None, r)
      end
  | None => if inherited m then (Throws TypeError, r) else (Returns None, r)
  end.

Definition children_weight (n : Radix) : nat :=
  map_fold (λ _ c acc, weight c + acc) 0 (children n).

(** What an entry of the search stack can still cost: a visited entry is
    only popped, an entry not yet visited may expand to its whole subtree. *)
Definition frame_cost (f : Frame) : nat :=
  if fvis f then 1 else weight (fnode f).

Definition stack_cost (st : list Frame) : nat := sum_list (frame_cost <$> st).

(** A run of [Router.add] calls during start-up, which the first [throw]
    ends. *)
Fixpoint Router_add_all (r : Router) (routes : list Route) : Outcome Router :=
  match routes with
  | [] => Done r
  | route :: routes' =>
      match Router_add r route with
      | Done r' => Router_add_all r' routes'
      | Fail e r' => Fail e r'
      end
  end.

(** Two route entries that differ at most in their [params]. *)
Definition same_but_params (a b : Route) : Prop :=
  method a = method b ∧ route_path a = route_path b
  ∧ callback a = callback b ∧ template a = template b.

(** ** Pattern syntax, in the words of the specification

    A pattern is read segment by segment, a segment being a run between
    slashes.  A segment with more than one marker is a wildcard conflict; a
    segment whose only marker is a [":"] at its very end names no
    parameter.  The fault of a pattern is the fault of its first faulty
    segment. *)

Fixpoint segments (s : string) : list string :=
  match s with
  | EmptyString => [EmptyString]
  | String c s' =>
      if bool_decide (c = "/"%char) then EmptyString :: segments s'
      else
        match segments s' with
        | seg :: segs => String c seg :: segs
        | [] => [String c EmptyString]
        end
  end.

Fixpoint markers (s : string) : nat :=
  match s with
  | EmptyString => 0
  | String c s' => (if isWildcard c then 1 else 0) + markers s'
  end.

Fixpoint last_char (s : string) : option ascii :=
  match s with
  | EmptyString => None
  | String c EmptyString => Some c
  | String _ s' => last_char s'
  end.

Definition segment_fault (seg : string) : option Error :=
  if 2 <=? markers seg then Some WildcardConflict
  else if (markers seg =? 1) && is_char ":" (last_char seg)
       then Some EmptyParamName
       else None.

Fixpoint first_fault (segs : list string) : option Error :=
  match segs with
  | [] => None
  | seg :: segs' =>
      match segment_fault seg with
      | Some e => Some e
      | None => first_fault segs'
      end
  end.

Definition pattern_fault (p : string) : option Error :=
  first_fault (segments p).

(** The premises of the two claims about malformed patterns, read
    literally. *)
Definition colon_before_slash_or_end (p : string) : Prop :=
  ∃ i, char_at p i = Some ":"%char
       ∧ (char_at p (S i) = Some "/"%char ∨ char_at p (S i) = None).

Definition two_markers_in_a_segment (p : string) : Prop :=
  ∃ seg, seg ∈ segments p ∧ 2 ≤ markers seg.

(** ** What a match is: the chain of nodes a path is read along

    [is_wild] and [is_param] are the tests [n.path[0] === "*"] and
    [n.path[0] === ":"] of the search. *)

Definition is_wild (n : Radix) : bool := is_char "*" (char_at (path n) 0).
Definition is_param (n : Radix) : bool := is_char ":" (char_at (path n) 0).

(** The children the search may enter from [n] with [np] left to read. *)
Definition candidate (n : Radix) (np : string) (c : Radix) : Prop :=
  children n !! Some "*"%char = Some c
  ∨ (np ≠ "" ∧ (children n !! Some ":"%char = Some c
                ∨ children n !! char_at np 0 = Some c)).

(** [reaches n p pat bs m]: reading the path [p] from node [n] ends at node
    [m]; [pat] is the pattern spelled by the labels of the nodes passed, and
    [bs] are the captures made at the parameter and wildcard nodes among
    them, in order. *)
Inductive reaches : Radix → string → string → list (string * string)
    → Radix → Prop :=
  | reaches_wild n p :
      is_wild n = true →
      reaches n p (path n)
        (if 1 <? String.length (path n) then [(name_of n, p)] else []) n
  | reaches_param_end n p cp :
      is_wild n = false → is_param n = true →
      splitFromFirstSlash p = (cp, "") →
      reaches n p (path n) [(name_of n, cp)] n
  | reaches_param_down n p cp np c pat bs m :
      is_wild n = false → is_param n = true →
      splitFromFirstSlash p = (cp, np) → np ≠ "" →
      candidate n np c → reaches c np pat bs m →
      reaches n p (path n +:+ pat) ((name_of n, cp) :: bs) m
  | reaches_static_end n p :
      is_wild n = false → is_param n = false →
      path n = p → is_Some (handler n) →
      reaches n p (path n) [] n
  | reaches_static_rest n p c pat bs m :
      is_wild n = false → is_param n = false →
      path n = p → handler n = None →
      candidate n "" c → reaches c "" pat bs m →
      reaches n p (path n +:+ pat) bs m
  | reaches_static_down n p c pat bs m :
      is_wild n = false → is_param n = false →
      path n ≠ p →
      longestCommonPrefix (path n) p = String.length (path n) →
      candidate n (slice_from p (String.length (path n))) c →
      reaches c (slice_from p (String.length (path n))) pat bs m →
      reaches n p (path n +:+ pat) bs m.

(** [params.set] for each capture in turn. *)
Definition bind_all (bs : list (string * string)) (ps : Params) : Params :=
  foldl (λ m b, <[b.1 := b.2]> m) ps bs.

(** [descends n m]: [m] lies strictly below [n]. *)
Inductive descends : Radix → Radix → Prop :=
  | descends_child n k c : children n !! k = Some c → descends n c
  | descends_step n k c m :
      children n !! k = Some c → descends c m → descends n m.

Definition within (root n : Radix) : Prop := n = root ∨ descends root n.

(** No parameter node lies below a parameter node of the same name. *)
Definition names_unshadowed (root : Radix) : Prop :=
  ∀ n m, within root n → descends n m →
    is_param n = true → is_param m = true → name_of m ≠ name_of n.

(** The captures and the pattern of the entries of the search stack that
    have been visited, oldest first. *)
Definition frame_bindings (f : Frame) : list (string * string) :=
  if fvis f && is_param (fnode f)
  then [(name_of (fnode f), (splitFromFirstSlash (fpath f)).1)] else [].

Definition frame_label (f : Frame) : string :=
  if fvis f then path (fnode f) else "".

Fixpoint stack_bindings (st : list Frame) : list (string * string) :=
  match st with
  | [] => []
  | f :: below => stack_bindings below ++ frame_bindings f
  end.

Fixpoint stack_pattern (st : list Frame) : string :=
  match st with
  | [] => ""
  | f :: below => stack_pattern below +:+ frame_label f
  end.

(** The invariant of the search loop, for a search of [p0] from [root]: an
    entry lies in the tree, strictly below every visited entry under it in
    the stack, and a match found from it extends the visited entries under
    it to a match from the root. *)
Definition frame_ok (root : Radix) (p0 : string)
    (f : Frame) (below : list Frame) : Prop :=
  within root (fnode f)
  ∧ (∀ g, g ∈ below → fvis g = true → descends (fnode g) (fnode f))
  ∧ (∀ pat bs m, reaches (fnode f) (fpath f) pat bs m →
       reaches root p0 (stack_pattern below +:+ pat)
         (stack_bindings below ++ bs) m).

Fixpoint stack_ok (root : Radix) (p0 : string) (st : list Frame) : Prop :=
  match st with
  | [] => True
  | f :: below => frame_ok root p0 f below ∧ stack_ok root p0 below
  end.

(** A run of [Radix.add] calls on one tree. *)
Fixpoint Radix_add_all (root : Radix) (routes : list (string * Callback))
    : Outcome Radix :=
  match routes with
  | [] => Done root
  | (p, h) :: routes' =>
      match Radix_add root p h with
      | Done root' => Radix_add_all root' routes'
      | Fail e root' => Fail e root'
      end
  end.

(** A decision procedure for [names_unshadowed]: the names of the parameter
    nodes strictly below a node, and the test that no parameter node finds
    its own name among them. *)
Fixpoint names_below (n : Radix) : list string :=
  match n with
  | Node _ ch _ =>
      map_fold (λ _ c acc,
        ((if is_param c then [name_of c] else []) ++ names_below c) ++ acc) [] ch
  end.

Fixpoint unshadowed (n : Radix) : bool :=
  match n with
  | Node p ch h =>
      (if is_param (Node p ch h)
       then bool_decide (name_of (Node p ch h) ∉ names_below (Node p ch h))
       else true)
      && map_fold (λ _ c acc, unshadowed c && acc) true ch
  end.

(** ** Registration as the insertion of strings

    The definitions below are not taken from the source: they describe what
    the registration does to a tree, and the section on registration proves
    that the code does exactly that.

    [put n s oh] makes a node end where the string [s], read from the start
    of the label of [n], ends: it splits the node inside which [s] departs
    or ends, hangs the rest of [s] below as a new leaf, and gives the node
    at the end of [s] the handler [oh], if there is one. *)

Definition upd (oh h : option Callback) : option Callback :=
  match oh with Some _ => oh | None => h end.

Fixpoint put (n : Radix) (s : string) (oh : option Callback) {struct n}
    : Radix :=
  match n with
  | Node p ch h =>
      let i := longestCommonPrefix s p in
      if i <? String.length p then
        let lower := Node (slice_from p i) ch h in
        let ch' : gmap Key Radix := {[ char_at p i := lower ]} in
        if i <? String.length s
        then Node (slice s 0 i)
               (<[char_at s i := Node (slice_from s i) ∅ oh]> ch') None
        else Node (slice s 0 i) ch' oh
      else if i <? String.length s then
        let k := char_at s i in
        match ch !! k with
        | Some _ =>
            Node p (map_imap (λ k' c,
                      Some (if decide (k' = k)
                            then put c (slice_from s i) oh else c)) ch) h
        | None => Node p (<[k := Node (slice_from s i) ∅ oh]> ch) h
        end
      else Node p ch (upd oh h)
  end.

(** [bound n s]: a node ends where [s] ends, and it has a handler. *)
Fixpoint bound (n : Radix) (s : string) {struct n} : bool :=
  match n with
  | Node p ch h =>
      let i := longestCommonPrefix s p in
      if i <? String.length p then false
      else if i <? String.length s then
        default false (((λ c, bound c (slice_from s i)) <$> ch) !! char_at s i)
      else bool_decide (is_Some h)
  end.

Definition prepend (c : ascii) (n : Radix) : Radix :=
  Node (String c (path n)) (children n) (handler n).

(** Two insertions can be swapped unless they give the same string two
    handlers. *)
Definition compatible (a b : string) (oa ob : option Callback) : Prop :=
  a ≠ b ∨ oa = None ∨ ob = None.

(** Below a well-formed node every child is stored under the first
    character of its label, which is not empty. *)
Fixpoint well_formed (n : Radix) : bool :=
  match n with
  | Node _ ch _ =>
      map_fold (λ k c acc,
        (bool_decide (k = char_at (path c) 0)
         && negb (str_eqb (path c) "") && well_formed c) && acc) true ch
  end.

Definition wf (n : Radix) : Prop := well_formed n = true.

(** The trees the registration of patterns that start with a slash works
    on: the empty tree of [new Radix()], or a well-formed tree whose root
    label starts with a slash. *)
Definition good (t : Radix) : Prop :=
  t = empty_radix ∨ (wf t ∧ char_at (path t) 0 = Some "/"%char).

(** The label spelled by the parents of a reference, outermost first. *)
Fixpoint zpath (ctx : list (Radix * Key)) : string :=
  match ctx with
  | [] => ""
  | (parent, _) :: ctx' => zpath ctx' +:+ path parent
  end.

(** The keys of a chain of parents are the first characters of the labels
    below them; [first] is the first character of the innermost label. *)
Fixpoint ctx_ok (first : Key) (ctx : list (Radix * Key)) : Prop :=
  match ctx with
  | [] => True
  | (parent, k) :: ctx' =>
      k = first ∧ is_Some k ∧ ctx_ok (char_at (path parent) 0) ctx'
  end.

(** [cursor t e z]: the reference [z] points into the tree [t], at the node
    that ends where the string [e] ends. *)
Definition cursor (t : Radix) (e : string) (z : Zipper) : Prop :=
  root_of z = t
  ∧ zpath (above z) +:+ path (focus z) = e
  ∧ ctx_ok (char_at (path (focus z)) 0) (above z)
  ∧ path (focus z) ≠ ""
  ∧ wf (focus z).

(** The first [merge] of [add], which fills the empty tree. *)
Definition seed (t : Radix) (s : string) : Radix :=
  if str_eqb (path t) "" && bool_decide (size (children t) = 0)
  then Node s (children t) None
  else put t s None.

Definition puts (t : Radix) (l : list (string * option Callback)) : Radix :=
  foldl (λ t x, put t x.1 x.2) t l.

(** The ends of the runs that the main loop of [add] inserts, and the final
    [j]; [None] where the loop throws. *)
Fixpoint cuts_loop (fuel : nat) (p : string) (i j : nat)
    : option (list string * nat) :=
  match fuel with
  | 0 => None
  | S fuel' =>
      match char_at p i with
      | None => Some ([], j)
      | Some c =>
          if isWildcard c then
            match scan_name (slice_from p (S i)) with
            | None => None
            | Some k =>
                if is_char ":" (Some c) && (k =? 0) then None
                else
                  match cuts_loop fuel' p (S (S i + k)) (S i + k) with
                  | Some (es, j') =>
                      Some ((if bool_decide (j ≠ i)
                             then [str_take i p] else [])
                            ++ str_take (S i + k) p :: es, j')
                  | None => None
                  end
            end
          else cuts_loop fuel' p (S i) j
      end
  end.

(** The strings [add] makes nodes end at, the pattern itself excepted. *)
Definition cuts (p : string) : option (list string) :=
  let i := span (λ c, negb (isWildcard c)) p in
  match cuts_loop (S (String.length p)) p i i with
  | Some (es, _) => Some (str_take i p :: es)
  | None => None
  end.

Definition unbound (es : list string) : list (string * option Callback) :=
  (λ e, (e, None)) <$> es.

(** Any two of the insertions can be swapped. *)
Definition compatible_all (l : list (string * option Callback)) : Prop :=
  ∀ x y, x ∈ l → y ∈ l → x = y ∨ compatible x.1 y.1 x.2 y.2.

(** The tree once [add] has put the nodes of pattern [p] in place, before
    it binds the handler; [None] where [add] throws on the way. *)
Definition prepared (t : Radix) (p : string) : option Radix :=
  match cuts p with
  | Some (a :: es) => Some (puts (seed t a) (unbound es))
  | _ => None
  end.

(** The handler and the bindings that a lookup hands back. *)
Definition answer (x : Result (option Route))
    : Result (option (Callback * option Params)) :=
  match x with
  | Returns found => Returns ((λ v, (callback v, params v)) <$> found)
  | Throws e => Throws e
  end.

(** * Properties *)

(** ** Children are smaller than their parent *)

Section fold_bounds.
Context {A : Type} (g : A → nat).

Lemma map_fold_max_ge (m : gmap Key A) k c :
  m !! k = Some c →
  g c ≤ map_fold (λ _ c acc, max (g c) acc) 0 m.
Proof.
  revert k c.
  apply (map_fold_weak_ind
    (λ r (m : gmap Key A), ∀ k c, m !! k = Some c → g c ≤ r)).
  - intros k c Hk. by rewrite lookup_empty in Hk.
  - intros i x m' r Hi IH k c Hk.
    destruct (decide (i = k)) as [->|Hne].
    + rewrite lookup_insert_eq in Hk. injection Hk as ->. lia.
    + rewrite lookup_insert_ne in Hk by done.
      specialize (IH k c Hk). lia.
Qed.

Lemma map_fold_sum_ge (m : gmap Key A) k c :
  m !! k = Some c →
  g c ≤ map_fold (λ _ c acc, g c + acc) 0 m.
Proof.
  revert k c.
  apply (map_fold_weak_ind
    (λ r (m : gmap Key A), ∀ k c, m !! k = Some c → g c ≤ r)).
  - intros k c Hk. by rewrite lookup_empty in Hk.
  - intros i x m' r Hi IH k c Hk.
    destruct (decide (i = k)) as [->|Hne].
    + rewrite lookup_insert_eq in Hk. injection Hk as ->. lia.
    + rewrite lookup_insert_ne in Hk by done.
      specialize (IH k c Hk). lia.
Qed.
End fold_bounds.

Lemma weight_unfold n : weight n = 2 + 3 * children_weight n.
Proof. by destruct n. Qed.

Lemma child_weight n k c :
  children n !! k = Some c → weight c ≤ children_weight n.
Proof. apply (map_fold_sum_ge weight). Qed.

Lemma child_height n k c :
  children n !! k = Some c → height c < height n.
Proof.
  destruct n as [p ch h]; simpl. intros Hk.
  pose proof (map_fold_max_ge height ch k c Hk). lia.
Qed.

(** Induction on a tree through the lookups of its children. *)
Lemma Radix_child_ind (P : Radix → Prop) :
  (∀ n, (∀ k c, children n !! k = Some c → P c) → P n) → ∀ n, P n.
Proof.
  intros step n.
  remember (height n) as hn eqn:E.
  revert n E. induction hn as [hn IH] using lt_wf_ind. intros n ->.
  apply step. intros k c Hk. eapply IH; [|done]. by eapply child_height.
Qed.

(** ** Radix.find terminates *)

Lemma stack_cost_cons f st : stack_cost (f :: st) = frame_cost f + stack_cost st.
Proof. done. Qed.

Lemma push_children_cost n np st :
  stack_cost (push_children n np st) ≤ 3 * children_weight n + stack_cost st.
Proof.
  unfold push_children; cbv zeta.
  assert (∀ k (s : list Frame),
    stack_cost (match children n !! k with
                | Some c => MkFrame c np false :: s
                | None => s
                end) ≤ children_weight n + stack_cost s) as Hone.
  { intros k s. destruct (children n !! k) as [c|] eqn:Hk; [|lia].
    rewrite stack_cost_cons. unfold frame_cost; simpl.
    pose proof (child_weight n k c Hk). lia. }
  pose proof (Hone (Some "*"%char) st) as H1.
  destruct (str_eqb np ""); [etrans; [apply H1|lia]|].
  etrans; [apply Hone|].
  etrans; [apply Nat.add_le_mono_l, Hone|].
  etrans; [apply Nat.add_le_mono_l, Nat.add_le_mono_l, H1|]. lia.
Qed.

Lemma find_step_cost st ps st' ps' :
  find_step st ps = Continue st' ps' → stack_cost st' < stack_cost st.
Proof.
  destruct st as [|[n p v] rest]; [done|].
  unfold find_step. rewrite stack_cost_cons. unfold frame_cost at 1; simpl.
  pose proof (weight_unfold n) as Hw.
  assert (∀ np, stack_cost (push_children n np (MkFrame n p true :: rest))
                < weight n + stack_cost rest) as Hpush.
  { intros np. pose proof (push_children_cost n np (MkFrame n p true :: rest)) as H.
    rewrite stack_cost_cons in H. unfold frame_cost in H at 1; simpl in H. lia. }
  intros Hs. repeat case_match; simplify_eq; try lia; apply Hpush.
Qed.

Lemma find_loop_total fuel st ps :
  stack_cost st < fuel → is_Some (find_loop fuel st ps).
Proof.
  revert st ps. induction fuel as [|fuel IH]; intros st ps Hlt; [lia|].
  simpl. destruct (find_step st ps) as [st' ps'|h ps'] eqn:Hstep; [|by eexists].
  apply IH. apply find_step_cost in Hstep. lia.
Qed.

(** The search always returns. *)
Lemma Radix_find_total root p : is_Some (Radix_find root p).
Proof.
  apply find_loop_total. rewrite stack_cost_cons. unfold frame_cost; simpl.
  unfold stack_cost; simpl. lia.
Qed.

(** More fuel does not change a result. *)
Lemma find_loop_mono fuel fuel' st ps r :
  find_loop fuel st ps = Some r → fuel ≤ fuel' → find_loop fuel' st ps = Some r.
Proof.
  revert fuel' st ps. induction fuel as [|fuel IH]; intros fuel' st ps; [done|].
  destruct fuel' as [|fuel']; [lia|]. simpl.
  destruct (find_step st ps); [|done]. intros H ?. apply IH; [done|lia].
Qed.

(** ** Router.find looks the route up by its callback *)

Lemma find_route_Some cb routes k0 k v :
  find_route cb routes k0 = Some (k, v) →
  k0 ≤ k ∧ routes !! (k - k0) = Some v ∧ callback v = cb
  ∧ ∀ j w, j < k - k0 → routes !! j = Some w → callback w ≠ cb.
Proof.
  revert k0. induction routes as [|w routes IH]; intros k0; [done|]. simpl.
  case_bool_decide as Hcb.
  - intros [= <- <-]. rewrite Nat.sub_diag. repeat split; [lia|done|lia].
  - intros H. apply IH in H as (Hle & Hk & Hv & Hmin).
    replace (k - k0) with (S (k - S k0)) by lia.
    repeat split; [lia|done|done|].
    intros [|j] w' Hj; simpl; [by intros [= <-]|].
    apply Hmin. lia.
Qed.

Lemma find_route_None cb routes k0 :
  find_route cb routes k0 = None → ∀ v, v ∈ routes → callback v ≠ cb.
Proof.
  revert k0. induction routes as [|w routes IH]; intros k0; simpl.
  - intros _ v Hv. by apply elem_of_nil in Hv.
  - case_bool_decide as Hcb; [done|]. intros H v Hv.
    apply elem_of_cons in Hv as [->|Hv]; [done|]. by eapply IH.
Qed.


Lemma Router_find_eq r m p radix cb ps k route :
  radixGroup r !! m = Some radix →
  Radix_find radix p = Some (Some cb, ps) →
  find_route cb (_routes r) 0 = Some (k, route) →
  Router_find r m p =
    (Returns (Some (set_params route ps)),
     MkRouter (radixGroup r) (<[k := set_params route ps]> (_routes r))).
Proof. unfold Router_find. by intros -> -> ->. Qed.

(** ** Wildcard nodes end the search *)


Lemma Router_find_callback r m p radix cb ps :
  radixGroup r !! m = Some radix →
  Radix_find radix p = Some (Some cb, ps) →
  (∃ v, v ∈ _routes r ∧ callback v = cb) →
  ∃ route, fst (Router_find r m p) = Returns (Some route)
    ∧ callback route = cb ∧ params route = Some ps.
Proof.
  intros Hm Hfind (v & Hv & Hcb).
  destruct (find_route cb (_routes r) 0) as [[k route]|] eqn:Hroute.
  - erewrite Router_find_eq by done. eexists; split; [done|].
    apply find_route_Some in Hroute as (_ & _ & ? & _). done.
  - eapply find_route_None in Hroute; [|done]. done.
Qed.

Lemma Router_find_inv r m p route r' :
  Router_find r m p = (Returns (Some route), r') →
  ∃ radix cb ps k entry,
    radixGroup r !! m = Some radix
    ∧ Radix_find radix p = Some (Some cb, ps)
    ∧ find_route cb (_routes r) 0 = Some (k, entry)
    ∧ route = set_params entry ps
    ∧ r' = MkRouter (radixGroup r) (<[k := route]> (_routes r)).
Proof.
  unfold Router_find. intros H.
  destruct (radixGroup r !! m) as [radix|]; [|by destruct (inherited m)].
  destruct (Radix_find radix p) as [[[cb|] ps]|] eqn:Hf; [|done..].
  destruct (find_route cb (_routes r) 0) as [[k entry]|] eqn:Hr; [|done].
  injection H as <- <-. exists radix, cb, ps, k, entry. by repeat split.
Qed.

Lemma Router_find_None r m p r' :
  Router_find r m p = (Returns None, r') → r' = r.
Proof.
  unfold Router_find. intros H. by repeat case_match; simplify_eq.
Qed.

Lemma Router_find_Throws r m p e r' :
  Router_find r m p = (Throws e, r') →
  r' = r ∧ e = TypeError ∧ radixGroup r !! m = None ∧ inherited m = true.
Proof.
  unfold Router_find. intros H. by repeat case_match; simplify_eq.
Qed.

Lemma Router_add_unfold r route :
  Router_add r route =
    if inherited (method route)
       && bool_decide (radixGroup r !! method route = None)
    then Fail TypeError r
    else
      match Radix_add (default empty_radix (radixGroup r !! method route))
              (route_path route) (callback route) with
      | Done radix' =>
          Done (MkRouter (<[method route := radix']> (radixGroup r))
                  (_routes r ++ [route]))
      | Fail e radix' =>
          Fail e (MkRouter (<[method route := radix']> (radixGroup r))
                    (_routes r))
      end.
Proof.
  unfold Router_add.
  destruct (radixGroup r !! method route), (inherited (method route)); done.
Qed.

Lemma Router_add_routes r route r' :
  Router_add r route = Done r' → _routes r' = _routes r ++ [route].
Proof.
  rewrite Router_add_unfold. destruct (_ && _); [done|].
  destruct (Radix_add _ _ _); [|done]. by intros [= <-].
Qed.

Lemma Router_add_all_routes routes r r' :
  Router_add_all r routes = Done r' → _routes r' = _routes r ++ routes.
Proof.
  revert r. induction routes as [|x routes IH]; intros r; simpl.
  - intros [= <-]. by rewrite app_nil_r.
  - destruct (Router_add r x) as [r1|] eqn:Hadd; [|done].
    intros H. apply IH in H. rewrite H.
    rewrite (Router_add_routes _ _ _ Hadd), <- app_assoc. done.
Qed.

(** ** The route entry a lookup returns *)

(** C10: in a router built by successful registrations, a find whose tree
    lookup yields a callback returns the entry of the earliest registration
    that carries this callback (with the captured bindings written into its
    params); which pattern the path matched plays no part. *)
Theorem find_returns_earliest_registration :
  ∀ routes rt m p route rt',
    Router_add_all new_router routes = Done rt →
    Router_find rt m p = (Returns (Some route), rt') →
    ∃ radix cb ps k entry,
      radixGroup rt !! m = Some radix
      ∧ Radix_find radix p = Some (Some cb, ps)
      ∧ routes !! k = Some entry ∧ callback entry = cb
      ∧ (∀ j w, j < k → routes !! j = Some w → callback w ≠ cb)
      ∧ route = set_params entry ps.
Proof.
  intros routes rt m p route rt' Hadd Hfind.
  apply Router_add_all_routes in Hadd. simpl in Hadd.
  apply Router_find_inv in Hfind
    as (radix & cb & ps & k & entry & Hm & Hr & Hroute & -> & _).
  apply find_route_Some in Hroute as (_ & Hk & Hcb & Hmin).
  rewrite Nat.sub_0_r, Hadd in Hk, Hmin.
  exists radix, cb, ps, k, entry. repeat split; try done.
Qed.

(** Two patterns share callback 7; the path matches the second pattern and
    the entry returned is the first. *)
Lemma find_returns_earliest_registration_witness :
  let first := MkRoute "GET" "/a" 7 (Some "a.html") None in
  let second := MkRoute "GET" "/b" 7 (Some "b.html") None in
  ∃ rt rt',
    Router_add_all new_router [first; second] = Done rt
    ∧ Router_find rt "GET" "/b" = (Returns (Some (set_params first ∅)), rt')
    ∧ ∃ radix cb ps k entry,
        radixGroup rt !! "GET" = Some radix
        ∧ Radix_find radix "/b" = Some (Some cb, ps)
        ∧ [first; second] !! k = Some entry ∧ callback entry = cb
        ∧ (∀ j w, j < k → [first; second] !! j = Some w → callback w ≠ cb)
        ∧ set_params first ∅ = set_params entry ps.
Proof.
  intros first second. eexists. eexists.
  split; [vm_compute; reflexivity|]. split; [vm_compute; reflexivity|].
  eapply (find_returns_earliest_registration [first; second]);
    vm_compute; reflexivity.
Defined.

(** ** What Router.find writes *)

(** C6, as the claim states it, fails: the lookup stores the captured
    bindings in the route entry it returns, which is the entry kept in the
    route list. *)
Lemma find_overwrites_stored_params :
  let route := MkRoute "GET" "/users/:id" 1 None None in
  ∃ rt,
    Router_add new_router route = Done rt
    ∧ _routes rt = [route]
    ∧ _routes (snd (Router_find rt "GET" "/users/42"))
      = [set_params route {[ "id" := "42" ]}]
    ∧ snd (Router_find rt "GET" "/users/42") ≠ rt.
Proof.
  intros route. eexists. split; [vm_compute; reflexivity|].
  split; [reflexivity|].
  split; [vm_compute; reflexivity|].
  intros Heq. apply (f_equal _routes) in Heq. revert Heq.
  vm_compute. discriminate.
Qed.

(** C6, amended: a lookup leaves every tree unchanged and the route list
    keeps its length and order; every entry keeps its method, pattern,
    callback and template, and only the entry the lookup returns is
    written: its params become the bindings that the search of the
    method's tree captured for the path.  A lookup that returns nothing, or
    that throws, writes nothing. *)
Theorem find_writes_only_params_of_match :
  ∀ r m p,
    radixGroup (snd (Router_find r m p)) = radixGroup r
    ∧ Forall2 same_but_params (_routes r) (_routes (snd (Router_find r m p)))
    ∧ match fst (Router_find r m p) with
      | Returns (Some route) =>
          ∃ radix cb ps k entry,
            radixGroup r !! m = Some radix
            ∧ Radix_find radix p = Some (Some cb, ps)
            ∧ _routes r !! k = Some entry ∧ callback entry = cb
            ∧ route = set_params entry ps
            ∧ params route = Some ps
            ∧ _routes (snd (Router_find r m p)) = <[k := route]> (_routes r)
      | Returns None | Throws _ => snd (Router_find r m p) = r
      end.
Proof.
  intros r m p.
  assert (Forall2 same_but_params (_routes r) (_routes r)) as Hrefl.
  { apply Forall2_lookup. intros i. destruct (_routes r !! i); by constructor. }
  destruct (Router_find r m p) as [[[route|]|e] r'] eqn:Hfind; simpl.
  - apply Router_find_inv in Hfind
      as (radix & cb & ps & k & entry & Hm & Hr & Hroute & -> & ->).
    apply find_route_Some in Hroute as (_ & Hk & Hcb & _).
    rewrite Nat.sub_0_r in Hk. simpl. split; [done|].
    split; [|by exists radix, cb, ps, k, entry].
    apply Forall2_lookup. intros i.
    destruct (decide (i = k)) as [->|Hne].
    + rewrite list_lookup_insert_eq by (by eapply lookup_lt_Some).
      rewrite Hk. by constructor.
    + rewrite list_lookup_insert_ne by done.
      destruct (_routes r !! i); by constructor.
  - apply Router_find_None in Hfind as ->. done.
  - apply Router_find_Throws in Hfind as (-> & _). done.
Qed.

(** ** Precedence among the children of a node *)

(** The iteration that descends from a node pushes its wildcard child
    first, then its parameter child, then the static child for the next
    character, so that the static child is on top and is tried first. *)
Lemma push_children_order n np st w c s :
  np ≠ "" →
  children n !! Some "*"%char = Some w →
  children n !! Some ":"%char = Some c →
  children n !! char_at np 0 = Some s →
  push_children n np st =
    MkFrame s np false :: MkFrame c np false :: MkFrame w np false :: st.
Proof.
  intros Hnp Hw Hc Hs. unfold push_children. rewrite Hw, Hc, Hs.
  unfold str_eqb. by rewrite bool_decide_false.
Qed.

(** The example of the specification: with GET /users/:id and
    GET /users/new registered, /users/new yields the handler of the static
    pattern and /users/42 the handler of the parameter pattern with
    id = "42". *)
Lemma static_child_precedes_param :
  ∀ h_id h_new tpl1 tpl2 ps1 ps2,
    let by_id := MkRoute "GET" "/users/:id" h_id tpl1 ps1 in
    let new := MkRoute "GET" "/users/new" h_new tpl2 ps2 in
    ∃ rt,
      Router_add_all new_router [by_id; new] = Done rt
      ∧ (∃ route, fst (Router_find rt "GET" "/users/new") = Returns (Some route)
           ∧ callback route = h_new ∧ params route = Some ∅)
      ∧ (∃ route, fst (Router_find rt "GET" "/users/42") = Returns (Some route)
           ∧ callback route = h_id
           ∧ params route = Some {[ "id" := "42" ]}).
Proof.
  intros. eexists. split; [vm_compute; reflexivity|].
  split.
  - eapply Router_find_callback; [vm_compute; reflexivity..|].
    exists new. split; [|done]. apply list_elem_of_lookup. by exists 1.
  - eapply Router_find_callback; [vm_compute; reflexivity..|].
    exists by_id. split; [|done]. apply list_elem_of_lookup. by exists 0.
Qed.

(** C1, at the input where the code departs from the claim: with
    GET /u/n/:x/y and GET /u/:id/5 registered, the search for /u/n/5 enters
    the static child "n/" first, reaches the parameter node ":x" at the end
    of the path, and stops there although that node has no handler: it
    returns no route and never tries the parameter child ":id", whose
    pattern matches the path with id = "n" (as it does for /u/m/5). *)
Theorem search_stops_at_unbound_param :
  ∀ h1 h2 tpl1 tpl2 ps1 ps2,
    let deep := MkRoute "GET" "/u/n/:x/y" h1 tpl1 ps1 in
    let by_id := MkRoute "GET" "/u/:id/5" h2 tpl2 ps2 in
    ∃ rt radix,
      Router_add_all new_router [deep; by_id] = Done rt
      ∧ radixGroup rt !! "GET" = Some radix
      ∧ Radix_find radix "/u/n/5" = Some (None, {[ "x" := "5" ]})
      ∧ Router_find rt "GET" "/u/n/5" = (Returns None, rt)
      ∧ Radix_find radix "/u/m/5" = Some (Some h2, {[ "id" := "m" ]}).
Proof.
  intros. eexists. eexists.
  split; [vm_compute; reflexivity|]. split; [vm_compute; reflexivity|].
  split; [vm_compute; reflexivity|]. split; vm_compute; reflexivity.
Qed.

(** ** Strings and indices *)

Lemma char_at_None s i : char_at s i = None ↔ String.length s ≤ i.
Proof.
  unfold char_at. revert i. induction s as [|c s IH]; intros i; simpl.
  - split; [lia|done].
  - destruct i as [|i]; simpl; [split; [done|lia]|].
    rewrite IH. lia.
Qed.

Lemma char_at_Some s i c : char_at s i = Some c → i < String.length s.
Proof.
  intros H. destruct (decide (i < String.length s)) as [|Hge]; [done|].
  assert (char_at s i = None) as E by (apply char_at_None; lia). congruence.
Qed.

Lemma str_drop_char_at s i c :
  char_at s i = Some c → str_drop i s = String c (str_drop (S i) s).
Proof.
  unfold char_at. revert i. induction s as [|d s IH]; intros i; simpl.
  - by destruct i.
  - destruct i as [|i]; simpl.
    + intros [= ->]. by destruct s.
    + intros H. by apply IH in H.
Qed.

Lemma str_drop_all s i : String.length s ≤ i → str_drop i s = "".
Proof.
  revert i. induction s as [|d s IH]; intros i; simpl; [by destruct i|].
  destruct i as [|i]; simpl; [lia|]. intros ?. apply IH. lia.
Qed.

Lemma str_drop_add s a b : str_drop (a + b) s = str_drop b (str_drop a s).
Proof.
  revert s. induction a as [|a IH]; intros s; simpl; [done|].
  destruct s as [|c s]; [by destruct b|]. apply IH.
Qed.

Lemma char_at_drop s i : char_at (str_drop i s) 0 = char_at s i.
Proof.
  destruct (char_at s i) as [c|] eqn:E.
  - by rewrite (str_drop_char_at _ _ _ E).
  - apply char_at_None in E. by rewrite str_drop_all.
Qed.

Lemma str_drop_length s i : String.length (str_drop i s) = String.length s - i.
Proof.
  revert i. induction s as [|d s IH]; intros i; simpl; [by destruct i|].
  destruct i as [|i]; simpl; [done|]. apply IH.
Qed.

Lemma str_take_length s n :
  String.length (str_take n s) = n `min` String.length s.
Proof.
  revert n. induction s as [|d s IH]; intros n; simpl; [by destruct n|].
  destruct n as [|n]; simpl; [done|]. by rewrite IH.
Qed.

Lemma slice_length s a b :
  b ≤ String.length s → String.length (slice s a b) = b - a.
Proof.
  intros H. unfold slice. rewrite str_take_length, str_drop_length. lia.
Qed.

Lemma slice_nonempty s a b : a < b → b ≤ String.length s → slice s a b ≠ "".
Proof.
  intros Hab Hb E. apply (f_equal String.length) in E.
  rewrite slice_length in E by done. simpl in E. lia.
Qed.

Lemma length_zero s : String.length s = 0 → s = "".
Proof. by destruct s. Qed.

Lemma str_eqb_eq a b : str_eqb a b = true ↔ a = b.
Proof. unfold str_eqb. by rewrite bool_decide_eq_true. Qed.

Lemma lcp_le_l a b : longestCommonPrefix a b ≤ String.length a.
Proof.
  revert b. induction a as [|x a IH]; intros [|y b]; simpl; try lia.
  case_bool_decide; [|lia]. specialize (IH b). lia.
Qed.

Lemma lcp_le_r a b : longestCommonPrefix a b ≤ String.length b.
Proof.
  revert b. induction a as [|x a IH]; intros [|y b]; simpl; try lia.
  case_bool_decide; [|lia]. specialize (IH b). lia.
Qed.

(** Where the common prefix ends inside both strings, they differ. *)
Lemma lcp_differ a b :
  longestCommonPrefix a b < String.length a →
  longestCommonPrefix a b < String.length b →
  char_at a (longestCommonPrefix a b) ≠ char_at b (longestCommonPrefix a b).
Proof.
  unfold char_at.
  revert b. induction a as [|x a IH]; intros [|y b]; simpl; try lia.
  case_bool_decide as Hxy; simpl.
  - intros ??. apply IH; lia.
  - intros _ _ [= ?]. done.
Qed.

Lemma lcp_refl a : longestCommonPrefix a a = String.length a.
Proof. induction a as [|x a IH]; simpl; [done|]. by rewrite bool_decide_true, IH. Qed.

(** ** The loops of the registration terminate *)

Lemma height_pos n : 0 < height n.
Proof. destruct n; simpl; lia. Qed.

(** After a split the only child starts with the character at which the
    incoming path departs, so the lookup that follows finds nothing. *)
Lemma split_lookup_None (p np : string) (c : Radix) :
  let i := longestCommonPrefix p np in
  i < String.length np → i < String.length p →
  ({[ char_at (slice_from np i) 0 := c ]} : gmap Key Radix)
    !! char_at (slice_from p i) 0 = None.
Proof.
  intros i Hn Hp. unfold slice_from. rewrite !char_at_drop.
  apply lookup_singleton_ne. intros E. by eapply lcp_differ.
Qed.

Lemma merge_loop_outcome fuel z p h :
  height (focus z) ≤ fuel →
  (∃ z', merge_loop fuel z p h = Ok z')
  ∨ (is_Some h ∧ ∃ z', merge_loop fuel z p h = Throw DuplicateRoute z').
Proof.
  revert z p. induction fuel as [|fuel IH]; intros z p Hfuel.
  { pose proof (height_pos (focus z)). lia. }
  simpl.
  destruct (longestCommonPrefix p (path (focus z)) <? String.length (path (focus z)))
    eqn:Hsplit.
  - apply Nat.ltb_lt in Hsplit.
    destruct (longestCommonPrefix p (path (focus z)) <? String.length p) eqn:Hp.
    + apply Nat.ltb_lt in Hp. simpl.
      rewrite split_lookup_None by done. left. by eexists.
    + simpl. left. destruct h; by eexists.
  - destruct (longestCommonPrefix p (path (focus z)) <? String.length p) eqn:Hp.
    + destruct (children (focus z) !! _) as [c|] eqn:Hc; [|left; by eexists].
      apply IH. simpl. apply child_height in Hc. lia.
    + destruct h as [cb|]; [|left; by eexists].
      destruct (handler (focus z)); [right|left]; eauto.
Qed.

Lemma merge_loop_None fuel z p :
  height (focus z) ≤ fuel → ∃ z', merge_loop fuel z p None = Ok z'.
Proof.
  intros H. destruct (merge_loop_outcome fuel z p None H) as [|[[? [=]] _]]; done.
Qed.

Lemma merge_None z p : p ≠ "" → ∃ z', merge z p None = Ok z'.
Proof.
  intros Hp. unfold merge.
  destruct (str_eqb (path (focus z)) "" && _); [by eexists|].
  destruct (str_eqb p "") eqn:E; [by apply str_eqb_eq in E|].
  by apply merge_loop_None.
Qed.

Lemma insert_None z p : p ≠ "" → ∃ z', insert z p None = Ok z'.
Proof.
  intros Hp. unfold insert.
  destruct (children (focus z) !! char_at p 0); [|by eexists].
  by apply merge_None.
Qed.

(** [merge] and [insert] never run out of fuel. *)
Lemma merge_outcome z p h :
  (∃ z', merge z p h = Ok z') ∨ (∃ z', merge z p h = Throw DuplicateRoute z').
Proof.
  unfold merge.
  destruct (str_eqb (path (focus z)) "" && _); [left; by eexists|].
  destruct (str_eqb p "").
  - destruct (handler (focus z)); [right|left]; by eexists.
  - destruct (merge_loop_outcome (height (focus z)) z p h) as [|[_ ?]]; auto.
Qed.

Lemma insert_outcome z p h :
  (∃ z', insert z p h = Ok z') ∨ (∃ z', insert z p h = Throw DuplicateRoute z').
Proof.
  unfold insert.
  destruct (children (focus z) !! char_at p 0); [|left; by eexists].
  apply merge_outcome.
Qed.

(** ** The scan of [add] against the syntax of patterns *)

Lemma segments_cons s : ∃ seg segs, segments s = seg :: segs.
Proof.
  induction s as [|c s (seg & segs & IH)]; simpl; [by eexists _, _|].
  case_bool_decide; [by eexists _, _|]. rewrite IH. by eexists _, _.
Qed.

Lemma isWildcard_slash : isWildcard "/" = false.
Proof. done. Qed.

Lemma segment_fault_no_marker seg : markers seg = 0 → segment_fault seg = None.
Proof. unfold segment_fault. by intros ->. Qed.

Lemma last_char_cons c s :
  last_char (String c s) = match s with "" => Some c | _ => last_char s end.
Proof. by destruct s. Qed.

(** A character that is no marker does not change the fault that follows. *)
Lemma first_fault_static c s :
  isWildcard c = false →
  first_fault (segments (String c s)) = first_fault (segments s).
Proof.
  intros Hc. simpl. case_bool_decide as Hslash; [done|].
  destruct (segments_cons s) as (seg & segs & ->). simpl.
  replace (segment_fault (String c seg)) with (segment_fault seg); [done|].
  unfold segment_fault; simpl. rewrite Hc; simpl.
  destruct seg as [|d seg]; [done|]. done.
Qed.

Lemma last_char_no_marker s :
  markers s = 0 → is_char ":" (last_char s) = false.
Proof.
  induction s as [|c s IH]; [done|]. rewrite last_char_cons. simpl.
  destruct (isWildcard c) eqn:Hc; [done|]. simpl. intros Hs.
  destruct s as [|d s]; [|by apply IH].
  unfold is_char. apply bool_decide_eq_false. intros [= ->]. done.
Qed.

(** What the inner loop of [add] finds, in terms of segments. *)
Lemma scan_name_segments s :
  match scan_name s with
  | None => ∃ seg segs, segments s = seg :: segs ∧ 1 ≤ markers seg
  | Some k =>
      markers (str_take k s) = 0
      ∧ segments s = str_take k s ::
          match str_drop k s with
          | "" => []
          | String _ r => segments r
          end
  end.
Proof.
  induction s as [|c s IH]; simpl; [done|].
  case_bool_decide as Hslash; [done|].
  destruct (isWildcard c) eqn:Hc.
  - destruct (segments_cons s) as (seg & segs & ->).
    eexists _, _. split; [done|]. simpl. rewrite Hc. lia.
  - destruct (scan_name s) as [k|]; simpl.
    + destruct IH as [Hm ->]. rewrite Hc. done.
    + destruct IH as (seg & segs & -> & Hm).
      eexists _, _. split; [done|]. simpl. lia.
Qed.

Lemma scan_name_bound s k : scan_name s = Some k → k ≤ String.length s.
Proof.
  revert k. induction s as [|c s IH]; simpl; intros k.
  - intros [= <-]. lia.
  - case_bool_decide; [intros [= <-]; lia|].
    destruct (isWildcard c); [done|].
    destruct (scan_name s) as [k'|]; [|done]. simpl. intros [= <-].
    specialize (IH _ eq_refl). lia.
Qed.

Lemma scan_name_stops s k c r :
  scan_name s = Some k → str_drop k s = String c r → c = "/"%char.
Proof.
  revert k. induction s as [|d s IH]; simpl; intros k.
  - intros [= <-]. done.
  - case_bool_decide as Hslash; [intros [= <-]; simpl; congruence|].
    destruct (isWildcard d); [done|].
    destruct (scan_name s) as [k'|]; [|done]. simpl. intros [= <-]. simpl.
    by apply IH.
Qed.

Lemma segments_not_slash c s :
  c ≠ "/"%char →
  segments (String c s) =
    match segments s with
    | seg :: segs => String c seg :: segs
    | [] => [String c ""]
    end.
Proof. intros H. simpl. by rewrite bool_decide_false. Qed.

Lemma segment_fault_two c t :
  isWildcard c = true → 1 ≤ markers t →
  segment_fault (String c t) = Some WildcardConflict.
Proof.
  intros Hc Hm. unfold segment_fault. simpl markers. rewrite Hc.
  destruct (markers t) as [|[|?]]; [lia|done..].
Qed.

Lemma segment_fault_one c t :
  isWildcard c = true → markers t = 0 →
  segment_fault (String c t) =
    if is_char ":" (Some c) && bool_decide (t = "")
    then Some EmptyParamName else None.
Proof.
  intros Hc Hm. unfold segment_fault. simpl markers. rewrite Hc, Hm.
  cbn [Nat.add Nat.leb Nat.eqb andb].
  destruct t as [|d t].
  - by rewrite bool_decide_true, andb_true_r.
  - rewrite bool_decide_false, andb_false_r by done.
    rewrite last_char_cons. by rewrite (last_char_no_marker (String d t)).
Qed.

Lemma scan_name_take_empty s k :
  scan_name s = Some k → bool_decide (str_take k s = "") = (k =? 0).
Proof.
  intros Hk. apply scan_name_bound in Hk.
  destruct k as [|k]; simpl; [by destruct s|].
  destruct s as [|d s]; simpl in *; [lia|done].
Qed.

(** The fault of a pattern suffix that starts with a marker, as the code
    computes it. *)
Lemma first_fault_marker c s :
  isWildcard c = true →
  first_fault (segments (String c s)) =
    match scan_name s with
    | None => Some WildcardConflict
    | Some k =>
        if is_char ":" (Some c) && (k =? 0) then Some EmptyParamName
        else match str_drop k s with
             | "" => None
             | String _ r => first_fault (segments r)
             end
    end.
Proof.
  intros Hc.
  assert (c ≠ "/"%char) as Hslash by (by intros ->).
  rewrite segments_not_slash by done.
  pose proof (scan_name_segments s) as Hs.
  pose proof (scan_name_take_empty s) as Hk.
  destruct (scan_name s) as [k|].
  - destruct Hs as [Hm ->]. simpl first_fault.
    rewrite segment_fault_one, (Hk k) by done.
    destruct (is_char ":" (Some c) && (k =? 0)); [done|].
    by destruct (str_drop k s).
  - destruct Hs as (seg & segs & -> & Hm). simpl first_fault.
    by rewrite segment_fault_two.
Qed.

Lemma str_drop_S s n : str_drop (S n) s = str_drop 1 (str_drop n s).
Proof. by rewrite <- Nat.add_1_r, str_drop_add. Qed.

Lemma span_le f s : span f s ≤ String.length s.
Proof. induction s as [|c s IH]; simpl; [done|]. destruct (f c); lia. Qed.

Lemma first_fault_span p :
  first_fault (segments (str_drop (span (λ c, negb (isWildcard c)) p) p))
  = pattern_fault p.
Proof.
  unfold pattern_fault. induction p as [|c p IH]; [done|].
  cbn [span]. destruct (isWildcard c) eqn:Hc; [done|]. cbn [negb str_drop].
  by rewrite IH, first_fault_static.
Qed.

Lemma add_loop_unfold fuel p i j n :
  add_loop (S fuel) p i j n =
    match char_at p i with
    | None => Ok (j, n)
    | Some c =>
        if isWildcard c then
          '(j, n) ←
            (if bool_decide (j ≠ i)
             then n' ← insert n (slice p j i) None; Ok (i, n')
             else Ok (j, n));
          match scan_name (slice_from p (S i)) with
          | None => Throw WildcardConflict n
          | Some k =>
              if is_char ":" (char_at p j) && (S i + k - j =? 1)
              then Throw EmptyParamName n
              else
                n ← insert n (slice p j (S i + k)) None;
                add_loop fuel p (S (S i + k)) (S i + k) n
          end
        else add_loop fuel p (S i) j n
    end.
Proof. done. Qed.

(** The main loop of [add] throws the fault of the rest of the pattern. *)
Lemma add_loop_fault fuel p i j z e :
  String.length p - i < fuel → j ≤ i →
  first_fault (segments (str_drop i p)) = Some e →
  ∃ z', add_loop fuel p i j z = Throw e z'.
Proof.
  revert i j z. induction fuel as [|fuel IH]; intros i j z Hfuel Hj Hf; [lia|].
  rewrite add_loop_unfold. destruct (char_at p i) as [c|] eqn:Hc.
  2: { apply char_at_None in Hc. by rewrite str_drop_all in Hf. }
  pose proof (char_at_Some _ _ _ Hc) as Hi.
  rewrite (str_drop_char_at _ _ _ Hc) in Hf.
  destruct (isWildcard c) eqn:Hw.
  2: { rewrite first_fault_static in Hf by done. apply IH; [lia..|done]. }
  rewrite first_fault_marker in Hf by done.
  assert (∃ z1, (if bool_decide (j ≠ i)
                 then n' ← insert z (slice p j i) None; Ok (i, n')
                 else Ok (j, z)) = Ok (i, z1)) as [z1 ->].
  { case_bool_decide as Hji.
    - destruct (insert_None z (slice p j i)) as [z1 ->]; [|by eexists].
      apply slice_nonempty; lia.
    - exists z. do 2 f_equal. lia. }
  cbn [mbind Res_bind]. unfold slice_from.
  destruct (scan_name (str_drop (S i) p)) as [k|] eqn:Hk.
  2: { injection Hf as <-. by eexists. }
  rewrite Hc. replace (S i + k - i =? 1) with (k =? 0)
    by (destruct k as [|k]; [by rewrite Nat.add_0_r, Nat.sub_succ_l, Nat.sub_diag
       |symmetry; apply Nat.eqb_neq; lia]).
  destruct (is_char ":" (Some c) && (k =? 0)).
  { injection Hf as <-. by eexists. }
  pose proof (scan_name_bound _ _ Hk) as Hkb. rewrite str_drop_length in Hkb.
  destruct (insert_None z1 (slice p i (S i + k))) as [z2 ->].
  { apply slice_nonempty; lia. }
  cbn [mbind Res_bind]. apply IH; [lia..|].
  rewrite str_drop_S, str_drop_add.
  destruct (str_drop k (str_drop (S i) p)); [done|]. done.
Qed.

(** For a pattern that starts with a slash, [Radix.add] throws the fault of
    the pattern, whatever the tree. *)
Lemma Radix_add_fault root p h e :
  char_at p 0 = Some "/"%char →
  pattern_fault p = Some e →
  ∃ root', Radix_add root p h = Fail e root'.
Proof.
  intros Hslash Hf. unfold Radix_add, Radix_add_at.
  set (i := span (λ c, negb (isWildcard c)) p).
  assert (0 < i) as Hi.
  { subst i. destruct p as [|c p]; [done|]. injection Hslash as ->. simpl. lia. }
  pose proof (span_le (λ c, negb (isWildcard c)) p) as Hle. fold i in Hle.
  destruct (merge_None (at_root root) (slice p 0 i)) as [z0 ->].
  { by apply slice_nonempty. }
  cbn [mbind Res_bind].
  destruct (add_loop_fault (S (String.length p)) p i i z0 e) as [z' ->];
    [lia|done|by unfold i; rewrite first_fault_span|].
  by eexists.
Qed.

Lemma Router_add_fault r route e :
  inherited (method route) = false →
  char_at (route_path route) 0 = Some "/"%char →
  pattern_fault (route_path route) = Some e →
  ∃ r', Router_add r route = Fail e r' ∧ _routes r' = _routes r.
Proof.
  intros Hown Hslash Hf. rewrite Router_add_unfold, Hown. cbn [andb].
  destruct (Radix_add_fault
    (default empty_radix (radixGroup r !! method route))
    (route_path route) (callback route) e Hslash Hf) as [root' ->].
  by eexists.
Qed.

Lemma add_loop_no_timeout fuel p i j z e z' :
  String.length p - i < fuel →
  add_loop fuel p i j z = Throw e z' → e ≠ OutOfFuel.
Proof.
  revert i j z. induction fuel as [|fuel IH]; intros i j z Hfuel; [lia|].
  rewrite add_loop_unfold. destruct (char_at p i) as [c|] eqn:Hc; [|done].
  pose proof (char_at_Some _ _ _ Hc) as Hi.
  destruct (isWildcard c); [|apply IH; lia].
  case_bool_decide.
  - destruct (insert_outcome z (slice p j i) None) as [[z1 ->]|[z1 ->]];
      cbn [mbind Res_bind]; [|by intros [= <- _]].
    destruct (scan_name _) as [k|]; [|by intros [= <- _]].
    destruct (_ && _); [by intros [= <- _]|].
    destruct (insert_outcome z1 (slice p i (S i + k)) None) as [[z2 ->]|[z2 ->]];
      cbn [mbind Res_bind]; [apply IH; lia|by intros [= <- _]].
  - cbn [mbind Res_bind].
    destruct (scan_name _) as [k|]; [|by intros [= <- _]].
    destruct (_ && _); [by intros [= <- _]|].
    destruct (insert_outcome z (slice p j (S i + k)) None) as [[z2 ->]|[z2 ->]];
      cbn [mbind Res_bind]; [apply IH; lia|by intros [= <- _]].
Qed.

(** The fuel of the embedding is never exhausted by a registration. *)
Lemma Radix_add_no_timeout root p h e root' :
  Radix_add root p h = Fail e root' → e ≠ OutOfFuel.
Proof.
  unfold Radix_add, Radix_add_at.
  destruct (merge_outcome (at_root root)
    (slice p 0 (span (λ c, negb (isWildcard c)) p)) None) as [[z0 ->]|[z0 ->]];
    cbn [mbind Res_bind]; [|by intros [= <- _]].
  destruct (add_loop _ _ _ _ _) as [[j z1]|e1 z1] eqn:Hloop; cbn [mbind Res_bind].
  - destruct (j =? String.length p).
    + destruct (merge_outcome z1 "" (Some h)) as [[z2 ->]|[z2 ->]];
        [done|by intros [= <- _]].
    + destruct (insert_outcome z1 (slice_from p j) (Some h)) as [[z2 ->]|[z2 ->]];
        [done|by intros [= <- _]].
  - intros [= <- _]. eapply add_loop_no_timeout; [|done]. lia.
Qed.

(** ** Malformed patterns *)

(** C8, as the claim states it, fails: in /*:/x a [":"] stands immediately
    before a slash, and the registration throws the wildcard-conflict
    error, because the segment holds a second marker. *)
Lemma colon_before_slash_raises_conflict :
  colon_before_slash_or_end "/*:/x"
  ∧ ∃ r', Router_add new_router (MkRoute "GET" "/*:/x" 1 None None)
          = Fail WildcardConflict r'.
Proof.
  split; [exists 2; split; [done|by left]|].
  eexists. vm_compute. reflexivity.
Qed.

(** C8, amended: for every pattern that starts with a slash and whose first
    faulty segment has a [":"] at its end as its only marker (the marker is
    followed by the slash that ends the segment or by the end of the
    pattern), the registration throws the empty-parameter-name error:
    Radix.add does on every tree and with every handler, and so does
    Router.add in whatever state the router is, without recording the
    route, for every method that is not the name of a member that all
    objects inherit (for such a method Router.add throws a TypeError before
    it reads the pattern). *)
Theorem empty_param_name_rejected :
  ∀ p,
    char_at p 0 = Some "/"%char →
    pattern_fault p = Some EmptyParamName →
    (∀ root h, ∃ root', Radix_add root p h = Fail EmptyParamName root')
    ∧ (∀ r route,
         route_path route = p → inherited (method route) = false →
         ∃ r', Router_add r route = Fail EmptyParamName r'
               ∧ _routes r' = _routes r).
Proof.
  intros p Hslash Hf. split.
  - intros root h. by apply Radix_add_fault.
  - intros r route <- Hown. by apply Router_add_fault.
Qed.

(** add("GET", "/:/x", h) throws the empty-parameter-name error. *)
Lemma empty_param_name_rejected_witness :
  let route := MkRoute "GET" "/:/x" 1 None None in
  char_at (route_path route) 0 = Some "/"%char
  ∧ pattern_fault (route_path route) = Some EmptyParamName
  ∧ inherited (method route) = false
  ∧ (∃ root', Radix_add empty_radix "/:/x" 1 = Fail EmptyParamName root')
  ∧ ∃ r', Router_add new_router route = Fail EmptyParamName r'
          ∧ _routes r' = _routes new_router.
Proof.
  intros route. split; [reflexivity|]. split; [reflexivity|].
  split; [reflexivity|].
  destruct (empty_param_name_rejected "/:/x") as [Htree Hrouter];
    [reflexivity..|].
  split; [apply Htree|]. apply Hrouter; reflexivity.
Defined.

(** C9, as the claim states it, fails: the segment *x*y of /:/*x*y holds
    two markers, and the registration throws the empty-parameter-name
    error, because the earlier segment [":"] is met first. *)
Lemma two_markers_raise_empty_name :
  two_markers_in_a_segment "/:/*x*y"
  ∧ ∃ r', Router_add new_router (MkRoute "GET" "/:/*x*y" 1 None None)
          = Fail EmptyParamName r'.
Proof.
  split.
  - exists "*x*y". split; [|simpl; lia].
    apply list_elem_of_lookup. by exists 2.
  - eexists. vm_compute. reflexivity.
Qed.

(** C9, amended: for every pattern that starts with a slash and whose first
    faulty segment holds more than one marker, the registration throws the
    wildcard-conflict error: Radix.add does on every tree and with every
    handler, and so does Router.add in whatever state the router is,
    without recording the route, for every method that is not the name of
    a member that all objects inherit (for such a method Router.add throws
    a TypeError before it reads the pattern). *)
Theorem marker_conflict_rejected :
  ∀ p,
    char_at p 0 = Some "/"%char →
    pattern_fault p = Some WildcardConflict →
    (∀ root h, ∃ root', Radix_add root p h = Fail WildcardConflict root')
    ∧ (∀ r route,
         route_path route = p → inherited (method route) = false →
         ∃ r', Router_add r route = Fail WildcardConflict r'
               ∧ _routes r' = _routes r).
Proof.
  intros p Hslash Hf. split.
  - intros root h. by apply Radix_add_fault.
  - intros r route <- Hown. by apply Router_add_fault.
Qed.

(** add("GET", "/a/*x*y", h) throws the wildcard-conflict error. *)
Lemma marker_conflict_rejected_witness :
  let route := MkRoute "GET" "/a/*x*y" 1 None None in
  char_at (route_path route) 0 = Some "/"%char
  ∧ pattern_fault (route_path route) = Some WildcardConflict
  ∧ inherited (method route) = false
  ∧ (∃ root', Radix_add empty_radix "/a/*x*y" 1 = Fail WildcardConflict root')
  ∧ ∃ r', Router_add new_router route = Fail WildcardConflict r'
          ∧ _routes r' = _routes new_router.
Proof.
  intros route. split; [reflexivity|]. split; [reflexivity|].
  split; [reflexivity|].
  destruct (marker_conflict_rejected "/a/*x*y") as [Htree Hrouter];
    [reflexivity..|].
  split; [apply Htree|]. apply Hrouter; reflexivity.
Defined.

(** ** The bindings a search returns *)

Lemma bind_all_snoc bs b ps :
  bind_all (bs ++ [b]) ps = <[b.1 := b.2]> (bind_all bs ps).
Proof. unfold bind_all. by rewrite foldl_app. Qed.

Lemma bind_all_lookup_None bs (ps : Params) x :
  ps !! x = None → x ∉ bs.*1 → bind_all bs ps !! x = None.
Proof.
  revert ps. induction bs as [|[k v] bs IH]; intros ps Hps Hx; [done|].
  simpl in *. apply IH.
  - rewrite lookup_insert_ne; [done|]. intros ->. apply Hx. left.
  - intros ?. apply Hx. by right.
Qed.

Lemma str_append_assoc (a b c : string) : (a +:+ b) +:+ c = a +:+ (b +:+ c).
Proof.
  induction a as [|x a IH]; [done|].
  change (String x ((a +:+ b) +:+ c) = String x (a +:+ (b +:+ c))).
  by rewrite IH.
Qed.

Lemma str_append_nil_r (a : string) : a +:+ "" = a.
Proof.
  induction a as [|x a IH]; [done|].
  change (String x (a +:+ "") = String x a). by rewrite IH.
Qed.

Lemma descends_snoc n m k c :
  descends n m → children m !! k = Some c → descends n c.
Proof.
  induction 1 as [n k' c' Hc'|n k' c' m Hc' _ IH]; intros Hc.
  - eapply descends_step; [done|]. by eapply descends_child.
  - eapply descends_step; [done|]. by apply IH.
Qed.

Lemma within_child root n k c :
  within root n → children n !! k = Some c → within root c.
Proof.
  intros [->|Hn] Hc; right; [by eapply descends_child|by eapply descends_snoc].
Qed.

Lemma candidate_child n np c : candidate n np c → ∃ k, children n !! k = Some c.
Proof. intros [?|[_ [?|?]]]; by eexists. Qed.

Lemma is_wild_not_param n : is_wild n = true → is_param n = false.
Proof.
  unfold is_wild, is_param, is_char. intros H%bool_decide_eq_true.
  rewrite H. by apply bool_decide_eq_false.
Qed.

Section search_invariant.
Variables (root : Radix) (p0 : string).
Hypothesis Hnames : names_unshadowed root.

Lemma frame_ok_under_unvisited f g below :
  fvis g = false → frame_ok root p0 f below → frame_ok root p0 f (g :: below).
Proof.
  intros Hg (Hin & Hdesc & Hreach). repeat split; [done| |].
  - intros g' [->|Hg']%elem_of_cons Hvis; [congruence|by apply Hdesc].
  - intros pat bs m Hm. simpl. unfold frame_bindings, frame_label.
    rewrite Hg. simpl. rewrite app_nil_r, str_append_nil_r. by apply Hreach.
Qed.

Lemma frame_ok_visit n p v below :
  frame_ok root p0 (MkFrame n p v) below →
  frame_ok root p0 (MkFrame n p true) below.
Proof. done. Qed.

(** The entries pushed for the children of a visited entry keep the
    invariant when every child the search may enter does. *)
Lemma push_children_ok n np st :
  stack_ok root p0 st →
  (∀ c, candidate n np c → frame_ok root p0 (MkFrame c np false) st) →
  stack_ok root p0 (push_children n np st)
  ∧ stack_bindings (push_children n np st) = stack_bindings st.
Proof.
  intros Hst Hcand. unfold push_children.
  set (st1 := match children n !! Some "*"%char with
              | Some c => MkFrame c np false :: st
              | None => st
              end).
  assert (stack_ok root p0 st1 ∧ stack_bindings st1 = stack_bindings st
          ∧ ∀ f, frame_ok root p0 f st → frame_ok root p0 f st1) as (H1 & B1 & K1).
  { subst st1. destruct (children n !! Some "*"%char) as [c|] eqn:Hc; [|done].
    split; [|split].
    - split; [|done]. apply Hcand. by left.
    - simpl. unfold frame_bindings. simpl. by rewrite app_nil_r.
    - intros f. by apply frame_ok_under_unvisited. }
  destruct (str_eqb np "") eqn:Hnp; [done|].
  assert (np ≠ "") as Hnp'. { intros E%str_eqb_eq. congruence. }
  set (st2 := match children n !! Some ":"%char with
              | Some c => MkFrame c np false :: st1
              | None => st1
              end).
  assert (stack_ok root p0 st2 ∧ stack_bindings st2 = stack_bindings st
          ∧ ∀ f, frame_ok root p0 f st → frame_ok root p0 f st2) as (H2 & B2 & K2).
  { subst st2. destruct (children n !! Some ":"%char) as [c|] eqn:Hc; [|done].
    split; [|split].
    - split; [|done]. apply K1, Hcand. right. split; [done|by left].
    - simpl. unfold frame_bindings. simpl. by rewrite app_nil_r.
    - intros f Hf. by apply frame_ok_under_unvisited, K1. }
  destruct (children n !! char_at np 0) as [c|] eqn:Hc; [|done].
  split.
  - split; [|done]. apply K2, Hcand. right. split; [done|by right].
  - simpl. unfold frame_bindings. simpl. by rewrite app_nil_r.
Qed.

(** The names bound by the visited entries of a stack belong to visited
    parameter entries. *)
Lemma stack_bindings_names st x :
  x ∈ (stack_bindings st).*1 →
  ∃ g, g ∈ st ∧ fvis g = true ∧ is_param (fnode g) = true
       ∧ name_of (fnode g) = x.
Proof.
  induction st as [|f below IH]; simpl; [by intros ?%elem_of_nil|].
  rewrite fmap_app, elem_of_app. intros [Hx|Hx].
  - destruct (IH Hx) as (g & Hg & ?). exists g. split; [by right|done].
  - unfold frame_bindings in Hx.
    destruct (fvis f) eqn:Hv, (is_param (fnode f)) eqn:Hp; simpl in Hx;
      try by apply elem_of_nil in Hx.
    apply list_elem_of_singleton in Hx as ->. exists f. split; [by left|done].
Qed.

Lemma stack_ok_within st g : stack_ok root p0 st → g ∈ st → within root (fnode g).
Proof.
  induction st as [|f below IH]; [by intros _ ?%elem_of_nil|].
  intros [(Hin & _) Hbelow] [->|Hg]%elem_of_cons; [done|by apply IH].
Qed.

(** Leaving a parameter node removes exactly the binding it made. *)
Lemma leave_param_restores n p below :
  stack_ok root p0 (MkFrame n p true :: below) →
  is_param n = true →
  delete (name_of n) (bind_all (stack_bindings (MkFrame n p true :: below)) ∅)
  = bind_all (stack_bindings below) ∅.
Proof.
  intros [(Hin & Hdesc & _) Hbelow] Hp. simpl. unfold frame_bindings. simpl.
  rewrite Hp, bind_all_snoc. simpl.
  rewrite delete_insert_eq. apply delete_id.
  apply bind_all_lookup_None; [done|].
  intros (g & Hg & Hvis & Hgp & Hname)%stack_bindings_names.
  eapply (Hnames (fnode g) n); eauto using stack_ok_within.
Qed.

(** Descending from an entry: it becomes visited and the children the search
    may enter are pushed on top of it. *)
Lemma descend_ok n p np below :
  stack_ok root p0 (MkFrame n p false :: below) →
  (∀ c pat bs m, candidate n np c → reaches c np pat bs m →
     reaches n p (path n +:+ pat) (frame_bindings (MkFrame n p true) ++ bs) m) →
  stack_ok root p0 (push_children n np (MkFrame n p true :: below))
  ∧ stack_bindings (push_children n np (MkFrame n p true :: below))
    = stack_bindings below ++ frame_bindings (MkFrame n p true).
Proof.
  intros [Hf Hbelow] Hdown. pose proof Hf as (Hin & Hdesc & Hreach).
  apply push_children_ok; [done|].
  intros c Hc. destruct (candidate_child _ _ _ Hc) as [k Hk].
  repeat split; simpl.
  - by eapply within_child.
  - intros g [->|Hg]%elem_of_cons Hvis; simpl.
    + by eapply descends_child.
    + eapply descends_snoc; [|done]. by apply Hdesc.
  - intros pat bs m Hm. unfold frame_label. simpl.
    rewrite <- app_assoc, str_append_assoc. apply Hreach. simpl. by apply (Hdown c).
Qed.

Lemma find_step_inv st ps :
  stack_ok root p0 st → ps = bind_all (stack_bindings st) ∅ →
  match find_step st ps with
  | Continue st' ps' =>
      stack_ok root p0 st' ∧ ps' = bind_all (stack_bindings st') ∅
  | Break h ps' =>
      ∀ cb, h = Some cb →
        ∃ pat bs m, reaches root p0 pat bs m ∧ handler m = Some cb
                    ∧ ps' = bind_all bs ∅
  end.
Proof.
  destruct st as [|[n p v] below]; [done|]. intros Hst ->.
  unfold find_step. destruct v.
  { (* leaving a visited entry *)
    split; [by destruct Hst|].
    fold (is_param n). destruct (is_param n) eqn:Hp.
    - by apply leave_param_restores.
    - simpl. unfold frame_bindings. simpl. by rewrite Hp, app_nil_r. }
  pose proof Hst as [(Hin & Hdesc & Hreach) Hbelow].
  assert (stack_bindings (MkFrame n p false :: below) = stack_bindings below)
    as -> by (simpl; unfold frame_bindings; simpl; by rewrite app_nil_r).
  simpl in Hreach.
  fold (is_wild n) (is_param n).
  destruct (is_wild n) eqn:Hw.
  { (* a wildcard node *)
    intros cb Hcb. eexists _, _, n. split; [|split; [done|]].
    - apply Hreach. by apply reaches_wild.
    - destruct (1 <? String.length (path n)); [|by rewrite app_nil_r].
      by rewrite bind_all_snoc. }
  destruct (is_param n) eqn:Hp.
  { (* a parameter node *)
    destruct (splitFromFirstSlash p) as [cp np] eqn:Hsplit.
    destruct (str_eqb np "") eqn:Hnp.
    - apply str_eqb_eq in Hnp as ->.
      intros cb Hcb. eexists _, _, n. split; [|split; [done|]].
      + apply Hreach. by eapply reaches_param_end.
      + by rewrite bind_all_snoc.
    - assert (np ≠ "") as Hnp'. { intros E%str_eqb_eq. congruence. }
      destruct (descend_ok n p np below Hst) as [Hok Hb].
      { intros c pat bs m Hc Hm. unfold frame_bindings.
        cbn [fvis fnode fpath andb]. rewrite Hp, Hsplit.
        by eapply reaches_param_down. }
      split; [done|]. rewrite Hb. unfold frame_bindings.
      cbn [fvis fnode fpath andb]. rewrite Hp, Hsplit.
      by rewrite bind_all_snoc. }
  assert (frame_bindings (MkFrame n p true) = []) as Hnone
    by (unfold frame_bindings; simpl; by rewrite Hp).
  destruct (str_eqb (path n) p) eqn:Heq.
  { (* a static node whose label is the whole rest of the path *)
    apply str_eqb_eq in Heq.
    destruct (handler n) as [h|] eqn:Hh.
    - intros cb [= <-]. eexists _, _, n. split; [|split; [done|]].
      + apply Hreach. by apply reaches_static_end.
      + by rewrite app_nil_r.
    - case_bool_decide; [|by split].
      destruct (descend_ok n p "" below Hst) as [Hok Hb].
      { intros c pat bs m Hc Hm. rewrite Hnone. by eapply reaches_static_rest. }
      split; [done|]. by rewrite Hb, Hnone, app_nil_r. }
  assert (path n ≠ p) as Hne. { intros E%str_eqb_eq. congruence. }
  destruct (longestCommonPrefix (path n) p =? String.length (path n)) eqn:Hlcp;
    simpl; [|by split].
  apply Nat.eqb_eq in Hlcp. rewrite Hlcp.
  destruct (descend_ok n p (slice_from p (String.length (path n))) below Hst)
    as [Hok Hb].
  { intros c pat bs m Hc Hm. rewrite Hnone. by eapply reaches_static_down. }
  split; [done|]. by rewrite Hb, Hnone, app_nil_r.
Qed.

Lemma find_loop_inv fuel st ps cb ps' :
  stack_ok root p0 st → ps = bind_all (stack_bindings st) ∅ →
  find_loop fuel st ps = Some (Some cb, ps') →
  ∃ pat bs m, reaches root p0 pat bs m ∧ handler m = Some cb
              ∧ ps' = bind_all bs ∅.
Proof.
  revert st ps. induction fuel as [|fuel IH]; intros st ps Hst Hps; [done|].
  simpl. pose proof (find_step_inv st ps Hst Hps) as Hstep.
  destruct (find_step st ps) as [st' ps1|h ps1].
  - destruct Hstep. by apply IH.
  - intros [= -> ->]. by apply Hstep.
Qed.
End search_invariant.

Lemma stack_ok_initial root p : stack_ok root p [MkFrame root p false].
Proof.
  split; [|done]. repeat split.
  - by left.
  - by intros g ?%elem_of_nil.
  - intros pat bs m Hm. done.
Qed.

Lemma map_fold_and_true {A} (f : A → bool) (m : gmap Key A) k c :
  map_fold (λ _ c acc, f c && acc) true m = true →
  m !! k = Some c → f c = true.
Proof.
  revert k c.
  apply (map_fold_weak_ind
    (λ r (m : gmap Key A), ∀ k c, r = true → m !! k = Some c → f c = true)).
  - intros k c _ Hk. by rewrite lookup_empty in Hk.
  - intros i x m' r Hi IH k c [Hx Hr]%andb_true_iff Hk.
    destruct (decide (i = k)) as [->|Hne].
    + rewrite lookup_insert_eq in Hk. by injection Hk as <-.
    + rewrite lookup_insert_ne in Hk by done. by eapply IH.
Qed.

Lemma map_fold_app_elem {A B} (g : A → list B) (m : gmap Key A) k c x :
  m !! k = Some c → x ∈ g c →
  x ∈ map_fold (λ _ c acc, g c ++ acc) [] m.
Proof.
  revert k c.
  apply (map_fold_weak_ind
    (λ r (m : gmap Key A), ∀ k c, m !! k = Some c → x ∈ g c → x ∈ r)).
  - intros k c Hk. by rewrite lookup_empty in Hk.
  - intros i y m' r Hi IH k c Hk Hx. apply elem_of_app.
    destruct (decide (i = k)) as [->|Hne].
    + rewrite lookup_insert_eq in Hk. injection Hk as <-. by left.
    + rewrite lookup_insert_ne in Hk by done. right. by eapply IH.
Qed.

Lemma names_below_child n k c x :
  children n !! k = Some c →
  x ∈ (if is_param c then [name_of c] else []) ++ names_below c →
  x ∈ names_below n.
Proof.
  destruct n as [p ch h]. simpl. intros Hk Hx.
  by eapply (map_fold_app_elem
    (λ c, (if is_param c then [name_of c] else []) ++ names_below c)).
Qed.

Lemma names_below_descends n m :
  descends n m → is_param m = true → name_of m ∈ names_below n.
Proof.
  induction 1 as [n k c Hc|n k c m Hc _ IH]; intros Hp.
  - eapply names_below_child; [done|]. rewrite Hp. apply elem_of_app. left.
    by apply list_elem_of_singleton.
  - eapply names_below_child; [done|]. apply elem_of_app. right. by apply IH.
Qed.

Lemma unshadowed_unfold n :
  unshadowed n =
    (if is_param n then bool_decide (name_of n ∉ names_below n) else true)
    && map_fold (λ _ c acc, unshadowed c && acc) true (children n).
Proof. by destruct n. Qed.

Lemma unshadowed_child n k c :
  unshadowed n = true → children n !! k = Some c → unshadowed c = true.
Proof.
  rewrite unshadowed_unfold. intros [_ H]%andb_true_iff Hk.
  by eapply (map_fold_and_true unshadowed).
Qed.

Lemma unshadowed_descends n m :
  unshadowed n = true → descends n m → unshadowed m = true.
Proof.
  intros Hn Hm. induction Hm as [n k c Hc|n k c m Hc _ IH].
  - by eapply unshadowed_child.
  - apply IH. by eapply unshadowed_child.
Qed.

(** The test decides the property. *)
Lemma unshadowed_sound root : unshadowed root = true → names_unshadowed root.
Proof.
  intros Hroot n m Hn Hm Hpn Hpm Heq.
  assert (unshadowed n = true) as Hun.
  { destruct Hn as [->|Hn]; [done|by eapply unshadowed_descends]. }
  rewrite unshadowed_unfold in Hun. apply andb_true_iff in Hun as [Hun _].
  rewrite Hpn in Hun. apply bool_decide_eq_true in Hun. apply Hun.
  rewrite <- Heq. by apply names_below_descends.
Qed.

(** Leaving a visited parameter node deletes the binding of its name; the
    search never leaves a wildcard node, at which it always ends. *)
Lemma backtrack_removes_binding n p rest (ps : Params) :
  is_param n = true →
  find_step (MkFrame n p true :: rest) ps = Continue rest (delete (name_of n) ps).
Proof. intros Hp. simpl. fold (is_param n). by rewrite Hp. Qed.

(** C3, amended: in a tree in which no parameter node lies below a
    parameter node of the same name, the bindings a successful search
    returns are exactly the captures made along a chain of nodes from the
    root to the node whose handler is returned, the chain along which the
    path matches; a capture made on a branch the search has left is not
    among them (it is deleted on the way back, see
    [backtrack_removes_binding]). *)
Theorem find_returns_captures_of_match :
  ∀ root p cb (ps : Params),
    names_unshadowed root →
    Radix_find root p = Some (Some cb, ps) →
    ∃ pat bs m,
      reaches root p pat bs m ∧ handler m = Some cb ∧ ps = bind_all bs ∅.
Proof.
  intros root p cb ps Hnames Hfind.
  eapply (find_loop_inv root p Hnames); [apply stack_ok_initial|done|done].
Qed.

(** With /:a/x and /*w registered, the search for /1/y takes five
    iterations: it leaves the root for the parameter node [":a"], binds
    a = "1" there, fails at the static child ["/x"], backtracks out of the
    parameter node, which deletes the binding of a, and ends at the
    wildcard node.  The bindings returned are the capture of /*w alone. *)
Lemma find_returns_captures_of_match_witness :
  let leaf := Node "/x" ∅ (Some 1) in
  let param := Node ":a" {[ Some "/"%char := leaf ]} None in
  let wild := Node "*w" ∅ (Some 2) in
  let root := Node "/"
    (<[Some "*"%char := wild]> {[ Some ":"%char := param ]}) None in
  let st0 := [MkFrame root "/1/y" false] in
  let st1 := [MkFrame param "1/y" false; MkFrame wild "1/y" false;
              MkFrame root "/1/y" true] in
  let st2 := [MkFrame leaf "/y" false; MkFrame param "1/y" true;
              MkFrame wild "1/y" false; MkFrame root "/1/y" true] in
  let st3 := [MkFrame param "1/y" true; MkFrame wild "1/y" false;
              MkFrame root "/1/y" true] in
  let st4 := [MkFrame wild "1/y" false; MkFrame root "/1/y" true] in
  Radix_add_all empty_radix [("/:a/x", 1); ("/*w", 2)] = Done root
  ∧ names_unshadowed root
  ∧ find_step st0 ∅ = Continue st1 ∅
  ∧ find_step st1 ∅ = Continue st2 {[ "a" := "1" ]}
  ∧ find_step st2 {[ "a" := "1" ]} = Continue st3 {[ "a" := "1" ]}
  ∧ find_step st3 {[ "a" := "1" ]} = Continue st4 ∅
  ∧ find_step st4 ∅ = Break (Some 2) {[ "w" := "1/y" ]}
  ∧ Radix_find root "/1/y" = Some (Some 2, {[ "w" := "1/y" ]})
  ∧ ∃ pat bs m,
      reaches root "/1/y" pat bs m ∧ handler m = Some 2
      ∧ ({[ "w" := "1/y" ]} : Params) = bind_all bs ∅.
Proof.
  intros leaf param wild root st0 st1 st2 st3 st4.
  split; [vm_compute; reflexivity|].
  split; [apply unshadowed_sound; vm_compute; reflexivity|].
  do 6 (split; [vm_compute; reflexivity|]).
  apply (find_returns_captures_of_match root "/1/y" 2 {[ "w" := "1/y" ]}).
  - apply unshadowed_sound. vm_compute. reflexivity.
  - vm_compute. reflexivity.
Defined.

(** One step of a match, by cases on the node as the search tests them. *)
Lemma reaches_step n p pat bs m :
  reaches n p pat bs m →
  if is_wild n then
    m = n ∧ bs = (if 1 <? String.length (path n) then [(name_of n, p)] else [])
  else if is_param n then
    if str_eqb (splitFromFirstSlash p).2 "" then
      m = n ∧ bs = [(name_of n, (splitFromFirstSlash p).1)]
    else
      ∃ c pat' bs',
        candidate n (splitFromFirstSlash p).2 c
        ∧ reaches c (splitFromFirstSlash p).2 pat' bs' m
        ∧ bs = (name_of n, (splitFromFirstSlash p).1) :: bs'
  else if str_eqb (path n) p then
    match handler n with
    | Some _ => m = n ∧ bs = []
    | None => ∃ c pat', candidate n "" c ∧ reaches c "" pat' bs m
    end
  else
    longestCommonPrefix (path n) p = String.length (path n)
    ∧ ∃ c pat',
        candidate n (slice_from p (String.length (path n))) c
        ∧ reaches c (slice_from p (String.length (path n))) pat' bs m.
Proof.
  destruct 1 as [n p Hw|n p cp Hw Hp Hs|n p cp np c pat bs m Hw Hp Hs Hnp Hc Hm
                |n p Hw Hp Heq Hh|n p c pat bs m Hw Hp Heq Hh Hc Hm
                |n p c pat bs m Hw Hp Hne Hl Hc Hm].
  - by rewrite Hw.
  - rewrite Hw, Hp, Hs. done.
  - rewrite Hw, Hp, Hs. cbn [fst snd].
    replace (str_eqb np "") with false
      by (symmetry; by apply bool_decide_eq_false).
    by exists c, pat, bs.
  - rewrite Hw, Hp. replace (str_eqb (path n) p) with true
      by (symmetry; by apply bool_decide_eq_true).
    by destruct Hh as [h ->].
  - rewrite Hw, Hp, Hh. replace (str_eqb (path n) p) with true
      by (symmetry; by apply bool_decide_eq_true).
    by exists c, pat.
  - rewrite Hw, Hp. replace (str_eqb (path n) p) with false
      by (symmetry; by apply bool_decide_eq_false).
    split; [done|]. by exists c, pat.
Qed.

(** Inversion of [reaches] and [candidate] on closed trees. *)
Ltac reaches_go H := apply reaches_step in H; vm_compute in H.

Ltac candidate_go H :=
  destruct H as [H|[_ [H|H]]]; try discriminate H; injection H as <-.

(** C3, as the claim states it, fails.  With /:a/:a/x and /:a/*r registered,
    the search for /1/2/y binds a = "1", enters the inner parameter node,
    which binds a = "2", fails below it and deletes a on the way back; the
    match with /:a/*r that follows is returned with r alone, although the
    pattern captures a = "1" as well: no chain along which the path matches
    has the bindings returned. *)
Lemma shadowed_name_loses_capture :
  let root := Node "/" {[ Some ":"%char :=
      Node ":a" {[ Some "/"%char :=
        Node "/" (<[Some ":"%char :=
                     Node ":a" {[ Some "/"%char := Node "/x" ∅ (Some 1) ]} None]>
                  {[ Some "*"%char := Node "*r" ∅ (Some 2) ]}) None ]} None ]}
    None in
  Radix_add_all empty_radix [("/:a/:a/x", 1); ("/:a/*r", 2)] = Done root
  ∧ Radix_find root "/1/2/y" = Some (Some 2, {[ "r" := "2/y" ]})
  ∧ ¬ ∃ pat bs m,
        reaches root "/1/2/y" pat bs m ∧ handler m = Some 2
        ∧ ({[ "r" := "2/y" ]} : Params) = bind_all bs ∅.
Proof.
  intros root.
  split; [vm_compute; reflexivity|]. split; [vm_compute; reflexivity|].
  intros (pat & bs & m & Hm & _ & Hps).
  assert (bs = [("a", "1"); ("r", "2/y")]) as ->.
  { clear Hps. reaches_go Hm. destruct Hm as (_ & c & pat1 & Hc & Hm).
    candidate_go Hc. reaches_go Hm. destruct Hm as (c & pat2 & bs2 & Hc & Hm & ->).
    candidate_go Hc. reaches_go Hm. destruct Hm as (_ & c & pat3 & Hc & Hm).
    candidate_go Hc.
    - reaches_go Hm. by destruct Hm as [_ ->].
    - reaches_go Hm. destruct Hm as (c & pat4 & bs4 & Hc & Hm & ->).
      candidate_go Hc. reaches_go Hm. by destruct Hm as [[=] _]. }
  apply (f_equal (λ m : Params, m !! "a")) in Hps. vm_compute in Hps. done.
Qed.

(** ** Insertion of strings: equations *)

Lemma put_unfold n s oh :
  put n s oh =
    let i := longestCommonPrefix s (path n) in
    if i <? String.length (path n) then
      let lower := Node (slice_from (path n) i) (children n) (handler n) in
      let ch' : gmap Key Radix := {[ char_at (path n) i := lower ]} in
      if i <? String.length s
      then Node (slice s 0 i)
             (<[char_at s i := Node (slice_from s i) ∅ oh]> ch') None
      else Node (slice s 0 i) ch' oh
    else if i <? String.length s then
      let k := char_at s i in
      match children n !! k with
      | Some c => set_children n (<[k := put c (slice_from s i) oh]> (children n))
      | None => set_children n (<[k := Node (slice_from s i) ∅ oh]> (children n))
      end
    else set_handler n (upd oh (handler n)).
Proof.
  destruct n as [p ch h]. simpl.
  destruct (_ <? String.length p); [done|].
  destruct (_ <? String.length s); [|done].
  destruct (ch !! _) as [c|] eqn:Hc; [|done].
  unfold set_children. simpl. f_equal.
  apply map_eq. intros k'. rewrite map_lookup_imap.
  destruct (decide (char_at s (longestCommonPrefix s p) = k')) as [<-|Hne].
  - rewrite lookup_insert_eq, Hc. simpl. by rewrite decide_True.
  - rewrite lookup_insert_ne by done. destruct (ch !! k'); [|done].
    simpl. by rewrite decide_False.
Qed.

Lemma bound_unfold n s :
  bound n s =
    let i := longestCommonPrefix s (path n) in
    if i <? String.length (path n) then false
    else if i <? String.length s then
      match children n !! char_at s i with
      | Some c => bound c (slice_from s i)
      | None => false
      end
    else bool_decide (is_Some (handler n)).
Proof.
  destruct n as [p ch h]. simpl.
  destruct (_ <? String.length p); [done|].
  destruct (_ <? String.length s); [|done].
  rewrite lookup_fmap. by destruct (ch !! _).
Qed.

(** The same, one character at a time. *)
Lemma put_nil_nil ch h oh : put (Node "" ch h) "" oh = Node "" ch (upd oh h).
Proof. by rewrite put_unfold. Qed.

Lemma put_nil_cons ch h d s oh :
  put (Node "" ch h) (String d s) oh =
    Node "" (<[Some d := match ch !! Some d with
                         | Some c => put c (String d s) oh
                         | None => Node (String d s) ∅ oh
                         end]> ch) h.
Proof. rewrite put_unfold. simpl. by destruct (ch !! Some d). Qed.

Lemma put_cons_nil c p ch h oh :
  put (Node (String c p) ch h) "" oh =
    Node "" {[ Some c := Node (String c p) ch h ]} oh.
Proof. by rewrite put_unfold. Qed.

Lemma put_cons_ne c p ch h d s oh :
  c ≠ d →
  put (Node (String c p) ch h) (String d s) oh =
    Node "" (<[Some d := Node (String d s) ∅ oh]>
               {[ Some c := Node (String c p) ch h ]}) None.
Proof.
  intros Hne. rewrite put_unfold. simpl.
  rewrite bool_decide_false by done. done.
Qed.

Lemma put_cons_eq c n s oh :
  put (prepend c n) (String c s) oh = prepend c (put n s oh).
Proof.
  destruct n as [p ch h]. unfold prepend. rewrite !put_unfold. simpl.
  rewrite bool_decide_true by done.
  change (S ?a <? S ?b) with (a <? b).
  destruct (_ <? String.length p).
  - destruct (_ <? String.length s); unfold slice; simpl; by rewrite ?Nat.sub_0_r.
  - destruct (_ <? String.length s); [|done].
    by destruct (ch !! _).
Qed.

Lemma bound_nil_nil ch h : bound (Node "" ch h) "" = bool_decide (is_Some h).
Proof. by rewrite bound_unfold. Qed.

Lemma bound_nil_cons ch h d s :
  bound (Node "" ch h) (String d s) =
    match ch !! Some d with
    | Some c => bound c (String d s)
    | None => false
    end.
Proof. by rewrite bound_unfold. Qed.

Lemma bound_cons_nil c p ch h : bound (Node (String c p) ch h) "" = false.
Proof. by rewrite bound_unfold. Qed.

Lemma bound_cons_ne c p ch h d s :
  c ≠ d → bound (Node (String c p) ch h) (String d s) = false.
Proof.
  intros Hne. rewrite bound_unfold. simpl. by rewrite bool_decide_false.
Qed.

Lemma bound_cons_eq c n s : bound (prepend c n) (String c s) = bound n s.
Proof.
  destruct n as [p ch h]. unfold prepend. rewrite !bound_unfold. simpl.
  rewrite bool_decide_true by done.
  by change (S ?a <? S ?b) with (a <? b).
Qed.

Lemma prepend_node c p ch h : Node (String c p) ch h = prepend c (Node p ch h).
Proof. done. Qed.

Lemma put_prepend_nil c n oh :
  put (prepend c n) "" oh = Node "" {[ Some c := prepend c n ]} oh.
Proof. apply put_cons_nil. Qed.

Lemma put_prepend_ne c n d s oh :
  c ≠ d →
  put (prepend c n) (String d s) oh =
    Node "" (<[Some d := Node (String d s) ∅ oh]> {[ Some c := prepend c n ]})
      None.
Proof. apply put_cons_ne. Qed.

Lemma upd_comm oa ob h :
  oa = None ∨ ob = None → upd oa (upd ob h) = upd ob (upd oa h).
Proof. intros [->| ->]; [by destruct ob|by destruct oa]. Qed.

Lemma compatible_cons c a b oa ob :
  compatible (String c a) (String c b) oa ob → compatible a b oa ob.
Proof. intros [H|H]; [left|by right]. by intros ->. Qed.

Lemma compatible_sym a b oa ob : compatible a b oa ob → compatible b a ob oa.
Proof. intros [H|[H|H]]; [left|right; right|right; left]; done. Qed.

(** ** Insertions commute *)

Lemma put_leaf_comm a b oa ob :
  compatible a b oa ob →
  put (Node b ∅ ob) a oa = put (Node a ∅ oa) b ob.
Proof.
  revert b. induction a as [|da a IH]; intros [|db b] Hc.
  - rewrite !put_nil_nil. f_equal.
    destruct Hc as [?|[->| ->]]; [done|by destruct ob|by destruct oa].
  - by rewrite put_cons_nil, put_nil_cons, lookup_empty, insert_empty.
  - by rewrite put_cons_nil, put_nil_cons, lookup_empty, insert_empty.
  - destruct (decide (da = db)) as [->|Hne].
    + rewrite (prepend_node db b), (prepend_node db a), !put_cons_eq.
      f_equal. apply IH. by eapply compatible_cons.
    + rewrite !put_cons_ne by done. f_equal.
      apply insert_singleton_ne. by intros [= ?].
Qed.

Lemma put_comm n a b oa ob :
  compatible a b oa ob →
  put (put n b ob) a oa = put (put n a oa) b ob.
Proof.
  revert a b. induction n as [n IHch] using Radix_child_ind.
  destruct n as [p ch h]. simpl in IHch.
  induction p as [|c p IHp]; intros a b Hc.
  - (* the label is exhausted: the strings go on in the children *)
    destruct a as [|da a], b as [|db b].
    + rewrite !put_nil_nil. f_equal. apply upd_comm.
      destruct Hc as [?|[?|?]]; [done|by left|by right].
    + by rewrite put_nil_cons, !put_nil_nil, put_nil_cons.
    + by rewrite put_nil_cons, !put_nil_nil, put_nil_cons.
    + rewrite !put_nil_cons. f_equal.
      destruct (decide (da = db)) as [->|Hne].
      * rewrite !lookup_insert_eq, !insert_insert_eq. f_equal.
        destruct (ch !! Some db) as [c|] eqn:Hk.
        -- by eapply IHch.
        -- by apply put_leaf_comm.
      * rewrite !lookup_insert_ne by (by intros [= ?]).
        apply insert_insert_ne. by intros [= ?].
  - change (Node (String c p) ch h) with (prepend c (Node p ch h)).
    set (n := Node p ch h) in *.
    destruct a as [|da a], b as [|db b].
    + rewrite !put_prepend_nil, !put_nil_nil. f_equal.
      destruct Hc as [?|[->| ->]]; [done|by destruct ob|by destruct oa].
    + rewrite put_prepend_nil, put_nil_cons.
      destruct (decide (c = db)) as [->|Hne].
      * rewrite lookup_singleton_eq, put_cons_eq, put_prepend_nil.
        by rewrite insert_singleton_eq.
      * rewrite lookup_singleton_ne by (by intros [= ?]).
        rewrite put_prepend_ne by done. rewrite put_nil_nil.
        by destruct oa.
    + rewrite put_prepend_nil, put_nil_cons.
      destruct (decide (c = da)) as [->|Hne].
      * rewrite lookup_singleton_eq, put_cons_eq, put_prepend_nil.
        by rewrite insert_singleton_eq.
      * rewrite lookup_singleton_ne by (by intros [= ?]).
        rewrite put_prepend_ne by done. rewrite put_nil_nil.
        by destruct ob.
    + destruct (decide (c = da)) as [<-|Ha], (decide (c = db)) as [<-|Hb].
      * rewrite !put_cons_eq. f_equal. apply IHp. by eapply compatible_cons.
      * rewrite (put_prepend_ne c n db b) by done.
        rewrite put_nil_cons, lookup_insert_ne by (by intros [= ?]).
        rewrite lookup_singleton_eq, put_cons_eq.
        rewrite put_prepend_ne by done. f_equal.
        rewrite insert_insert_ne by (by intros [= ?]).
        by rewrite insert_singleton_eq.
      * rewrite (put_prepend_ne c n da a) by done.
        rewrite put_nil_cons, lookup_insert_ne by (by intros [= ?]).
        rewrite lookup_singleton_eq, put_cons_eq.
        rewrite put_prepend_ne by done. f_equal.
        rewrite insert_insert_ne by (by intros [= ?]).
        by rewrite insert_singleton_eq.
      * rewrite !put_prepend_ne by done. rewrite !put_nil_cons. f_equal.
        destruct (decide (da = db)) as [->|Hne].
        -- rewrite !lookup_insert_eq, !insert_insert_eq. f_equal.
           by apply put_leaf_comm.
        -- rewrite !lookup_insert_ne by (by intros [= ?]).
           rewrite !lookup_singleton_ne by (by intros [= ?]).
           apply insert_insert_ne. by intros [= ?].
Qed.

(** ** Which strings are bound after an insertion *)

Lemma bound_prepend_nil c n : bound (prepend c n) "" = false.
Proof. apply bound_cons_nil. Qed.

Lemma bound_prepend_ne c n d s : c ≠ d → bound (prepend c n) (String d s) = false.
Proof. apply bound_cons_ne. Qed.

Lemma bound_leaf b ob a :
  bound (Node b ∅ ob) a = bool_decide (a = b) && bool_decide (is_Some ob).
Proof.
  revert b. induction a as [|da a IH]; intros [|db b].
  - by rewrite bound_nil_nil.
  - by rewrite bound_cons_nil.
  - by rewrite bound_nil_cons, lookup_empty.
  - destruct (decide (db = da)) as [->|Hne].
    + rewrite (prepend_node da b), bound_cons_eq, IH. f_equal.
      apply bool_decide_ext. split; [by intros ->|by intros [= ->]].
    + rewrite bound_cons_ne by done. symmetry.
      rewrite bool_decide_false; [done|]. by intros [= ? ?].
Qed.

Lemma bound_put n a b ob :
  bound (put n b ob) a
  = bound n a || (bool_decide (a = b) && bool_decide (is_Some ob)).
Proof.
  revert a b. induction n as [n IHch] using Radix_child_ind.
  destruct n as [p ch h]. simpl in IHch.
  assert (∀ d x y, bool_decide (String d x = String d y) = bool_decide (x = y))
    as Hcons.
  { intros d x y. apply bool_decide_ext.
    split; [by intros [= ->]|by intros ->]. }
  induction p as [|c p IHp]; intros a b.
  - destruct a as [|da a], b as [|db b].
    + rewrite put_nil_nil, !bound_nil_nil. by destruct ob, h.
    + rewrite put_nil_cons, !bound_nil_nil. by rewrite orb_false_r.
    + rewrite put_nil_nil, !bound_nil_cons. by rewrite orb_false_r.
    + rewrite put_nil_cons, !bound_nil_cons.
      destruct (decide (da = db)) as [->|Hne].
      * rewrite lookup_insert_eq.
        destruct (ch !! Some db) as [c|] eqn:Hk.
        -- by erewrite IHch.
        -- by rewrite bound_leaf.
      * rewrite lookup_insert_ne by (by intros [= ?]).
        rewrite (bool_decide_false (String da a = String db b))
          by (by intros [= ? ?]).
        by rewrite orb_false_r.
  - change (Node (String c p) ch h) with (prepend c (Node p ch h)).
    set (n := Node p ch h) in *.
    destruct a as [|da a], b as [|db b].
    + rewrite put_prepend_nil, bound_nil_nil, bound_prepend_nil. by destruct ob.
    + rewrite bound_prepend_nil.
      destruct (decide (c = db)) as [->|Hne].
      * by rewrite put_cons_eq, bound_prepend_nil.
      * by rewrite put_prepend_ne, bound_nil_nil.
    + rewrite put_prepend_nil, bound_nil_cons.
      destruct (decide (c = da)) as [->|Hne].
      * rewrite lookup_singleton_eq. by rewrite orb_false_r.
      * rewrite lookup_singleton_ne by (by intros [= ?]).
        by rewrite bound_prepend_ne.
    + destruct (decide (c = da)) as [<-|Ha], (decide (c = db)) as [<-|Hb].
      * by rewrite put_cons_eq, !bound_cons_eq, IHp, Hcons.
      * rewrite put_prepend_ne by done.
        rewrite bound_nil_cons, lookup_insert_ne by (by intros [= ?]).
        rewrite lookup_singleton_eq.
        rewrite (bool_decide_false (String c a = String db b))
          by (by intros [= ? ?]).
        by rewrite orb_false_r.
      * rewrite put_cons_eq, !bound_prepend_ne by done.
        rewrite (bool_decide_false (String da a = String c b))
          by (by intros [= ? ?]).
        done.
      * rewrite put_prepend_ne, bound_prepend_ne by done.
        rewrite bound_nil_cons.
        destruct (decide (da = db)) as [->|Hne].
        -- by rewrite lookup_insert_eq, bound_leaf.
        -- rewrite lookup_insert_ne by (by intros [= ?]).
           rewrite lookup_singleton_ne by (by intros [= ?]).
           rewrite (bool_decide_false (String da a = String db b))
             by (by intros [= ? ?]).
           done.
Qed.

(** ** More on strings *)

Lemma str_length_app (a b : string) :
  String.length (a +:+ b) = String.length a + String.length b.
Proof.
  induction a as [|x a IH]; [done|].
  change (S (String.length (a +:+ b)) = S (String.length a + String.length b)).
  by rewrite IH.
Qed.

Lemma str_app_cons x (a b : string) : String x a +:+ b = String x (a +:+ b).
Proof. done. Qed.

Lemma str_app_nil_l (a : string) : "" +:+ a = a.
Proof. done. Qed.

Lemma lcp_app_l (a t : string) : longestCommonPrefix (a +:+ t) a = String.length a.
Proof.
  induction a as [|x a IH]; [by destruct t|].
  rewrite str_app_cons. simpl. by rewrite bool_decide_true, IH.
Qed.

Lemma str_drop_app (a t : string) : str_drop (String.length a) (a +:+ t) = t.
Proof. induction a as [|x a IH]; [done|]. by rewrite str_app_cons. Qed.

Lemma char_at_app_l (a t : string) : a ≠ "" → char_at (a +:+ t) 0 = char_at a 0.
Proof. by destruct a. Qed.

Lemma char_at_app_r (a t : string) :
  char_at (a +:+ t) (String.length a) = char_at t 0.
Proof. by rewrite <- char_at_drop, str_drop_app. Qed.

Lemma str_take_drop s i : str_take i s +:+ str_drop i s = s.
Proof.
  revert i. induction s as [|x s IH]; intros [|i]; try done.
  simpl. by rewrite str_app_cons, IH.
Qed.

Lemma str_take_all s i : String.length s ≤ i → str_take i s = s.
Proof.
  revert i. induction s as [|x s IH]; intros [|i]; simpl; try done; [lia|].
  intros ?. rewrite IH; [done|lia].
Qed.

Lemma slice_0 s i : slice s 0 i = str_take i s.
Proof. unfold slice. by rewrite Nat.sub_0_r. Qed.

Lemma str_take_nil n : str_take n "" = "".
Proof. by destruct n. Qed.

Lemma str_take_slice s j i :
  j ≤ i → str_take j s +:+ slice s j i = str_take i s.
Proof.
  unfold slice. revert s i. induction j as [|j IH]; intros s i Hji.
  - rewrite Nat.sub_0_r. by destruct s.
  - destruct i as [|i]; [lia|].
    destruct s as [|x s]; [by rewrite !str_take_nil|].
    cbn [str_take str_drop Nat.sub]. rewrite str_app_cons. f_equal.
    apply IH. lia.
Qed.

Lemma char_at_take s i : 0 < i → char_at (str_take i s) 0 = char_at s 0.
Proof. destruct i; [lia|]. by destruct s. Qed.

(** A label that is a prefix of [s] is what [s] starts with. *)
Lemma lcp_full_take s p :
  longestCommonPrefix s p = String.length p → str_take (String.length p) s = p.
Proof.
  revert s. induction p as [|x p IH]; intros [|y s]; simpl; try done.
  case_bool_decide as Hxy; [|done]. intros [= H]. subst. by rewrite IH.
Qed.

Lemma lcp_pos a b :
  a ≠ "" → char_at a 0 = char_at b 0 → 0 < longestCommonPrefix a b.
Proof.
  destruct a as [|x a], b as [|y b]; try done.
  intros _ [= ->]. simpl. rewrite bool_decide_true by done. lia.
Qed.

Lemma str_nonempty_length s : s ≠ "" ↔ 0 < String.length s.
Proof. destruct s; simpl; split; try done; lia. Qed.

Lemma char_at_is_Some s i : i < String.length s → is_Some (char_at s i).
Proof.
  intros Hi. destruct (char_at s i) eqn:E; [done|].
  apply char_at_None in E. lia.
Qed.

(** ** Well-formed trees *)

Lemma map_fold_andb {A} (f : Key → A → bool) (m : gmap Key A) :
  map_fold (λ k c acc, f k c && acc) true m = true
  ↔ ∀ k c, m !! k = Some c → f k c = true.
Proof.
  apply (map_fold_weak_ind
    (λ r (m : gmap Key A), r = true ↔ ∀ k c, m !! k = Some c → f k c = true)).
  - split; [|done]. intros _ k c Hk. by rewrite lookup_empty in Hk.
  - intros i x m' r Hi IH. rewrite andb_true_iff, IH. split.
    + intros [Hx Hm] k c Hk. destruct (decide (i = k)) as [->|Hne].
      * rewrite lookup_insert_eq in Hk. by injection Hk as <-.
      * rewrite lookup_insert_ne in Hk by done. by apply Hm.
    + intros H. split.
      * apply H. by rewrite lookup_insert_eq.
      * intros k c Hk. apply H. rewrite lookup_insert_ne; [done|].
        intros ->. congruence.
Qed.

Lemma wf_iff n :
  wf n ↔ ∀ k c, children n !! k = Some c →
                k = char_at (path c) 0 ∧ path c ≠ "" ∧ wf c.
Proof.
  unfold wf at 1. destruct n as [p ch h]. cbn [well_formed children].
  rewrite (map_fold_andb (λ k c,
    bool_decide (k = char_at (path c) 0)
    && negb (str_eqb (path c) "") && well_formed c)).
  split; intros H k c Hk; specialize (H k c Hk).
  - apply andb_true_iff in H as [[H1 H2]%andb_true_iff H3].
    apply bool_decide_eq_true in H1. apply negb_true_iff in H2.
    apply bool_decide_eq_false in H2. done.
  - destruct H as (H1 & H2 & H3). rewrite H3, andb_true_r.
    apply andb_true_iff. split; [by apply bool_decide_eq_true|].
    apply negb_true_iff. by apply bool_decide_eq_false.
Qed.

Lemma wf_child n k c :
  wf n → children n !! k = Some c →
  k = char_at (path c) 0 ∧ path c ≠ "" ∧ wf c.
Proof. intros H. by apply wf_iff. Qed.

Lemma wf_leaf s oh : wf (Node s ∅ oh).
Proof. done. Qed.

Lemma wf_set_handler n oh : wf n → wf (set_handler n oh).
Proof. by destruct n. Qed.

Lemma wf_lower n i : wf n → wf (Node (slice_from (path n) i) (children n) (handler n)).
Proof. by destruct n. Qed.

Lemma wf_insert n k c :
  wf n → k = char_at (path c) 0 → path c ≠ "" → wf c →
  wf (set_children n (<[k := c]> (children n))).
Proof.
  intros Hn Hk Hp Hc. apply wf_iff. intros k' c'. cbn [set_children children].
  destruct (decide (k = k')) as [<-|Hne].
  - rewrite lookup_insert_eq. by intros [= <-].
  - rewrite lookup_insert_ne by done. by apply wf_child.
Qed.

Lemma set_focus_focus z : set_focus z (focus z) = z.
Proof. by destruct z. Qed.

(** ** References into the tree and insertions from the root *)

Lemma ctx_ok_app_first (a t : string) ctx :
  ctx_ok (char_at a 0) ctx → t ≠ "" → ctx_ok (char_at (a +:+ t) 0) ctx.
Proof.
  destruct ctx as [|[parent k] ctx]; [done|].
  intros (-> & Hk & Hctx) _. destruct a as [|x a]; [by destruct Hk|done].
Qed.

Lemma put_through n k x t oh :
  t ≠ "" → k = char_at t 0 →
  put (set_children n (<[k := x]> (children n))) (path n +:+ t) oh
  = set_children n (<[k := put x t oh]> (children n)).
Proof.
  intros Ht ->. rewrite put_unfold. cbn [path children handler set_children].
  rewrite lcp_app_l, Nat.ltb_irrefl, str_length_app.
  apply str_nonempty_length in Ht.
  replace (String.length (path n) <? String.length (path n) + String.length t)
    with true by (symmetry; apply Nat.ltb_lt; lia).
  cbn zeta. unfold slice_from.
  rewrite char_at_app_r, str_drop_app, lookup_insert_eq.
  unfold set_children. cbn [path children handler]. by rewrite insert_insert_eq.
Qed.

Lemma bound_through n k x t :
  t ≠ "" → k = char_at t 0 →
  bound (set_children n (<[k := x]> (children n))) (path n +:+ t) = bound x t.
Proof.
  intros Ht ->. rewrite bound_unfold. cbn [path children handler set_children].
  rewrite lcp_app_l, Nat.ltb_irrefl, str_length_app.
  apply str_nonempty_length in Ht.
  replace (String.length (path n) <? String.length (path n) + String.length t)
    with true by (symmetry; apply Nat.ltb_lt; lia).
  cbn zeta. unfold slice_from.
  by rewrite char_at_app_r, str_drop_app, lookup_insert_eq.
Qed.

(** An insertion along the labels of the parents of a reference is an
    insertion at the node referred to. *)
Lemma zip_up_put ctx x t oh :
  t ≠ "" → ctx_ok (char_at t 0) ctx →
  put (zip_up x ctx) (zpath ctx +:+ t) oh = zip_up (put x t oh) ctx.
Proof.
  revert x t. induction ctx as [|[parent k] ctx IH]; intros x t Ht Hctx; [done|].
  destruct Hctx as (-> & Hk & Hctx). cbn [zip_up zpath].
  rewrite str_append_assoc, IH.
  - by rewrite put_through.
  - intros E. apply (f_equal String.length) in E.
    rewrite str_length_app in E. apply str_nonempty_length in Ht. simpl in E. lia.
  - by apply ctx_ok_app_first.
Qed.

Lemma zip_up_bound ctx x t :
  t ≠ "" → ctx_ok (char_at t 0) ctx →
  bound (zip_up x ctx) (zpath ctx +:+ t) = bound x t.
Proof.
  revert x t. induction ctx as [|[parent k] ctx IH]; intros x t Ht Hctx; [done|].
  destruct Hctx as (-> & Hk & Hctx). cbn [zip_up zpath].
  rewrite str_append_assoc, IH.
  - by rewrite bound_through.
  - intros E. apply (f_equal String.length) in E.
    rewrite str_length_app in E. apply str_nonempty_length in Ht. simpl in E. lia.
  - by apply ctx_ok_app_first.
Qed.

(** The five parts of [cursor] and of the postcondition of the loop; the
    last is [wf], which [repeat split] would unfold without end. *)
Ltac split5 := split; [|split; [|split; [|split]]].

Ltac zsimpl :=
  cbn [focus above root_of down set_focus zip_up zpath ctx_ok
       set_children set_handler path children handler].

Lemma merge_loop_unfold fuel z p h :
  merge_loop (S fuel) z p h =
    let n := focus z in
    let i := longestCommonPrefix p (path n) in
    let n :=
      if i <? String.length (path n) then
        let c := Node (slice_from (path n) i) (children n) (handler n) in
        Node (slice p 0 i) {[ char_at (path c) 0 := c ]} None
      else n in
    if i <? String.length p then
      let p := slice_from p i in
      match children n !! char_at p 0 with
      | Some c => merge_loop fuel (down (set_focus z n) (char_at p 0) c) p h
      | None =>
          let c := Node p ∅ h in
          let n := set_children n (<[char_at p 0 := c]> (children n)) in
          Ok (down (set_focus z n) (char_at p 0) c)
      end
    else
      match h with
      | Some _ =>
          match handler n with
          | Some _ => Throw DuplicateRoute (set_focus z n)
          | None => Ok (set_focus z (set_handler n h))
          end
      | None => Ok (set_focus z n)
      end.
Proof. done. Qed.

(** What [merge]'s loop does at a node whose label starts like the
    incoming string: it throws if the string is bound below the node and a
    handler is given, and otherwise inserts the string and returns a
    reference to the node at its end. *)
Lemma merge_loop_spec fuel z s oh :
  height (focus z) ≤ fuel → wf (focus z) → path (focus z) ≠ "" → s ≠ "" →
  char_at s 0 = char_at (path (focus z)) 0 →
  ctx_ok (char_at (path (focus z)) 0) (above z) →
  if bound (focus z) s && bool_decide (is_Some oh)
  then ∃ z', merge_loop fuel z s oh = Throw DuplicateRoute z'
             ∧ root_of z' = root_of z
  else ∃ z', merge_loop fuel z s oh = Ok z'
        ∧ root_of z' = zip_up (put (focus z) s oh) (above z)
        ∧ zpath (above z') +:+ path (focus z') = zpath (above z) +:+ s
        ∧ ctx_ok (char_at (path (focus z')) 0) (above z')
        ∧ path (focus z') ≠ "" ∧ wf (focus z').
Proof.
  revert z s. induction fuel as [|fuel IH];
    intros [c ctx] s Hfuel Hwf Hpath Hs Hfirst Hctx;
    cbn [focus above] in *.
  { pose proof (height_pos c). lia. }
  rewrite merge_loop_unfold, put_unfold, bound_unfold.
  cbn [focus above set_focus down]. cbn zeta. cbn [path].
  unfold slice_from. rewrite !char_at_drop, !slice_0.
  pose proof (lcp_pos s (path c) Hs Hfirst) as Hpos.
  pose proof (lcp_le_l s (path c)) as Hle.
  pose proof (lcp_le_r s (path c)) as Hle2.
  set (i := longestCommonPrefix s (path c)) in *.
  assert (char_at (str_take i s) 0 = char_at (path c) 0) as Htake
    by (by rewrite char_at_take).
  destruct (i <? String.length (path c)) eqn:Hsplit.
  - (* the string departs inside the label: the node is split *)
    apply Nat.ltb_lt in Hsplit. cbn [andb path children handler].
    destruct (i <? String.length s) eqn:Hlong.
    + apply Nat.ltb_lt in Hlong.
      rewrite lookup_singleton_ne
        by (intros E; symmetry in E; by eapply lcp_differ).
      eexists. split; [done|]. zsimpl. split5.
      * by rewrite insert_insert_eq.
      * by rewrite str_append_assoc, str_take_drop.
      * rewrite char_at_drop.
        split; [done|]. split; [by apply char_at_is_Some|by rewrite ?Htake].
      * apply str_nonempty_length. rewrite str_drop_length. lia.
      * apply wf_leaf.
    + apply Nat.ltb_ge in Hlong. assert (i = String.length s) as Hi by lia.
      assert (wf (Node (str_take i s)
                {[char_at (path c) i :=
                    Node (str_drop i (path c)) (children c) (handler c)]} None))
        as Hwf'.
      { apply wf_iff. cbn [children]. intros k x [<- <-]%lookup_singleton_Some.
        cbn [path]. rewrite char_at_drop. split; [done|]. split.
        - apply str_nonempty_length. rewrite str_drop_length. lia.
        - by apply (wf_lower c i). }
      assert (str_take i s = s) as Hall by (apply str_take_all; lia).
      destruct oh as [h|]; cbn [handler set_handler path children];
        (eexists; split; [done|]); zsimpl;
        (split5; [reflexivity|by rewrite Hall|by rewrite Htake|by rewrite Hall|
                  try apply wf_set_handler; exact Hwf']).
  - (* the label is a prefix of the string *)
    apply Nat.ltb_ge in Hsplit. assert (i = String.length (path c)) as Hi by lia.
    assert (str_take i s = path c) as Hpre.
    { rewrite Hi. by apply lcp_full_take. }
    destruct (i <? String.length s) eqn:Hlong.
    + apply Nat.ltb_lt in Hlong.
      assert (str_drop i s ≠ "") as Hrest.
      { apply str_nonempty_length. rewrite str_drop_length. lia. }
      destruct (children c !! char_at s i) as [c2|] eqn:Hc2.
      * destruct (wf_child c _ c2 Hwf Hc2) as (Hk & Hp2 & Hwf2).
        specialize (IH (MkZipper c2 ((c, char_at s i) :: ctx)) (str_drop i s)).
        cbn [focus above] in IH.
        assert (height c2 ≤ fuel) as H1 by (apply child_height in Hc2; lia).
        assert (char_at (str_drop i s) 0 = char_at (path c2) 0) as H2
          by (by rewrite char_at_drop).
        assert (ctx_ok (char_at (path c2) 0) ((c, char_at s i) :: ctx)) as H3.
        { split; [done|]. split; [by apply char_at_is_Some|done]. }
        specialize (IH H1 Hwf2 Hp2 Hrest H2 H3). clear H1 H2 H3.
        destruct (bound c2 (str_drop i s) && bool_decide (is_Some oh)).
        -- destruct IH as (z' & Hz' & Hroot). exists z'. split; [done|].
           rewrite Hroot. unfold root_of. cbn [focus above zip_up].
           unfold set_children. destruct c as [p ch h]. cbn in *.
           by rewrite insert_id.
        -- destruct IH as (z' & Hz' & Hroot & Hpathz & Hok & Hne & Hwfz).
           exists z'. split; [done|]. rewrite Hroot, Hpathz.
           cbn [zip_up zpath]. split5; try done.
           by rewrite str_append_assoc, <- Hpre, str_take_drop.
      * cbn [andb]. eexists. split; [done|]. zsimpl. split5.
        -- by rewrite insert_insert_eq.
        -- by rewrite str_append_assoc, <- Hpre, str_take_drop.
        -- rewrite char_at_drop.
           split; [done|]. split; [by apply char_at_is_Some|by rewrite ?Htake].
        -- done.
        -- apply wf_leaf.
    + apply Nat.ltb_ge in Hlong.
      pose proof (lcp_le_r (path c) s) as Hle'.
      assert (s = path c) as ->.
      { rewrite <- Hpre. symmetry. apply str_take_all.
        pose proof (lcp_le_l s (path c)). fold i in H. lia. }
      destruct oh as [h|]; cbn [bool_decide andb].
      * destruct (handler c) as [hc|] eqn:Hh.
        -- rewrite bool_decide_true by done. rewrite andb_true_l.
           rewrite bool_decide_true by done.
           eexists. split; [done|]. by destruct c.
        -- rewrite bool_decide_false by (by intros [? ?]). cbn [andb].
           eexists. split; [done|]. zsimpl; cbn [upd].
           split5; try done. by apply wf_set_handler.
      * rewrite andb_false_r. eexists. split; [done|].
        zsimpl; cbn [upd]. split5; try done.
        by destruct c.
Qed.

(** An insertion that goes through the whole label of a node goes on in
    the child for the next character. *)
Lemma put_below x r oh :
  r ≠ "" →
  put x (path x +:+ r) oh =
    match children x !! char_at r 0 with
    | Some c => set_children x (<[char_at r 0 := put c r oh]> (children x))
    | None => set_children x (<[char_at r 0 := Node r ∅ oh]> (children x))
    end.
Proof.
  intros Hr. rewrite put_unfold. cbn zeta.
  rewrite lcp_app_l, Nat.ltb_irrefl, str_length_app.
  apply str_nonempty_length in Hr.
  replace (String.length (path x) <? String.length (path x) + String.length r)
    with true by (symmetry; apply Nat.ltb_lt; lia).
  unfold slice_from. by rewrite char_at_app_r, str_drop_app.
Qed.

Lemma bound_below x r :
  r ≠ "" →
  bound x (path x +:+ r) =
    match children x !! char_at r 0 with
    | Some c => bound c r
    | None => false
    end.
Proof.
  intros Hr. rewrite bound_unfold. cbn zeta.
  rewrite lcp_app_l, Nat.ltb_irrefl, str_length_app.
  apply str_nonempty_length in Hr.
  replace (String.length (path x) <? String.length (path x) + String.length r)
    with true by (symmetry; apply Nat.ltb_lt; lia).
  unfold slice_from. by rewrite char_at_app_r, str_drop_app.
Qed.

(** [insert] at a reference inserts, from the root, the string that ends
    at the reference followed by the run. *)
Lemma insert_spec z r oh t e :
  cursor t e z → r ≠ "" →
  if bound t (e +:+ r) && bool_decide (is_Some oh)
  then ∃ z', insert z r oh = Throw DuplicateRoute z' ∧ root_of z' = t
  else ∃ z', insert z r oh = Ok z' ∧ cursor (put t (e +:+ r) oh) (e +:+ r) z'.
Proof.
  intros (<- & <- & Hctx & Hpath & Hwf) Hr. destruct z as [x ctx].
  unfold root_of. cbn [focus above] in *.
  assert (path x +:+ r ≠ "") as Hxr by (by destruct (path x)).
  assert (ctx_ok (char_at (path x +:+ r) 0) ctx) as Hctx'
    by (by apply ctx_ok_app_first).
  rewrite str_append_assoc, zip_up_put, zip_up_bound by done.
  pose proof (put_through x (char_at r 0)) as Hput.
  pose proof (bound_through x (char_at r 0)) as Hbound.
  unfold insert. cbn [focus above].
  destruct (children x !! char_at r 0) as [c|] eqn:Hc.
  - destruct (wf_child x _ c Hwf Hc) as (Hk & Hpc & Hwfc).
    assert (set_children x (<[char_at r 0 := c]> (children x)) = x) as Hid.
    { destruct x as [p ch h]. unfold set_children. cbn in *. by rewrite insert_id. }
    specialize (Hput c r oh Hr eq_refl). specialize (Hbound c r Hr eq_refl).
    rewrite Hid in Hput, Hbound. rewrite Hput, Hbound.
    unfold merge. cbn [focus down].
    replace (str_eqb (path c) "") with false
      by (symmetry; apply bool_decide_eq_false; done).
    replace (str_eqb r "") with false
      by (symmetry; apply bool_decide_eq_false; done).
    cbn [andb].
    pose proof (merge_loop_spec (height c)
      (MkZipper c ((x, char_at r 0) :: ctx)) r oh) as Hloop.
    cbn [focus above] in Hloop.
    assert (ctx_ok (char_at (path c) 0) ((x, char_at r 0) :: ctx)) as H3.
    { split; [done|]. split; [|done]. rewrite Hk.
      apply char_at_is_Some. by apply str_nonempty_length. }
    specialize (Hloop (le_n _) Hwfc Hpc Hr Hk H3). clear H3.
    destruct (bound c r && bool_decide (is_Some oh)).
    + destruct Hloop as (z' & Hz' & Hroot). exists z'. split; [done|].
      change (root_of z' = zip_up x ctx).
      rewrite Hroot. unfold root_of. cbn [focus above zip_up]. by rewrite Hid.
    + destruct Hloop as (z' & Hz' & Hroot & Hpathz & Hok & Hne & Hwfz).
      exists z'. split; [done|]. split5; [by rewrite Hroot| |done..].
      rewrite Hpathz. cbn [zpath]. by rewrite str_append_assoc.
  - rewrite bound_below, put_below, Hc by done.
    cbn [andb]. eexists. split; [done|]. split5; zsimpl.
    + by rewrite insert_insert_eq.
    + by rewrite str_append_assoc.
    + split; [done|]. split; [|done].
      apply char_at_is_Some. by apply str_nonempty_length.
    + done.
    + apply wf_leaf.
Qed.

(** The first [merge] of [add], at the root. *)
Lemma merge_root_spec t s :
  good t → char_at s 0 = Some "/"%char →
  ∃ z', merge (at_root t) s None = Ok z' ∧ cursor (seed t s) s z'.
Proof.
  intros Hgood Hs. assert (s ≠ "") as Hne by (by intros ->).
  unfold merge, seed. cbn [focus at_root].
  destruct Hgood as [->|[Hwf Hroot]].
  - cbn. eexists. split; [done|]. by split5.
  - assert (path t ≠ "") as Hpt by (by intros E; rewrite E in Hroot).
    replace (str_eqb (path t) "") with false
      by (symmetry; apply bool_decide_eq_false; done).
    replace (str_eqb s "") with false
      by (symmetry; apply bool_decide_eq_false; done).
    cbn [andb].
    pose proof (merge_loop_spec (height t) (MkZipper t []) s None) as Hloop.
    cbn [focus above] in Hloop. rewrite andb_false_r in Hloop.
    assert (char_at s 0 = char_at (path t) 0) as Hfirst by congruence.
    destruct (Hloop (le_n _) Hwf Hpt Hne Hfirst I)
      as (z' & Hz' & Hr & Hp & Hok & Hne' & Hwf').
    exists z'. split; [done|]. by split5.
Qed.

(** The last step of [add] where the pattern ends with a marker run or is
    exhausted: [n.merge("", handler)]. *)
Lemma merge_final_spec z t e h :
  cursor t e z →
  if bound t e
  then ∃ z', merge z "" (Some h) = Throw DuplicateRoute z' ∧ root_of z' = t
  else ∃ z', merge z "" (Some h) = Ok z' ∧ root_of z' = put t e (Some h).
Proof.
  intros (<- & <- & Hctx & Hpath & Hwf). destruct z as [x ctx].
  unfold root_of. cbn [focus above] in *.
  rewrite zip_up_put, zip_up_bound by done.
  unfold merge. cbn [focus].
  replace (str_eqb (path x) "") with false
    by (symmetry; apply bool_decide_eq_false; done).
  cbn [andb]. replace (str_eqb "" "") with true by done.
  rewrite bound_unfold, put_unfold. cbn zeta. rewrite !lcp_refl, !Nat.ltb_irrefl.
  destruct (handler x) as [hx|] eqn:Hh.
  - rewrite bool_decide_true by done. by eexists.
  - rewrite bool_decide_false by (by intros [? ?]). eexists. split; [done|].
    cbn [set_focus focus above upd]. done.
Qed.

(** ** Insertions keep trees well formed *)

Lemma put_first n s oh :
  path n ≠ "" → char_at s 0 = char_at (path n) 0 →
  char_at (path (put n s oh)) 0 = char_at (path n) 0 ∧ path (put n s oh) ≠ "".
Proof.
  intros Hp Hs. assert (s ≠ "") as Hne.
  { intros ->. destruct (path n); [done|]. done. }
  pose proof (lcp_pos s (path n) Hne Hs) as Hpos.
  rewrite put_unfold. cbn zeta. rewrite !slice_0.
  assert (char_at (str_take (longestCommonPrefix s (path n)) s) 0
          = char_at (path n) 0) as Htake by (by rewrite char_at_take).
  assert (str_take (longestCommonPrefix s (path n)) s ≠ "") as Htake'.
  { intros E. rewrite E in Htake. destruct (path n); done. }
  destruct (_ <? String.length (path n)).
  - by destruct (_ <? String.length s).
  - destruct (_ <? String.length s); [|done].
    by destruct (children n !! _).
Qed.

Lemma put_wf n s oh : wf n → wf (put n s oh).
Proof.
  revert s. induction n as [n IH] using Radix_child_ind. intros s Hwf.
  rewrite put_unfold. cbn zeta.
  pose proof (lcp_le_l s (path n)) as Hle.
  set (i := longestCommonPrefix s (path n)) in *.
  assert (wf (Node (slice_from (path n) i) (children n) (handler n))) as Hlow
    by (by apply wf_lower).
  destruct (i <? String.length (path n)) eqn:Hsplit.
  - apply Nat.ltb_lt in Hsplit.
    assert (str_drop i (path n) ≠ "") as Hrest.
    { apply str_nonempty_length. rewrite str_drop_length. lia. }
    destruct (i <? String.length s) eqn:Hlong.
    + apply Nat.ltb_lt in Hlong. apply wf_iff. intros k c. cbn [children].
      destruct (decide (char_at s i = k)) as [<-|Hne].
      * rewrite lookup_insert_eq. intros [= <-]. cbn [path]. unfold slice_from.
        rewrite char_at_drop. split; [done|]. split; [|apply wf_leaf].
        apply str_nonempty_length. rewrite str_drop_length. lia.
      * rewrite lookup_insert_ne by done.
        intros [<- <-]%lookup_singleton_Some. cbn [path]. unfold slice_from.
        by rewrite char_at_drop.
    + apply wf_iff. cbn [children]. intros k c [<- <-]%lookup_singleton_Some. cbn [path].
      unfold slice_from. by rewrite char_at_drop.
  - destruct (i <? String.length s) eqn:Hlong; [|by apply wf_set_handler].
    apply Nat.ltb_lt in Hlong.
    assert (str_drop i s ≠ "") as Hrest.
    { apply str_nonempty_length. rewrite str_drop_length. lia. }
    destruct (children n !! char_at s i) as [c|] eqn:Hc.
    + destruct (wf_child n _ c Hwf Hc) as (Hk & Hpc & Hwfc).
      destruct (put_first c (slice_from s i) oh Hpc) as [Hf Hne].
      { unfold slice_from. by rewrite char_at_drop. }
      apply wf_insert; [done|by rewrite Hf|done|by eapply IH].
    + apply wf_insert; [done| |done|apply wf_leaf].
      cbn [path]. unfold slice_from. by rewrite char_at_drop.
Qed.

Lemma good_nonempty t :
  good t → t ≠ empty_radix → wf t ∧ char_at (path t) 0 = Some "/"%char.
Proof. by intros [->|?]. Qed.

Lemma seed_put t s :
  wf t → char_at (path t) 0 = Some "/"%char → seed t s = put t s None.
Proof.
  intros _ Hp. unfold seed.
  replace (str_eqb (path t) "") with false; [done|].
  symmetry. apply bool_decide_eq_false. intros E. by rewrite E in Hp.
Qed.

Lemma good_put t s oh :
  wf t → char_at (path t) 0 = Some "/"%char → char_at s 0 = Some "/"%char →
  wf (put t s oh) ∧ char_at (path (put t s oh)) 0 = Some "/"%char.
Proof.
  intros Hwf Hp Hs. split; [by apply put_wf|].
  destruct (put_first t s oh) as [-> _]; [|congruence|done].
  intros E. by rewrite E in Hp.
Qed.

Lemma good_seed t s :
  good t → char_at s 0 = Some "/"%char →
  wf (seed t s) ∧ char_at (path (seed t s)) 0 = Some "/"%char.
Proof.
  intros [->|[Hwf Hp]] Hs.
  - cbn. split; [apply wf_leaf|done].
  - rewrite seed_put by done. by apply good_put.
Qed.

(** ** The main loop of [add] as a sequence of insertions *)

Lemma puts_app t l1 l2 : puts (puts t l1) l2 = puts t (l1 ++ l2).
Proof. unfold puts. by rewrite foldl_app. Qed.

Lemma cuts_loop_no_fault fuel p i j :
  String.length p - i < fuel →
  first_fault (segments (str_drop i p)) = None →
  is_Some (cuts_loop fuel p i j).
Proof.
  revert i j. induction fuel as [|fuel IH]; intros i j Hfuel Hf; [lia|].
  cbn [cuts_loop]. destruct (char_at p i) as [c|] eqn:Hc; [|done].
  pose proof (char_at_Some _ _ _ Hc) as Hi.
  rewrite (str_drop_char_at _ _ _ Hc) in Hf.
  destruct (isWildcard c) eqn:Hw.
  2: { rewrite first_fault_static in Hf by done. apply IH; [lia|done]. }
  rewrite first_fault_marker in Hf by done. unfold slice_from.
  destruct (scan_name (str_drop (S i) p)) as [k|] eqn:Hk; [|done].
  destruct (is_char ":" (Some c) && (k =? 0)); [done|].
  pose proof (scan_name_bound _ _ Hk) as Hkb. rewrite str_drop_length in Hkb.
  destruct (IH (S (S i + k)) (S i + k)) as [[es j'] ->]; [lia| |done].
  rewrite str_drop_S, str_drop_add.
  destruct (str_drop k (str_drop (S i) p)); [done|]. done.
Qed.

Lemma add_loop_spec fuel p i j z T :
  cursor T (str_take j p) z → j ≤ i → j ≤ String.length p →
  String.length p - i < fuel →
  match cuts_loop fuel p i j with
  | Some (es, j') =>
      ∃ z', add_loop fuel p i j z = Ok (j', z')
            ∧ cursor (puts T (unbound es)) (str_take j' p) z'
            ∧ j' ≤ String.length p
  | None => ∃ e z', add_loop fuel p i j z = Throw e z'
  end.
Proof.
  revert i j z T.
  induction fuel as [|fuel IH]; intros i j z T Hz Hj Hjp Hfuel; [lia|].
  rewrite add_loop_unfold. cbn [cuts_loop].
  destruct (char_at p i) as [c|] eqn:Hc; [|by exists z].
  pose proof (char_at_Some _ _ _ Hc) as Hi.
  destruct (isWildcard c) eqn:Hw; [|apply IH; [done|lia..]].
  assert (∃ z1, (if bool_decide (j ≠ i)
                 then n' ← insert z (slice p j i) None; Ok (i, n')
                 else Ok (j, z)) = Ok (i, z1)
           ∧ cursor (puts T (unbound (if bool_decide (j ≠ i)
                                      then [str_take i p] else [])))
                    (str_take i p) z1) as (z1 & -> & Hz1).
  { case_bool_decide as Hji.
    - pose proof (insert_spec z (slice p j i) None T _ Hz) as Hins.
      rewrite andb_false_r, str_take_slice in Hins by done.
      destruct Hins as (z1 & -> & Hz1); [apply slice_nonempty; lia|].
      by exists z1.
    - assert (j = i) as -> by lia. by exists z. }
  cbn [mbind Res_bind]. unfold slice_from.
  destruct (scan_name (str_drop (S i) p)) as [k|] eqn:Hk; [|by eexists _, _].
  rewrite Hc. replace (S i + k - i =? 1) with (k =? 0)
    by (destruct k as [|k]; [by rewrite Nat.add_0_r, Nat.sub_succ_l, Nat.sub_diag
       |symmetry; apply Nat.eqb_neq; lia]).
  destruct (is_char ":" (Some c) && (k =? 0)); [by eexists _, _|].
  pose proof (scan_name_bound _ _ Hk) as Hkb. rewrite str_drop_length in Hkb.
  pose proof (insert_spec z1 (slice p i (S i + k)) None _ _ Hz1) as Hins.
  rewrite andb_false_r, str_take_slice in Hins by lia.
  destruct Hins as (z2 & -> & Hz2); [apply slice_nonempty; lia|].
  cbn [mbind Res_bind].
  specialize (IH (S (S i + k)) (S i + k) z2 _ Hz2).
  destruct (cuts_loop fuel p (S (S i + k)) (S i + k)) as [[es j']|].
  - destruct IH as (z' & -> & Hz' & Hj'); [lia..|].
    exists z'. split; [done|]. split; [|done].
    unfold unbound in *. rewrite fmap_app, <- puts_app. exact Hz'.
  - destruct IH as (e & z' & ->); [lia..|]. by eexists _, _.
Qed.

(** ** [Radix.add] as a sequence of insertions *)

Lemma Radix_add_spec T p h :
  good T → char_at p 0 = Some "/"%char →
  match prepared T p with
  | Some T' =>
      Radix_add T p h =
        if bound T' p then Fail DuplicateRoute T'
        else Done (put T' p (Some h))
  | None => ∃ e T', Radix_add T p h = Fail e T'
  end.
Proof.
  intros HT Hslash. unfold prepared, cuts, Radix_add, Radix_add_at.
  set (i := span (λ c, negb (isWildcard c)) p).
  assert (0 < i) as Hi.
  { subst i. destruct p as [|c p]; [done|]. injection Hslash as ->. simpl. lia. }
  pose proof (span_le (λ c, negb (isWildcard c)) p) as Hle. fold i in Hle.
  destruct (merge_root_spec T (slice p 0 i) HT) as (z0 & -> & Hz0).
  { rewrite slice_0, char_at_take by done. done. }
  cbn [mbind Res_bind]. rewrite slice_0 in Hz0.
  pose proof (add_loop_spec (S (String.length p)) p i i z0 _ Hz0) as Hloop.
  destruct (cuts_loop (S (String.length p)) p i i) as [[es j]|].
  2: { destruct Hloop as (e & z' & ->); [lia..|]. by eexists _, _. }
  destruct Hloop as (z' & -> & Hz' & Hj); [lia..|].
  cbn [mbind Res_bind].
  set (T' := puts (seed T (str_take i p)) (unbound es)) in *.
  destruct (j =? String.length p) eqn:Hend.
  - apply Nat.eqb_eq in Hend. subst j. rewrite str_take_all in Hz' by done.
    pose proof (merge_final_spec z' _ _ h Hz') as Hm.
    destruct (bound T' p).
    + by destruct Hm as (z'' & -> & ->).
    + by destruct Hm as (z'' & -> & ->).
  - apply Nat.eqb_neq in Hend.
    pose proof (insert_spec z' (slice_from p j) (Some h) _ _ Hz') as Hm.
    unfold slice_from in *. rewrite str_take_drop in Hm.
    assert (str_drop j p ≠ "") as Hne.
    { apply str_nonempty_length. rewrite str_drop_length. lia. }
    specialize (Hm Hne).
    destruct (bound T' p); cbn in Hm.
    + by destruct Hm as (z'' & -> & ->).
    + by destruct Hm as (z'' & -> & <- & _).
Qed.

(** ** The tree a registration prepares *)

Lemma cuts_loop_elems fuel p i j es j' :
  cuts_loop fuel p i j = Some (es, j') → 0 < i →
  ∀ e, e ∈ es → ∃ k, 0 < k ∧ e = str_take k p.
Proof.
  revert i j es j'.
  induction fuel as [|fuel IH]; intros i j es j' Hc Hi; [done|].
  cbn [cuts_loop] in Hc. destruct (char_at p i) as [c|].
  2: { injection Hc as <- <-. by intros e ?%elem_of_nil. }
  destruct (isWildcard c); [|eapply IH; [done|lia]].
  destruct (scan_name _) as [k|]; [|done].
  destruct (_ && _); [done|].
  destruct (cuts_loop fuel p _ _) as [[es' j'']|] eqn:Hrec; [|done].
  injection Hc as <- <-. intros e [He|He]%elem_of_app.
  - case_bool_decide; [|by apply elem_of_nil in He].
    apply list_elem_of_singleton in He as ->. by exists i.
  - apply elem_of_cons in He as [->|He]; [exists (S i + k); split; [lia|done]|].
    eapply IH; [done|lia|done].
Qed.

Lemma puts_good t l :
  wf t → char_at (path t) 0 = Some "/"%char →
  (∀ x, x ∈ l → char_at x.1 0 = Some "/"%char) →
  wf (puts t l) ∧ char_at (path (puts t l)) 0 = Some "/"%char.
Proof.
  revert t. induction l as [|x l IH]; intros t Hwf Hp Hl; [done|].
  destruct (good_put t x.1 x.2 Hwf Hp) as [Hwf' Hp'].
  { apply Hl. by left. }
  apply (IH _ Hwf' Hp'). intros y Hy. apply Hl. by right.
Qed.

Lemma bound_puts_unbound t es a : bound (puts t (unbound es)) a = bound t a.
Proof.
  revert t. induction es as [|e es IH]; intros t; [done|].
  change (puts t (unbound (e :: es))) with (puts (put t e None) (unbound es)).
  by rewrite IH, bound_put, andb_false_r, orb_false_r.
Qed.

Lemma bound_seed t s a : good t → bound (seed t s) a = bound t a.
Proof.
  intros [->|[Hwf Hp]].
  - change (seed empty_radix s) with (Node s ∅ None).
    rewrite bound_leaf, andb_false_r.
    symmetry. by destruct a.
  - by rewrite seed_put, bound_put, andb_false_r, orb_false_r.
Qed.

Lemma prepared_spec T p :
  good T → char_at p 0 = Some "/"%char → pattern_fault p = None →
  ∃ T', prepared T p = Some T' ∧ wf T'
        ∧ char_at (path T') 0 = Some "/"%char
        ∧ ∀ a, bound T' a = bound T a.
Proof.
  intros HT Hslash Hf. unfold prepared, cuts.
  set (i := span (λ c, negb (isWildcard c)) p).
  assert (0 < i) as Hi.
  { subst i. destruct p as [|c p]; [done|]. injection Hslash as ->. simpl. lia. }
  pose proof (span_le (λ c, negb (isWildcard c)) p) as Hle. fold i in Hle.
  destruct (cuts_loop_no_fault (S (String.length p)) p i i) as [[es j] Hes];
    [lia|by unfold i; rewrite first_fault_span|].
  rewrite Hes. eexists. split; [done|].
  destruct (good_seed T (str_take i p) HT) as [Hwf Hp].
  { by rewrite char_at_take. }
  destruct (puts_good _ (unbound es) Hwf Hp) as [Hwf' Hp'].
  { intros x (e & -> & He)%list_elem_of_fmap.
    destruct (cuts_loop_elems _ _ _ _ _ _ Hes Hi e He) as (k & Hk & ->).
    cbn [fst]. by rewrite char_at_take. }
  split; [done|]. split; [done|].
  intros a. by rewrite bound_puts_unbound, bound_seed.
Qed.

(** A pattern without fault is registered unless it is bound already. *)
Lemma Radix_add_valid T p h :
  good T → char_at p 0 = Some "/"%char → pattern_fault p = None →
  ∃ T', prepared T p = Some T' ∧ wf T'
        ∧ char_at (path T') 0 = Some "/"%char
        ∧ (∀ a, bound T' a = bound T a)
        ∧ Radix_add T p h =
            if bound T p then Fail DuplicateRoute T'
            else Done (put T' p (Some h)).
Proof.
  intros HT Hslash Hf.
  destruct (prepared_spec T p HT Hslash Hf) as (T' & Hprep & Hwf & Hp & Hb).
  exists T'. split5; try done.
  pose proof (Radix_add_spec T p h HT Hslash) as Hadd.
  rewrite Hprep in Hadd. by rewrite <- Hb.
Qed.

(** ** Insertions in any order *)

Lemma compatible_all_sub l l' :
  compatible_all l → (∀ x, x ∈ l' → x ∈ l) → compatible_all l'.
Proof. intros H Hsub x y Hx Hy. apply H; by apply Hsub. Qed.

Lemma puts_perm t l l' :
  compatible_all l → l ≡ₚ l' → puts t l = puts t l'.
Proof.
  intros Hc Hp. revert t Hc.
  induction Hp as [|x l l' Hp IH|x y l|l l' l'' Hp1 IH1 Hp2 IH2]; intros t Hc.
  - done.
  - apply IH. eapply compatible_all_sub; [done|]. intros z Hz. by right.
  - change (puts (put (put t y.1 y.2) x.1 x.2) l
            = puts (put (put t x.1 x.2) y.1 y.2) l).
    destruct (Hc x y) as [->|Hxy]; [by right; left|by left|done|].
    by rewrite put_comm.
  - rewrite IH1 by done. apply IH2.
    eapply compatible_all_sub; [done|]. intros z Hz. by rewrite Hp1.
Qed.

Lemma compatible_all_handlers l :
  (∀ x y, x ∈ l → y ∈ l → is_Some x.2 → is_Some y.2 → x = y ∨ x.1 ≠ y.1) →
  compatible_all l.
Proof.
  intros H x y Hx Hy. unfold compatible.
  destruct (x.2) as [hx|] eqn:Ex; [|by right; right; left].
  destruct (y.2) as [hy|] eqn:Ey; [|by right; right; right].
  destruct (H x y Hx Hy) as [->|Hne]; [by rewrite Ex|by rewrite Ey|by left|].
  right. by left.
Qed.

(** The first merge of two registrations can be swapped. *)
Lemma seed_swap T a b :
  good T → put (seed T a) b None = put (seed T b) a None.
Proof.
  intros [->|[Hwf Hp]].
  - change (seed empty_radix a) with (Node a ∅ None).
    change (seed empty_radix b) with (Node b ∅ None).
    apply put_leaf_comm. right. by left.
  - rewrite !seed_put by done. apply put_comm. right. by left.
Qed.

Lemma prepared_inv T p T' :
  prepared T p = Some T' →
  ∃ a es, cuts p = Some (a :: es) ∧ T' = puts (seed T a) (unbound es).
Proof.
  unfold prepared. destruct (cuts p) as [[|a es]|]; [done| |done].
  intros [= <-]. by exists a, es.
Qed.

Lemma elem_of_unbound x es : x ∈ unbound es → x.2 = None.
Proof. by intros (e & -> & _)%list_elem_of_fmap. Qed.

(** The insertions of two registrations, with distinct patterns, commute. *)
Lemma two_adds_compatible (a : string) es1 es2 p1 p2 (h1 h2 : Callback) :
  p1 ≠ p2 →
  compatible_all ((a, None) :: unbound es1 ++ [(p1, Some h1)]
                    ++ unbound es2 ++ [(p2, Some h2)]).
Proof.
  intros Hne. apply compatible_all_handlers. intros x y Hx Hy Sx Sy.
  assert (∀ z, z ∈ (a, None) :: unbound es1 ++ [(p1, Some h1)]
                    ++ unbound es2 ++ [(p2, Some h2)] →
               is_Some z.2 → z = (p1, Some h1) ∨ z = (p2, Some h2)) as Hin.
  { intros z Hz [h Sz].
    apply elem_of_cons in Hz as [->|Hz]; [done|].
    apply elem_of_app in Hz as [Hz|Hz];
      [apply elem_of_unbound in Hz; congruence|].
    apply elem_of_app in Hz as [Hz|Hz];
      [apply list_elem_of_singleton in Hz; by left|].
    apply elem_of_app in Hz as [Hz|Hz];
      [apply elem_of_unbound in Hz; congruence|].
    apply list_elem_of_singleton in Hz; by right. }
  destruct (Hin x Hx Sx) as [->| ->], (Hin y Hy Sy) as [->| ->];
    cbn [fst]; auto.
Qed.

Lemma Radix_add_Done_no_fault T p h T' :
  char_at p 0 = Some "/"%char → Radix_add T p h = Done T' →
  pattern_fault p = None.
Proof.
  intros Hslash Hadd. destruct (pattern_fault p) as [e|] eqn:Hf; [|done].
  destruct (Radix_add_fault T p h e Hslash Hf) as [T'' Hfail]. congruence.
Qed.

Lemma Radix_add_Done T p h T1 :
  good T → char_at p 0 = Some "/"%char → Radix_add T p h = Done T1 →
  ∃ a es, cuts p = Some (a :: es) ∧ bound T p = false
          ∧ T1 = put (puts (seed T a) (unbound es)) p (Some h)
          ∧ wf T1 ∧ char_at (path T1) 0 = Some "/"%char.
Proof.
  intros HT Hslash Hadd.
  pose proof (Radix_add_Done_no_fault _ _ _ _ Hslash Hadd) as Hf.
  destruct (Radix_add_valid T p h HT Hslash Hf)
    as (T' & Hprep & Hwf & Hp & Hb & Heq).
  rewrite Hadd in Heq. destruct (bound T p); [done|]. injection Heq as ->.
  destruct (prepared_inv _ _ _ Hprep) as (a & es & Hcuts & ->).
  exists a, es. split5; try done.
  - by apply put_wf.
  - by apply good_put.
Qed.

Lemma Radix_add_swap T p1 h1 p2 h2 T1 T12 :
  good T → char_at p1 0 = Some "/"%char → char_at p2 0 = Some "/"%char →
  Radix_add T p1 h1 = Done T1 → Radix_add T1 p2 h2 = Done T12 →
  ∃ T2, Radix_add T p2 h2 = Done T2 ∧ Radix_add T2 p1 h1 = Done T12.
Proof.
  intros HT Hs1 Hs2 Hadd1 Hadd2.
  destruct (Radix_add_Done _ _ _ _ HT Hs1 Hadd1)
    as (a1 & es1 & Hc1 & Hb1 & HT1 & Hwf1 & Hp1).
  assert (good T1) as HgT1 by (by right).
  destruct (Radix_add_Done _ _ _ _ HgT1 Hs2 Hadd2)
    as (a2 & es2 & Hc2 & Hb2 & HT12 & Hwf12 & Hp12).
  assert (p1 ≠ p2 ∧ bound T p2 = false) as [Hne Hb2'].
  { rewrite HT1, bound_put, bound_puts_unbound, bound_seed in Hb2 by done.
    apply orb_false_iff in Hb2 as [Hb2 Heq]. split; [|done].
    intros ->. by rewrite bool_decide_eq_true_2 in Heq. }
  pose proof (Radix_add_Done_no_fault _ _ _ _ Hs1 Hadd1) as Hf1.
  pose proof (Radix_add_Done_no_fault _ _ _ _ Hs2 Hadd2) as Hf2.
  destruct (Radix_add_valid T p2 h2 HT Hs2 Hf2)
    as (T2' & Hprep2 & Hwf2' & Hp2' & Hbb2 & Heq2).
  rewrite Hb2' in Heq2. exists (put T2' p2 (Some h2)). split; [done|].
  destruct (good_put T2' p2 (Some h2) Hwf2' Hp2' Hs2) as [HwfT2 HpT2].
  assert (good (put T2' p2 (Some h2))) as HgT2 by (by right).
  destruct (Radix_add_valid _ p1 h1 HgT2 Hs1 Hf1)
    as (T21' & Hprep21 & _ & _ & _ & ->).
  rewrite bound_put, Hbb2, Hb1, (bool_decide_eq_false_2 _ Hne). cbn [orb andb].
  f_equal.
  destruct (prepared_inv _ _ _ Hprep2) as (a2' & es2' & Hc2' & ->).
  destruct (prepared_inv _ _ _ Hprep21) as (a1' & es1' & Hc1' & ->).
  assert (a2' = a2 ∧ es2' = es2) as [-> ->] by (split; congruence).
  assert (a1' = a1 ∧ es1' = es1) as [-> ->] by (split; congruence).
  rewrite (seed_put _ a1 HwfT2 HpT2).
  rewrite (seed_put T1 a2 Hwf1 Hp1) in HT12. rewrite HT12, HT1.
  set (P1 := (p1, Some h1)). set (P2 := (p2, Some h2)).
  set (E1 := unbound es1). set (E2 := unbound es2).
  pose proof (two_adds_compatible a2 es1 es2 p1 p2 h1 h2 Hne) as Hc12.
  pose proof (two_adds_compatible a1 es1 es2 p1 p2 h1 h2 Hne) as Hc21.
  fold P1 P2 E1 E2 in Hc12, Hc21. symmetry.
  transitivity (puts (seed T a1) (E1 ++ [P1] ++ [(a2, None)] ++ E2 ++ [P2])).
  { unfold puts. by rewrite !foldl_app. }
  transitivity (puts (seed T a2) (E2 ++ [P2] ++ [(a1, None)] ++ E1 ++ [P1])).
  2: { unfold puts. by rewrite !foldl_app. }
  transitivity (puts (seed T a1) ((a2, None) :: (E1 ++ [P1]) ++ E2 ++ [P2])).
  { apply puts_perm.
    - eapply compatible_all_sub; [exact Hc12|]. intros x.
      repeat (rewrite elem_of_app || rewrite elem_of_cons). tauto.
    - rewrite (assoc_L (++) E1). symmetry.
      apply (Permutation_middle (E1 ++ [P1]) (E2 ++ [P2])). }
  transitivity (puts (seed T a2) ((a1, None) :: (E2 ++ [P2]) ++ E1 ++ [P1])).
  2: { apply puts_perm.
    - eapply compatible_all_sub; [exact Hc21|]. intros x.
      repeat (rewrite elem_of_app || rewrite elem_of_cons). tauto.
    - rewrite (assoc_L (++) E2 [P2]).
      apply (Permutation_middle (E2 ++ [P2]) (E1 ++ [P1])). }
  change (puts (put (seed T a1) a2 None) ((E1 ++ [P1]) ++ E2 ++ [P2])
          = puts (put (seed T a2) a1 None) ((E2 ++ [P2]) ++ E1 ++ [P1])).
  rewrite (seed_swap T a1 a2) by done. apply puts_perm.
  - eapply compatible_all_sub; [exact Hc21|]. intros x.
    repeat (rewrite elem_of_app || rewrite elem_of_cons). tauto.
  - by rewrite (comm (++) (E1 ++ [P1])).
Qed.

(** ** A registered static pattern is found *)

Lemma lcp_comm a b : longestCommonPrefix a b = longestCommonPrefix b a.
Proof.
  revert b. induction a as [|x a IH]; intros [|y b]; [done..|].
  cbn [longestCommonPrefix]. rewrite IH.
  case_bool_decide as H1; case_bool_decide as H2; congruence.
Qed.

Lemma lcp_take i s :
  i ≤ String.length s → longestCommonPrefix (str_take i s) s = i.
Proof.
  intros Hi. rewrite lcp_comm.
  rewrite <- (str_take_drop s i) at 1.
  rewrite lcp_app_l, str_take_length. lia.
Qed.

Lemma lcp_full_eq s p :
  longestCommonPrefix s p = String.length p →
  longestCommonPrefix s p = String.length s → s = p.
Proof.
  intros Hp Hs. rewrite <- (lcp_full_take s p Hp).
  symmetry. apply str_take_all. lia.
Qed.

Lemma markers_drop i s : markers s = 0 → markers (str_drop i s) = 0.
Proof.
  revert s. induction i as [|i IH]; intros [|c s]; [done..|].
  cbn [markers str_drop]. intros H. apply IH. lia.
Qed.

Lemma markers_char s i c :
  markers s = 0 → char_at s i = Some c → isWildcard c = false.
Proof.
  revert i. induction s as [|d s IH]; intros i; [by destruct i|].
  cbn [markers]. intros H. destruct i as [|i].
  - intros [= ->]. destruct (isWildcard c); [done|done].
  - apply IH. lia.
Qed.

Lemma not_marker_is_char c :
  isWildcard c = false →
  is_char "*" (Some c) = false ∧ is_char ":" (Some c) = false.
Proof.
  unfold isWildcard, is_char. intros [H1 H2]%orb_false_iff.
  apply bool_decide_eq_false in H1, H2.
  split; apply bool_decide_eq_false; congruence.
Qed.

(** One iteration at a node whose label starts with no marker. *)
Lemma find_step_static n s rest ps :
  is_char "*" (char_at (path n) 0) = false →
  is_char ":" (char_at (path n) 0) = false →
  find_step (MkFrame n s false :: rest) ps =
    if str_eqb (path n) s then
      match handler n with
      | None =>
          if bool_decide (is_Some (children n !! Some "*"%char))
          then Continue (push_children n "" (MkFrame n s true :: rest)) ps
          else Continue rest ps
      | Some h => Break (Some h) ps
      end
    else
      if negb (longestCommonPrefix (path n) s =? String.length (path n))
      then Continue rest ps
      else Continue (push_children n
                       (slice_from s (longestCommonPrefix (path n) s))
                       (MkFrame n s true :: rest)) ps.
Proof. intros H1 H2. unfold find_step. by rewrite H1, H2. Qed.

(** The static child is pushed last, so it is visited first. *)
Lemma push_children_top n np st c :
  np ≠ "" → children n !! char_at np 0 = Some c →
  ∃ st', push_children n np st = MkFrame c np false :: st'.
Proof.
  intros Hne Hc. unfold push_children, str_eqb.
  rewrite bool_decide_eq_false_2 by done. rewrite Hc. by eexists.
Qed.

Lemma find_leaf_hit s ch h rest ps fuel :
  s ≠ "" → (∀ c, char_at s 0 = Some c → isWildcard c = false) →
  find_loop (S fuel) (MkFrame (Node s ch (Some h)) s false :: rest) ps
  = Some (Some h, ps).
Proof.
  intros Hne Hs. cbn [find_loop].
  destruct (char_at s 0) as [c|] eqn:Hc; [|by destruct s].
  destruct (not_marker_is_char c (Hs c eq_refl)) as [H1 H2].
  rewrite find_step_static by (cbn [path]; by rewrite Hc).
  cbn [path handler]. unfold str_eqb. by rewrite bool_decide_eq_true_2.
Qed.

Lemma find_put_static n s h rest ps :
  wf n → markers s = 0 → s ≠ "" → path n ≠ "" →
  char_at s 0 = char_at (path n) 0 →
  ∃ fuel, find_loop fuel (MkFrame (put n s (Some h)) s false :: rest) ps
          = Some (Some h, ps).
Proof.
  revert s rest. induction n as [n IH] using Radix_child_ind.
  intros s rest Hwf Hst Hs Hp Hfirst.
  assert (∀ c, char_at s 0 = Some c → isWildcard c = false) as Hs0
    by (intros c; by apply markers_char).
  pose proof (lcp_pos s (path n) Hs Hfirst) as Hpos.
  pose proof (lcp_le_l s (path n)) as Hle.
  pose proof (lcp_le_r s (path n)) as Hle2.
  rewrite put_unfold. cbn zeta.
  set (i := longestCommonPrefix s (path n)) in *.
  assert (∀ ch' h', find_step
            (MkFrame (Node (str_take i s) ch' h') s false :: rest) ps
          = if str_eqb (str_take i s) s then
              match h' with
              | None =>
                  if bool_decide (is_Some (ch' !! Some "*"%char))
                  then Continue (push_children (Node (str_take i s) ch' h') ""
                         (MkFrame (Node (str_take i s) ch' h') s true :: rest)) ps
                  else Continue rest ps
              | Some h => Break (Some h) ps
              end
            else Continue (push_children (Node (str_take i s) ch' h')
                   (str_drop i s)
                   (MkFrame (Node (str_take i s) ch' h') s true :: rest)) ps)
    as Htake.
  { intros ch' h'.
    destruct (char_at s 0) as [c|] eqn:Hc; [|by destruct s].
    destruct (not_marker_is_char c (Hs0 c eq_refl)) as [H1 H2].
    rewrite find_step_static
      by (cbn [path]; by rewrite char_at_take, Hc by done).
    cbn [path handler children]. rewrite lcp_take, str_take_length by done.
    replace (i `min` String.length s) with i by lia.
    by rewrite Nat.eqb_refl. }
  destruct (i <? String.length (path n)) eqn:Hsplit.
  - rewrite slice_0. destruct (i <? String.length s) eqn:Hlong.
    + apply Nat.ltb_lt in Hlong. exists 2. cbn [find_loop]. rewrite Htake by done.
      unfold str_eqb. rewrite bool_decide_eq_false_2.
      2: { intros E. apply (f_equal String.length) in E.
           rewrite str_take_length in E. lia. }
      assert (str_drop i s ≠ "") as Hrest.
      { apply str_nonempty_length. rewrite str_drop_length. lia. }
      edestruct (push_children_top
        (Node (str_take i s)
           (<[char_at s i:=Node (slice_from s i) ∅ (Some h)]>
              {[char_at (path n) i :=
                  Node (slice_from (path n) i) (children n) (handler n)]})
           None) (str_drop i s)) as [st' ->]; [done| |].
      { cbn [children]. rewrite char_at_drop. apply lookup_insert_eq. }
      unfold slice_from.
      pose proof (find_leaf_hit (str_drop i s) ∅ h st' ps 0 Hrest) as Hhit.
      cbn [find_loop] in Hhit. rewrite Hhit; [done|].
      intros c. rewrite char_at_drop. by apply markers_char.
    + apply Nat.ltb_ge in Hlong. exists 1. cbn [find_loop]. rewrite Htake by done.
      unfold str_eqb. rewrite bool_decide_eq_true_2; [done|].
      apply str_take_all. lia.
  - apply Nat.ltb_ge in Hsplit. assert (i = String.length (path n)) as Hi by lia.
    destruct (char_at s 0) as [c0|] eqn:Hc0; [|by destruct s].
    destruct (not_marker_is_char c0 (Hs0 c0 eq_refl)) as [H1 H2].
    destruct (i <? String.length s) eqn:Hlong.
    + apply Nat.ltb_lt in Hlong.
      assert (str_drop i s ≠ "") as Hrest.
      { apply str_nonempty_length. rewrite str_drop_length. lia. }
      assert (∀ x, ∃ st', find_step
                (MkFrame (set_children n (<[char_at s i := x]> (children n)))
                   s false :: rest) ps
              = Continue (MkFrame x (str_drop i s) false :: st') ps) as Hstep.
      { intros x. rewrite find_step_static
          by (cbn [path set_children]; by rewrite <- Hfirst).
        cbn [path set_children]. unfold str_eqb.
        rewrite bool_decide_eq_false_2.
        2: { intros E. apply (f_equal String.length) in E. lia. }
        rewrite (lcp_comm (path n) s). fold i. rewrite Hi, Nat.eqb_refl.
        cbn [negb]. rewrite <- Hi. unfold slice_from.
        edestruct (push_children_top
          (set_children n (<[char_at s i := x]> (children n)))
          (str_drop i s)) as [st' ->]; [done| |by eexists].
        cbn [children set_children]. rewrite char_at_drop.
        apply lookup_insert_eq. }
      destruct (children n !! char_at s i) as [c|] eqn:Hc.
      * destruct (wf_child n _ c Hwf Hc) as (Hk & Hpc & Hwfc).
        destruct (Hstep (put c (slice_from s i) (Some h))) as [st' Hst'].
        destruct (IH _ c Hc (slice_from s i) st' Hwfc) as [fuel Hfuel];
          [by apply markers_drop|done|done| |].
        { unfold slice_from. by rewrite char_at_drop. }
        exists (S fuel). cbn [find_loop]. by rewrite Hst'.
      * destruct (Hstep (Node (slice_from s i) ∅ (Some h))) as [st' Hst'].
        exists 2. cbn [find_loop]. rewrite Hst'. unfold slice_from.
        pose proof (find_leaf_hit (str_drop i s) ∅ h st' ps 0 Hrest) as Hhit.
        cbn [find_loop] in Hhit. rewrite Hhit; [done|].
        intros c. rewrite char_at_drop. by apply markers_char.
    + apply Nat.ltb_ge in Hlong. assert (s = path n) as Heq.
      { apply lcp_full_eq; fold i; lia. }
      exists 1. destruct n as [p ch hn]. cbn [path children handler] in *.
      subst p. cbn [upd set_handler path children].
      apply find_leaf_hit; [done|]. intros c. by apply markers_char.
Qed.

Lemma Radix_find_put_static T p h :
  wf T → markers p = 0 → char_at p 0 = Some "/"%char →
  char_at (path T) 0 = Some "/"%char →
  Radix_find (put T p (Some h)) p = Some (Some h, ∅).
Proof.
  intros Hwf Hst Hs Hp.
  destruct (find_put_static T p h [] ∅ Hwf Hst) as [fuel Hfuel].
  - intros ->. done.
  - intros E. by rewrite E in Hp.
  - congruence.
  - destruct (Radix_find_total (put T p (Some h)) p) as [r Hr].
    rewrite Hr. unfold Radix_find in Hr.
    pose proof (find_loop_mono _ (fuel `max` S (weight (put T p (Some h))))
                  _ _ _ Hr ltac:(lia)) as H1.
    pose proof (find_loop_mono _ (fuel `max` S (weight (put T p (Some h))))
                  _ _ _ Hfuel ltac:(lia)) as H2.
    congruence.
Qed.

(** ** Runs of registrations *)

Lemma Radix_add_all_app T l1 l2 :
  Radix_add_all T (l1 ++ l2) =
    match Radix_add_all T l1 with
    | Done T1 => Radix_add_all T1 l2
    | Fail e T1 => Fail e T1
    end.
Proof.
  revert T. induction l1 as [|[p h] l1 IH]; intros T; [done|].
  cbn [Radix_add_all app]. by destruct (Radix_add T p h).
Qed.

Lemma Radix_add_all_cons_Done T p h l T' :
  Radix_add_all T ((p, h) :: l) = Done T' →
  ∃ T1, Radix_add T p h = Done T1 ∧ Radix_add_all T1 l = Done T'.
Proof.
  cbn [Radix_add_all]. destruct (Radix_add T p h) as [T1|]; [|done].
  by exists T1.
Qed.

Lemma Radix_add_bound T p h T1 q :
  good T → char_at p 0 = Some "/"%char → Radix_add T p h = Done T1 →
  bound T1 q = bound T q || bool_decide (q = p).
Proof.
  intros HT Hs Hadd.
  destruct (Radix_add_Done _ _ _ _ HT Hs Hadd)
    as (a & es & _ & _ & -> & _ & _).
  by rewrite bound_put, bound_puts_unbound, bound_seed, andb_true_r.
Qed.

Lemma Radix_add_all_good T l T' :
  good T → Forall (λ x, char_at x.1 0 = Some "/"%char) l →
  Radix_add_all T l = Done T' →
  good T' ∧ (∀ q, bound T' q = bound T q || bool_decide (q ∈ l.*1)).
Proof.
  revert T. induction l as [|[p h] l IH]; intros T HT Hl Hadd.
  - injection Hadd as <-. split; [done|]. intros q.
    rewrite bool_decide_eq_false_2; [by rewrite orb_false_r|].
    by intros ?%elem_of_nil.
  - apply Forall_cons in Hl as [Hp Hl]. cbn [fst] in Hp.
    destruct (Radix_add_all_cons_Done _ _ _ _ _ Hadd) as (T1 & H1 & Hrest).
    destruct (Radix_add_Done _ _ _ _ HT Hp H1)
      as (a & es & _ & _ & _ & Hwf1 & Hp1).
    assert (good T1) as HT1 by (by right).
    destruct (IH T1 HT1 Hl Hrest) as [HT' Hb]. split; [done|].
    intros q. rewrite Hb, (Radix_add_bound _ _ _ _ q HT Hp H1).
    rewrite <- orb_assoc. f_equal. cbn [fmap list_fmap fst].
    apply eq_true_iff_eq. rewrite orb_true_iff, !bool_decide_eq_true.
    rewrite elem_of_cons. tauto.
Qed.

Lemma good_nonempty_wf T : good T → wf T.
Proof. intros [->|[? _]]; [apply wf_leaf|done]. Qed.

(** Registrations in any order build the same tree. *)
Lemma Radix_add_all_perm T l l' T' :
  good T → Forall (λ x, char_at x.1 0 = Some "/"%char) l →
  l ≡ₚ l' → Radix_add_all T l = Done T' → Radix_add_all T l' = Done T'.
Proof.
  intros HT Hl Hperm. revert T T' HT Hl.
  induction Hperm as [|[p h] l l' Hp IH|[p1 h1] [p2 h2] l|l l' l'' Hp1 IH1 Hp2 IH2];
    intros T T' HT Hl Hadd.
  - done.
  - apply Forall_cons in Hl as [Hs Hl]. cbn [fst] in Hs.
    destruct (Radix_add_all_cons_Done _ _ _ _ _ Hadd) as (T1 & H1 & Hrest).
    cbn [Radix_add_all]. rewrite H1. apply IH; [|done..].
    destruct (Radix_add_Done _ _ _ _ HT Hs H1)
      as (a & es & _ & _ & _ & Hwf1 & Hp1). by right.
  - apply Forall_cons in Hl as [Hs1 Hl]. apply Forall_cons in Hl as [Hs2 Hl].
    cbn [fst] in Hs1, Hs2.
    destruct (Radix_add_all_cons_Done _ _ _ _ _ Hadd) as (T1 & H1 & Hadd').
    destruct (Radix_add_all_cons_Done _ _ _ _ _ Hadd') as (T12 & H2 & Hrest).
    destruct (Radix_add_swap T p2 h2 p1 h1 T1 T12 HT Hs1 Hs2 H1 H2)
      as (T2 & H1' & H2').
    cbn [Radix_add_all]. by rewrite H1', H2'.
  - apply IH2; [done|by rewrite <- Hp1|by apply IH1].
Qed.

Lemma Radix_add_all_last T l p h T' :
  good T → (p, h) ∈ l → Forall (λ x, char_at x.1 0 = Some "/"%char) l →
  Radix_add_all T l = Done T' →
  ∃ T0, good T0 ∧ Radix_add T0 p h = Done T'.
Proof.
  intros HT Hin Hl Hadd.
  apply list_elem_of_split in Hin as (l1 & l2 & ->).
  assert (l1 ++ (p, h) :: l2 ≡ₚ (l1 ++ l2) ++ [(p, h)]) as Hperm.
  { rewrite <- Permutation_middle, <- Permutation_cons_append. done. }
  pose proof (Radix_add_all_perm _ _ _ _ HT Hl Hperm Hadd) as Hadd'.
  rewrite Radix_add_all_app in Hadd'.
  destruct (Radix_add_all T (l1 ++ l2)) as [T0|] eqn:H0; [|done].
  exists T0. split.
  - eapply (Radix_add_all_good T (l1 ++ l2)); [done| |done].
    rewrite Hperm in Hl. by apply Forall_app in Hl as [Hl _].
  - cbn [Radix_add_all] in Hadd'. by destruct (Radix_add T0 p h).
Qed.

(** ** The helper functions *)

Lemma lcp_take_eq a b :
  str_take (longestCommonPrefix a b) a = str_take (longestCommonPrefix a b) b.
Proof.
  revert b. induction a as [|x a IH]; intros [|y b]; [done..|].
  cbn [longestCommonPrefix]. case_bool_decide as Hxy; [|done].
  subst y. cbn [str_take]. by rewrite IH.
Qed.

Lemma span_take f s j c :
  char_at (str_take (span f s) s) j = Some c → f c = true.
Proof.
  revert j. induction s as [|d s IH]; intros j; [by destruct j|].
  cbn [span]. destruct (f d) eqn:Hd; [|by destruct j].
  cbn [str_take]. destruct j as [|j]; [by intros [= <-]|]. apply IH.
Qed.

Lemma span_stop f s c : char_at s (span f s) = Some c → f c = false.
Proof.
  induction s as [|d s IH]; [done|].
  cbn [span]. destruct (f d) eqn:Hd; [apply IH|]. by intros [= <-].
Qed.

(** ** The search returns a handler of the tree *)

Lemma push_children_within root n np st :
  within root n → Forall (λ f, within root (fnode f)) st →
  Forall (λ f, within root (fnode f)) (push_children n np st).
Proof.
  intros Hn Hst. unfold push_children.
  assert (Forall (λ f, within root (fnode f))
            match children n !! Some "*"%char with
            | Some c => MkFrame c np false :: st
            | None => st
            end) as H1.
  { destruct (children n !! Some "*"%char) as [c|] eqn:Hc; [|done].
    constructor; [|done]. by eapply within_child. }
  destruct (str_eqb np ""); [done|].
  assert (Forall (λ f, within root (fnode f))
            match children n !! Some ":"%char with
            | Some c => MkFrame c np false ::
                match children n !! Some "*"%char with
                | Some c => MkFrame c np false :: st
                | None => st
                end
            | None => match children n !! Some "*"%char with
                      | Some c => MkFrame c np false :: st
                      | None => st
                      end
            end) as H2.
  { destruct (children n !! Some ":"%char) as [c|] eqn:Hc; [|done].
    constructor; [|done]. by eapply within_child. }
  destruct (children n !! char_at np 0) as [c|] eqn:Hc; [|done].
  constructor; [|done]. by eapply within_child.
Qed.

Lemma find_step_within root st ps :
  Forall (λ f, within root (fnode f)) st →
  match find_step st ps with
  | Continue st' _ => Forall (λ f, within root (fnode f)) st'
  | Break h _ => ∀ cb, h = Some cb → ∃ n, within root n ∧ handler n = Some cb
  end.
Proof.
  destruct st as [|[n p v] rest]; [done|].
  intros [Hn Hrest]%Forall_cons. cbn [fnode] in Hn.
  assert (Forall (λ f, within root (fnode f)) (MkFrame n p true :: rest))
    as Hvis by (by constructor).
  unfold find_step. destruct v; [done|].
  destruct (is_char "*" _); [intros cb Hcb; by exists n|].
  destruct (is_char ":" _).
  - destruct (splitFromFirstSlash p) as [cp np].
    destruct (str_eqb np ""); [intros cb Hcb; by exists n|].
    by apply push_children_within.
  - destruct (str_eqb (path n) p).
    + destruct (handler n) as [h|] eqn:Hh.
      * intros cb [= <-]. by exists n.
      * case_bool_decide; [by apply push_children_within|done].
    + destruct (negb _); [done|]. by apply push_children_within.
Qed.

Lemma find_loop_within root fuel st ps cb ps' :
  Forall (λ f, within root (fnode f)) st →
  find_loop fuel st ps = Some (Some cb, ps') →
  ∃ n, within root n ∧ handler n = Some cb.
Proof.
  revert st ps. induction fuel as [|fuel IH]; intros st ps Hst; [done|].
  cbn [find_loop]. pose proof (find_step_within root st ps Hst) as Hstep.
  destruct (find_step st ps) as [st' ps1|h ps1].
  - by apply IH.
  - intros [= -> ->]. by apply Hstep.
Qed.

(** ** The errors of a registration *)

Lemma add_loop_errors fuel p i j z e z' :
  String.length p - i < fuel →
  add_loop fuel p i j z = Throw e z' →
  e = WildcardConflict ∨ e = EmptyParamName ∨ e = DuplicateRoute.
Proof.
  revert i j z. induction fuel as [|fuel IH]; intros i j z Hfuel; [lia|].
  rewrite add_loop_unfold. destruct (char_at p i) as [c|] eqn:Hc; [|done].
  pose proof (char_at_Some _ _ _ Hc) as Hi.
  destruct (isWildcard c); [|apply IH; lia].
  case_bool_decide.
  - destruct (insert_outcome z (slice p j i) None) as [[z1 ->]|[z1 ->]];
      cbn [mbind Res_bind]; [|intros [= <- _]; auto].
    destruct (scan_name _) as [k|]; [|intros [= <- _]; auto].
    destruct (_ && _); [intros [= <- _]; auto|].
    destruct (insert_outcome z1 (slice p i (S i + k)) None) as [[z2 ->]|[z2 ->]];
      cbn [mbind Res_bind]; [apply IH; lia|intros [= <- _]; auto].
  - cbn [mbind Res_bind].
    destruct (scan_name _) as [k|]; [|intros [= <- _]; auto].
    destruct (_ && _); [intros [= <- _]; auto|].
    destruct (insert_outcome z (slice p j (S i + k)) None) as [[z2 ->]|[z2 ->]];
      cbn [mbind Res_bind]; [apply IH; lia|intros [= <- _]; auto].
Qed.

Lemma Radix_add_errors root p h e root' :
  Radix_add root p h = Fail e root' →
  e = WildcardConflict ∨ e = EmptyParamName ∨ e = DuplicateRoute.
Proof.
  unfold Radix_add, Radix_add_at.
  destruct (merge_outcome (at_root root)
    (slice p 0 (span (λ c, negb (isWildcard c)) p)) None) as [[z0 ->]|[z0 ->]];
    cbn [mbind Res_bind]; [|intros [= <- _]; auto].
  destruct (add_loop _ _ _ _ _) as [[j z1]|e1 z1] eqn:Hloop; cbn [mbind Res_bind].
  - destruct (j =? String.length p).
    + destruct (merge_outcome z1 "" (Some h)) as [[z2 ->]|[z2 ->]];
        [done|intros [= <- _]; auto].
    + destruct (insert_outcome z1 (slice_from p j) (Some h)) as [[z2 ->]|[z2 ->]];
        [done|intros [= <- _]; auto].
  - intros [= <- _]. eapply add_loop_errors; [|done]. lia.
Qed.

(** ** One tree for each method *)

Lemma Router_add_all_cons_Done r route routes r' :
  Router_add_all r (route :: routes) = Done r' →
  ∃ r1, Router_add r route = Done r1 ∧ Router_add_all r1 routes = Done r'.
Proof.
  cbn [Router_add_all]. destruct (Router_add r route) as [r1|]; [|done].
  by exists r1.
Qed.

Lemma Router_add_Done r route r1 :
  Router_add r route = Done r1 →
  ∃ T, Radix_add (default empty_radix (radixGroup r !! method route))
         (route_path route) (callback route) = Done T
       ∧ r1 = MkRouter (<[method route := T]> (radixGroup r))
                (_routes r ++ [route])
       ∧ (inherited (method route) = false
          ∨ is_Some (radixGroup r !! method route)).
Proof.
  rewrite Router_add_unfold.
  destruct (inherited (method route)) eqn:Hinh; cbn [andb].
  - case_bool_decide as Hnone; [done|].
    destruct (Radix_add _ _ _) as [T|]; [|done].
    intros [= <-]. exists T. split; [done|]. split; [done|]. right.
    by destruct (radixGroup r !! method route).
  - destruct (Radix_add _ _ _) as [T|]; [|done].
    intros [= <-]. exists T. split; [done|]. split; [done|]. by left.
Qed.

(** The other way round: the registration goes through when the tree of
    the method accepts the pattern. *)
Lemma Router_add_accepts r route T :
  inherited (method route) = false ∨ is_Some (radixGroup r !! method route) →
  Radix_add (default empty_radix (radixGroup r !! method route))
    (route_path route) (callback route) = Done T →
  Router_add r route
  = Done (MkRouter (<[method route := T]> (radixGroup r))
            (_routes r ++ [route])).
Proof.
  intros Hown HT. rewrite Router_add_unfold, HT.
  destruct Hown as [->|[T0 HT0]]; [done|].
  rewrite HT0, andb_comm. done.
Qed.

Lemma Router_add_rejects r route e T :
  inherited (method route) = false ∨ is_Some (radixGroup r !! method route) →
  Radix_add (default empty_radix (radixGroup r !! method route))
    (route_path route) (callback route) = Fail e T →
  Router_add r route
  = Fail e (MkRouter (<[method route := T]> (radixGroup r)) (_routes r)).
Proof.
  intros Hown HT. rewrite Router_add_unfold, HT.
  destruct Hown as [->|[T0 HT0]]; [done|].
  rewrite HT0, andb_comm. done.
Qed.

Lemma Router_add_all_group routes r r' m :
  Router_add_all r routes = Done r' →
  Radix_add_all (default empty_radix (radixGroup r !! m))
    ((λ v, (route_path v, callback v)) <$> filter (λ v, method v = m) routes)
  = Done (default empty_radix (radixGroup r' !! m))
  ∧ ((∃ v, v ∈ routes ∧ method v = m) → is_Some (radixGroup r' !! m))
  ∧ (is_Some (radixGroup r !! m) → is_Some (radixGroup r' !! m))
  ∧ ((∀ v, v ∈ routes → method v ≠ m) →
     radixGroup r' !! m = radixGroup r !! m).
Proof.
  revert r. induction routes as [|route routes IH]; intros r Hadd.
  - injection Hadd as <-. split; [done|]. split; [|done].
    by intros (v & ?%elem_of_nil & _).
  - destruct (Router_add_all_cons_Done _ _ _ _ Hadd) as (r1 & H1 & Hrest).
    destruct (Router_add_Done _ _ _ H1) as (T & HT & -> & _).
    destruct (IH _ Hrest) as (IHtree & IHsome & IHkeep & IHsame).
    cbn [radixGroup] in *.
    rewrite filter_cons. destruct (decide (method route = m)) as [<-|Hne].
    + rewrite lookup_insert_eq in IHtree, IHkeep. cbn [default] in IHtree.
      cbn [fmap list_fmap Radix_add_all]. rewrite HT.
      split; [done|]. split; [intros _; by apply IHkeep|].
      split; [intros _; by apply IHkeep|].
      intros Hno. destruct (Hno route); [by left|done].
    + rewrite lookup_insert_ne in IHtree, IHkeep, IHsame by done.
      split; [done|]. split; [|split; [done|]].
      * intros (v & [->|Hv]%elem_of_cons & Hm); [done|].
        apply IHsome. by exists v.
      * intros Hno. apply IHsame. intros v Hv. apply Hno. by right.
Qed.

Lemma Router_add_all_methods routes r r' v :
  Router_add_all r routes = Done r' → v ∈ routes →
  inherited (method v) = false ∨ is_Some (radixGroup r !! method v).
Proof.
  revert r. induction routes as [|route routes IH]; intros r Hadd Hv.
  - by apply elem_of_nil in Hv.
  - destruct (Router_add_all_cons_Done _ _ _ _ Hadd) as (r1 & H1 & Hrest).
    destruct (Router_add_Done _ _ _ H1) as (T & HT & -> & Hown).
    apply elem_of_cons in Hv as [->|Hv]; [done|].
    destruct (IH _ Hrest Hv) as [?|Hsome]; [by left|].
    cbn [radixGroup] in Hsome.
    destruct (decide (method route = method v)) as [Heq|Hne].
    + by rewrite <- Heq.
    + rewrite lookup_insert_ne in Hsome by done. by right.
Qed.

(** The routes go through one after the other when the routes of every
    method go through on the tree of that method. *)
Lemma Router_add_all_assemble routes r :
  (∀ v, v ∈ routes →
        inherited (method v) = false ∨ is_Some (radixGroup r !! method v)) →
  (∀ m, ∃ T, Radix_add_all (default empty_radix (radixGroup r !! m))
               ((λ v, (route_path v, callback v))
                  <$> filter (λ v, method v = m) routes) = Done T) →
  ∃ r', Router_add_all r routes = Done r'.
Proof.
  revert r. induction routes as [|route routes IH]; intros r Hown Hall.
  - by exists r.
  - destruct (Hall (method route)) as [T HT].
    rewrite filter_cons_True in HT by done.
    cbn [fmap list_fmap Radix_add_all] in HT.
    destruct (Radix_add _ _ _) as [T1|] eqn:H1; [|done].
    cbn [Router_add_all].
    rewrite (Router_add_accepts r route T1) by (done || apply Hown; by left).
    apply IH; cbn [radixGroup].
    + intros v Hv. destruct (decide (method route = method v)) as [<-|Hne].
      * right. by rewrite lookup_insert_eq.
      * rewrite lookup_insert_ne by done. apply Hown. by right.
    + intros m. destruct (decide (method route = m)) as [<-|Hne].
      * rewrite lookup_insert_eq. by exists T.
      * rewrite lookup_insert_ne by done. destruct (Hall m) as [Tm HTm].
        rewrite filter_cons_False in HTm by done. by exists Tm.
Qed.

(** ** Trees built by registration *)

Lemma Radix_add_all_rooted T l T' :
  wf T → char_at (path T) 0 = Some "/"%char →
  Forall (λ x, char_at x.1 0 = Some "/"%char) l →
  Radix_add_all T l = Done T' →
  wf T' ∧ char_at (path T') 0 = Some "/"%char.
Proof.
  revert T. induction l as [|[p h] l IH]; intros T Hwf Hp Hl Hadd.
  - by injection Hadd as <-.
  - apply Forall_cons in Hl as [Hs Hl]. cbn [fst] in Hs.
    destruct (Radix_add_all_cons_Done _ _ _ _ _ Hadd) as (T1 & H1 & Hrest).
    destruct (Radix_add_Done T p h T1) as (a & es & _ & _ & _ & Hwf1 & Hp1);
      [by right|done..|].
    by apply (IH T1).
Qed.

Lemma Radix_add_all_built l T :
  Forall (λ x, char_at x.1 0 = Some "/"%char) l →
  Radix_add_all empty_radix l = Done T →
  wf T ∧ (l ≠ [] → char_at (path T) 0 = Some "/"%char).
Proof.
  intros Hl Hadd. destruct l as [|[p h] l].
  - injection Hadd as <-. split; [apply wf_leaf|done].
  - apply Forall_cons in Hl as [Hs Hl]. cbn [fst] in Hs.
    destruct (Radix_add_all_cons_Done _ _ _ _ _ Hadd) as (T1 & H1 & Hrest).
    destruct (Radix_add_Done empty_radix p h T1)
      as (a & es & _ & _ & _ & Hwf1 & Hp1); [by left|done..|].
    destruct (Radix_add_all_rooted T1 l T Hwf1 Hp1 Hl Hrest). by split.
Qed.

Lemma Radix_add_all_bound l T q :
  Forall (λ x, char_at x.1 0 = Some "/"%char) l →
  Radix_add_all empty_radix l = Done T →
  good T ∧ bound T q = bool_decide (q ∈ l.*1).
Proof.
  intros Hl Hadd.
  destruct (Radix_add_all_good empty_radix l T) as [HT Hb];
    [by left|done..|].
  split; [done|]. rewrite Hb. by destruct q.
Qed.

Lemma Radix_add_all_no_fault l T p h :
  Forall (λ x, char_at x.1 0 = Some "/"%char) l →
  Radix_add_all empty_radix l = Done T → (p, h) ∈ l →
  char_at p 0 = Some "/"%char ∧ pattern_fault p = None.
Proof.
  intros Hl Hadd Hin.
  assert (char_at p 0 = Some "/"%char) as Hs.
  { rewrite Forall_forall in Hl. by apply (Hl (p, h)). }
  split; [done|].
  destruct (Radix_add_all_last empty_radix l p h T) as (T0 & _ & H0);
    [by left|done..|].
  by eapply Radix_add_Done_no_fault.
Qed.

(** A registered pattern is rejected from then on. *)
Lemma Radix_add_registered_again l T p h h' :
  Forall (λ x, char_at x.1 0 = Some "/"%char) l →
  Radix_add_all empty_radix l = Done T → (p, h) ∈ l →
  ∃ T', Radix_add T p h' = Fail DuplicateRoute T'.
Proof.
  intros Hl Hadd Hin.
  destruct (Radix_add_all_no_fault l T p h Hl Hadd Hin) as [Hs Hf].
  destruct (Radix_add_all_bound l T p Hl Hadd) as [HT Hb].
  destruct (Radix_add_valid T p h' HT Hs Hf) as (T' & _ & _ & _ & _ & ->).
  rewrite Hb, bool_decide_eq_true_2; [by exists T'|].
  apply list_elem_of_fmap. by exists (p, h).
Qed.

(** A faultless pattern that is not registered is accepted. *)
Lemma Radix_add_new_pattern l T p h :
  Forall (λ x, char_at x.1 0 = Some "/"%char) l →
  Radix_add_all empty_radix l = Done T →
  char_at p 0 = Some "/"%char → pattern_fault p = None → p ∉ l.*1 →
  ∃ T', Radix_add T p h = Done T'.
Proof.
  intros Hl Hadd Hs Hf Hnew.
  destruct (Radix_add_all_bound l T p Hl Hadd) as [HT Hb].
  destruct (Radix_add_valid T p h HT Hs Hf) as (T' & _ & _ & _ & _ & ->).
  rewrite Hb, bool_decide_eq_false_2 by done. by eexists.
Qed.

Lemma Radix_find_registered_static l T p h :
  Forall (λ x, char_at x.1 0 = Some "/"%char) l →
  Radix_add_all empty_radix l = Done T → (p, h) ∈ l → markers p = 0 →
  Radix_find T p = Some (Some h, ∅).
Proof.
  intros Hl Hadd Hin Hst.
  destruct (Radix_add_all_no_fault l T p h Hl Hadd Hin) as [Hs Hf].
  destruct (Radix_add_all_last empty_radix l p h T) as (T0 & HT0 & H0);
    [by left|done..|].
  destruct (Radix_add_valid T0 p h HT0 Hs Hf)
    as (T' & _ & Hwf & Hp & _ & Heq).
  rewrite H0 in Heq. destruct (bound T0 p); [done|]. injection Heq as ->.
  by apply Radix_find_put_static.
Qed.

(** ** The routes of a method in a router *)

Lemma by_method_slash (routes : list Route) m :
  Forall (λ v, char_at (route_path v) 0 = Some "/"%char) routes →
  Forall (λ x, char_at x.1 0 = Some "/"%char)
    ((λ v, (route_path v, callback v)) <$> filter (λ v, method v = m) routes).
Proof.
  intros Hl. apply Forall_fmap, Forall_forall.
  intros v [_ Hv]%list_elem_of_filter. cbn [fst].
  rewrite Forall_forall in Hl. by apply Hl.
Qed.

Lemma by_method_elem (routes : list Route) v :
  v ∈ routes →
  (route_path v, callback v)
  ∈ (λ v, (route_path v, callback v))
      <$> filter (λ w, method w = method v) routes.
Proof.
  intros Hv. apply list_elem_of_fmap. exists v. split; [done|].
  by apply list_elem_of_filter.
Qed.

Lemma by_method_patterns (routes : list Route) m p :
  p ∈ ((λ v, (route_path v, callback v))
         <$> filter (λ v, method v = m) routes).*1 →
  ∃ v, v ∈ routes ∧ method v = m ∧ route_path v = p.
Proof.
  intros (x & -> & (v & -> & [Hm Hv]%list_elem_of_filter)%list_elem_of_fmap)
    %list_elem_of_fmap.
  by exists v.
Qed.

(** The tree of a method in a router built by registrations. *)
Lemma Router_built_tree routes r v :
  Router_add_all new_router routes = Done r → v ∈ routes →
  ∃ T, radixGroup r !! method v = Some T
       ∧ Radix_add_all empty_radix
           ((λ v, (route_path v, callback v))
              <$> filter (λ w, method w = method v) routes) = Done T.
Proof.
  intros Hadd Hv.
  destruct (Router_add_all_group routes new_router r (method v) Hadd)
    as (Htree & Hsome & _).
  destruct Hsome as [T HT]; [by exists v|].
  exists T. split; [done|]. by rewrite HT in Htree.
Qed.

(** ** Registrations in another order *)

Lemma Router_add_all_perm routes routes' r :
  Forall (λ v, char_at (route_path v) 0 = Some "/"%char) routes →
  routes ≡ₚ routes' →
  Router_add_all new_router routes = Done r →
  ∃ r', Router_add_all new_router routes' = Done r'
        ∧ radixGroup r' = radixGroup r.
Proof.
  intros Hl Hperm Hadd.
  assert (∀ m, Radix_add_all empty_radix
            ((λ v, (route_path v, callback v))
               <$> filter (λ v, method v = m) routes')
          = Done (default empty_radix (radixGroup r !! m))) as Htrees.
  { intros m.
    destruct (Router_add_all_group routes new_router r m Hadd) as (Htree & _).
    eapply Radix_add_all_perm; [by left|by apply by_method_slash| |exact Htree].
    by rewrite Hperm. }
  destruct (Router_add_all_assemble routes' new_router) as [r' Hadd'].
  { intros v Hv. eapply (Router_add_all_methods routes); [done|].
    by rewrite Hperm. }
  { intros m. eexists. apply Htrees. }
  exists r'. split; [done|]. apply map_eq. intros m.
  destruct (Router_add_all_group routes new_router r m Hadd)
    as (_ & Hsome & _ & Hsame).
  destruct (Router_add_all_group routes' new_router r' m Hadd')
    as (Htree' & Hsome' & _ & Hsame').
  rewrite Htrees in Htree'. injection Htree' as Htree'.
  destruct (decide (Exists (λ v, method v = m) routes)) as [Hex|Hno].
  - apply Exists_exists in Hex as (v & Hv & Hm).
    destruct Hsome as [T HT]; [by exists v|].
    destruct Hsome' as [T' HT']; [exists v; by rewrite <- Hperm|].
    rewrite HT, HT' in Htree'. simpl in Htree'. rewrite HT, HT'. by f_equal.
  - rewrite Hsame, Hsame'; [done| |].
    + intros v Hv Hm. apply Hno, Exists_exists. exists v.
      by rewrite Hperm.
    + intros v Hv Hm. apply Hno, Exists_exists. by exists v.
Qed.

Lemma find_route_is_Some cb routes k0 v :
  v ∈ routes → callback v = cb → is_Some (find_route cb routes k0).
Proof.
  intros Hv Hcb. destruct (find_route cb routes k0) as [x|] eqn:Hf; [done|].
  by destruct (find_route_None _ _ _ Hf v Hv).
Qed.

(** The handler and the bindings found depend on the trees and on which
    routes are recorded, not on the order of the record. *)
Lemma Router_find_answer r r' m p :
  radixGroup r' = radixGroup r → _routes r ≡ₚ _routes r' →
  answer (fst (Router_find r' m p)) = answer (fst (Router_find r m p)).
Proof.
  intros Hgroup Hperm. unfold Router_find. rewrite Hgroup.
  destruct (radixGroup r !! m) as [radix|]; [|by destruct (inherited m)].
  destruct (Radix_find radix p) as [[[cb|] ps]|]; [|done..].
  destruct (find_route cb (_routes r) 0) as [[k e]|] eqn:Hr,
           (find_route cb (_routes r') 0) as [[k' e']|] eqn:Hr'.
  - apply find_route_Some in Hr as (_ & _ & Hcb & _).
    apply find_route_Some in Hr' as (_ & _ & Hcb' & _).
    cbn [fst answer fmap option_fmap option_map set_params callback params].
    by rewrite Hcb, Hcb'.
  - apply find_route_Some in Hr as (_ & Hk & Hcb & _).
    apply list_elem_of_lookup_2 in Hk. rewrite Hperm in Hk.
    by destruct (find_route_None _ _ _ Hr' e Hk).
  - apply find_route_Some in Hr' as (_ & Hk & Hcb & _).
    apply list_elem_of_lookup_2 in Hk. rewrite <- Hperm in Hk.
    by destruct (find_route_None _ _ _ Hr e' Hk).
  - done.
Qed.

(** ** The segments of a registered pattern *)



(** ** Duplicate registrations *)

(** C4: a pattern that is registered under a method is rejected with the
    duplicate-route error when it is registered again under that method,
    with whatever callback and whatever else was registered meanwhile, and
    the rejected route is not recorded; under another method that has not
    registered the pattern it is accepted, before and after the rejected
    call: every method has a tree of its own.  (Patterns start with a
    slash, as the specification requires; the other method is not the name
    of a member that all objects inherit.) *)
Theorem duplicate_pattern_rejected_per_method routes r first again other :
  Forall (λ v, char_at (route_path v) 0 = Some "/"%char) routes →
  Router_add_all new_router routes = Done r →
  first ∈ routes →
  method again = method first → route_path again = route_path first →
  inherited (method other) = false → route_path other = route_path first →
  (∀ v, v ∈ routes → method v = method other →
        route_path v ≠ route_path first) →
  (∃ r2, Router_add r again = Fail DuplicateRoute r2
         ∧ _routes r2 = _routes r
         ∧ ∃ r3, Router_add r2 other = Done r3)
  ∧ (∃ r3, Router_add r other = Done r3).
Proof.
  intros Hl Hadd Hin Hm Hp Hown Hpo Hnew.
  destruct (Router_built_tree routes r first Hadd Hin) as (T & HT & Htree).
  pose proof (by_method_slash routes (method first) Hl) as Hslash.
  pose proof (by_method_elem routes first Hin) as Helem.
  destruct (Radix_add_registered_again _ T _ _ (callback again)
              Hslash Htree Helem) as [T' Hdup].
  destruct (Radix_add_all_no_fault _ T _ _ Hslash Htree Helem) as [Hs Hf].
  destruct (Router_add_all_group routes new_router r (method other) Hadd)
    as (Htree_o & _).
  change (radixGroup new_router !! method other) with (@None Radix) in Htree_o.
  cbn [default] in Htree_o.
  destruct (Radix_add_new_pattern _ _ (route_path first) (callback other)
              (by_method_slash routes (method other) Hl) Htree_o Hs Hf)
    as [To HTo].
  { intros (v & Hv & Hmv & Hpv)%by_method_patterns. by apply (Hnew v). }
  assert (method first ≠ method other) as Hne.
  { intros E. by apply (Hnew first Hin). }
  split.
  - exists (MkRouter (<[method again := T']> (radixGroup r)) (_routes r)).
    split; [|split; [done|]].
    + apply (Router_add_rejects r again DuplicateRoute T').
      * right. by rewrite Hm, HT.
      * by rewrite Hm, Hp, HT.
    + eexists. apply Router_add_accepts; [by left|].
      cbn [radixGroup]. rewrite Hm, lookup_insert_ne by done.
      rewrite Hpo. exact HTo.
  - eexists. apply Router_add_accepts; [by left|]. rewrite Hpo. exact HTo.
Qed.

(** The example of the specification: after add("GET", "/a/b", h1), the
    call add("GET", "/a/b", h2) throws the duplicate-route error and
    add("POST", "/a/b", h2) is accepted. *)
Lemma duplicate_pattern_rejected_per_method_witness :
  let first := MkRoute "GET" "/a/b" 1 None None in
  let again := MkRoute "GET" "/a/b" 2 None None in
  let other := MkRoute "POST" "/a/b" 2 None None in
  ∃ r, Router_add new_router first = Done r
       ∧ (∃ r2, Router_add r again = Fail DuplicateRoute r2
                ∧ _routes r2 = _routes r
                ∧ ∃ r3, Router_add r2 other = Done r3)
       ∧ (∃ r3, Router_add r other = Done r3).
Proof.
  intros first again other. eexists. split; [vm_compute; reflexivity|].
  apply (duplicate_pattern_rejected_per_method [first] _ first again other);
    try reflexivity.
  - repeat constructor.
  - by left.
  - intros v Hv. apply list_elem_of_singleton in Hv as ->. discriminate.
Defined.

(** ** The order of the registrations *)

(** C7: registration is independent of the order: when the registrations
    of a list of routes, whose patterns start with a slash, succeed on a new
    router, they succeed in every other order, they build the same tree for
    every method, and every lookup hands back the same handler and the
    same bindings. *)
Theorem registration_order_independent routes routes' r :
  Forall (λ v, char_at (route_path v) 0 = Some "/"%char) routes →
  routes ≡ₚ routes' →
  Router_add_all new_router routes = Done r →
  ∃ r', Router_add_all new_router routes' = Done r'
        ∧ radixGroup r' = radixGroup r
        ∧ ∀ m p, answer (fst (Router_find r' m p))
                 = answer (fst (Router_find r m p)).
Proof.
  intros Hl Hperm Hadd.
  destruct (Router_add_all_perm routes routes' r Hl Hperm Hadd)
    as (r' & Hadd' & Hgroup).
  exists r'. split; [done|]. split; [done|]. intros m p.
  apply Router_find_answer; [done|].
  rewrite (Router_add_all_routes _ _ _ Hadd).
  by rewrite (Router_add_all_routes _ _ _ Hadd').
Qed.

(** Three routes, registered in one order and in the reverse order. *)
Lemma registration_order_independent_witness :
  let by_id := MkRoute "GET" "/users/:id" 1 None None in
  let new := MkRoute "GET" "/users/new" 2 None None in
  let files := MkRoute "POST" "/files/*rest" 3 None None in
  ∃ r r',
    Router_add_all new_router [by_id; new; files] = Done r
    ∧ Router_add_all new_router [files; new; by_id] = Done r'
    ∧ radixGroup r' = radixGroup r
    ∧ answer (fst (Router_find r' "GET" "/users/42"))
      = Returns (Some (1, Some {[ "id" := "42" ]}))
    ∧ ∀ m p, answer (fst (Router_find r' m p))
             = answer (fst (Router_find r m p)).
Proof.
  intros by_id new files.
  destruct (registration_order_independent
              [by_id; new; files] [files; new; by_id]
              (MkRouter
                 (<["POST" := Node "/files/" {[ Some "*"%char :=
                                 Node "*rest" ∅ (Some 3) ]} None]>
                    {[ "GET" := Node "/users/"
                         (<[Some ":"%char := Node ":id" ∅ (Some 1)]>
                            {[ Some "n"%char := Node "new" ∅ (Some 2) ]})
                         None ]})
                 [by_id; new; files]))
    as (r' & Hadd' & Hgroup & Hfind).
  - repeat constructor.
  - apply Permutation_rev.
  - vm_compute. reflexivity.
  - eexists. exists r'. split; [vm_compute; reflexivity|].
    split; [done|]. split; [done|]. split; [|done].
    rewrite Hfind. vm_compute. reflexivity.
Defined.

(** ** Wildcard nodes with children *)




(** ** Further properties of the helper functions, the search and the
    registration *)

(** X1: longestCommonPrefix(a, b) is at most the length of either string,
    the two strings agree on that many leading characters, they differ at
    the next position when both go on, and the arguments can be swapped. *)
Theorem longestCommonPrefix_is_longest a b :
  longestCommonPrefix a b ≤ String.length a
  ∧ longestCommonPrefix a b ≤ String.length b
  ∧ str_take (longestCommonPrefix a b) a = str_take (longestCommonPrefix a b) b
  ∧ (longestCommonPrefix a b < String.length a →
     longestCommonPrefix a b < String.length b →
     char_at a (longestCommonPrefix a b) ≠ char_at b (longestCommonPrefix a b))
  ∧ longestCommonPrefix b a = longestCommonPrefix a b.
Proof.
  split5.
  - apply lcp_le_l.
  - apply lcp_le_r.
  - apply lcp_take_eq.
  - apply lcp_differ.
  - apply lcp_comm.
Qed.

(** X2: splitFromFirstSlash cuts a path in two parts that concatenate to the
    path; the first part holds no slash, and the second part is empty or
    starts with a slash. *)
Theorem splitFromFirstSlash_cuts_at_slash p :
  (splitFromFirstSlash p).1 +:+ (splitFromFirstSlash p).2 = p
  ∧ (∀ i, char_at (splitFromFirstSlash p).1 i ≠ Some "/"%char)
  ∧ ((splitFromFirstSlash p).2 = ""
     ∨ char_at (splitFromFirstSlash p).2 0 = Some "/"%char).
Proof.
  unfold splitFromFirstSlash. cbn [fst snd]. unfold slice_from.
  rewrite slice_0. set (f := λ c : ascii, negb (bool_decide (c = "/"%char))).
  split; [apply str_take_drop|]. split.
  - intros i Hi. apply (span_take f) in Hi. unfold f in Hi.
    by rewrite bool_decide_eq_true_2 in Hi.
  - rewrite char_at_drop. destruct (char_at p (span f p)) as [c|] eqn:Hc.
    + right. pose proof (span_stop f p c Hc) as Hstop. unfold f in Hstop.
      apply negb_false_iff, bool_decide_eq_true in Hstop. by subst c.
    + left. apply str_drop_all. by apply char_at_None.
Qed.

(** X3: the loop of Radix.find ends on every tree and every path: it returns
    within [weight root + 1] iterations, and further iterations allowed
    change nothing. *)
Theorem search_ends_within_weight root p k :
  is_Some (Radix_find root p)
  ∧ find_loop (S (weight root) + k) [MkFrame root p false] ∅
    = Radix_find root p.
Proof.
  destruct (Radix_find_total root p) as [r Hr]. split; [by exists r|].
  rewrite Hr. eapply find_loop_mono; [exact Hr|lia].
Qed.

(** X4: Radix.add ends on every tree and every pattern: the loops of add
    and merge stay within the bounds the embedding gives them, so that the
    call returns or throws one of the three errors of the source. *)
Theorem registration_ends root p h :
  match Radix_add root p h with
  | Done _ => True
  | Fail e _ => e = WildcardConflict ∨ e = EmptyParamName ∨ e = DuplicateRoute
  end.
Proof.
  destruct (Radix_add root p h) as [T|e T] eqn:Hadd; [done|].
  by eapply Radix_add_errors.
Qed.

(** X5: in a tree built from the empty tree by successful registrations of
    patterns that start with a slash, every child is stored under the first
    character of its label, no label below the root is empty, and the label
    of the root starts with a slash: the lookups [children.get(path[0])] of
    merge, insert and find meet the one child that can match. *)
Theorem registered_tree_well_formed l T :
  Forall (λ x, char_at x.1 0 = Some "/"%char) l →
  Radix_add_all empty_radix l = Done T →
  well_formed T = true ∧ (l ≠ [] → char_at (path T) 0 = Some "/"%char).
Proof. apply Radix_add_all_built. Qed.

Lemma registered_tree_well_formed_witness :
  let l := [("/users/:id", 1); ("/users/new", 2); ("/files/*rest", 3)] in
  ∃ T, Radix_add_all empty_radix l = Done T
       ∧ well_formed T = true ∧ (l ≠ [] → char_at (path T) 0 = Some "/"%char).
Proof.
  intros l. eexists. split; [vm_compute; reflexivity|].
  apply (registered_tree_well_formed l);
    [repeat constructor|vm_compute; reflexivity].
Defined.

(** X6: a pattern that starts with a slash, has no faulty segment and is
    not among the patterns registered so far is accepted: the only error a
    faultless pattern can meet is the duplicate-route error. *)
Theorem new_pattern_accepted l T p h :
  Forall (λ x, char_at x.1 0 = Some "/"%char) l →
  Radix_add_all empty_radix l = Done T →
  char_at p 0 = Some "/"%char → pattern_fault p = None → p ∉ l.*1 →
  ∃ T', Radix_add T p h = Done T'.
Proof. apply Radix_add_new_pattern. Qed.

Lemma new_pattern_accepted_witness :
  let l := [("/users/:id", 1); ("/users/new", 2); ("/files/*rest", 3)] in
  ∃ T, Radix_add_all empty_radix l = Done T
       ∧ ∃ T', Radix_add T "/users/:id/posts" 4 = Done T'.
Proof.
  intros l. eexists. split; [vm_compute; reflexivity|].
  apply (new_pattern_accepted l _ "/users/:id/posts" 4);
    [repeat constructor|vm_compute; reflexivity|reflexivity|reflexivity|].
  intros Hin. repeat (apply elem_of_cons in Hin as [Hin|Hin]; [done|]).
  by apply elem_of_nil in Hin.
Defined.

(** X7: a registered pattern without marker is found: after any successful
    run of registrations of patterns that start with a slash, the search for
    a path equal to a registered static pattern returns the handler
    registered with that pattern and no binding, whichever parameter and
    wildcard patterns share its prefixes. *)
Theorem registered_static_pattern_found l T p h :
  Forall (λ x, char_at x.1 0 = Some "/"%char) l →
  Radix_add_all empty_radix l = Done T → (p, h) ∈ l → markers p = 0 →
  Radix_find T p = Some (Some h, ∅).
Proof. apply Radix_find_registered_static. Qed.

Lemma registered_static_pattern_found_witness :
  let l := [("/users/:id", 1); ("/users/new", 2); ("/:a/new", 3)] in
  ∃ T, Radix_add_all empty_radix l = Done T
       ∧ Radix_find T "/users/new" = Some (Some 2, ∅).
Proof.
  intros l. eexists. split; [vm_compute; reflexivity|].
  apply (registered_static_pattern_found l);
    [repeat constructor|vm_compute; reflexivity| |reflexivity].
  right. by left.
Defined.

(** X8: Router.find dispatches a registered static route to its callback:
    after any successful run of Router.add calls on a new router, with
    patterns that start with a slash, the lookup of the method and of the
    pattern of a registered route without marker returns an entry with the
    callback of that route and with empty params. *)
Theorem static_route_dispatched routes r route :
  Forall (λ v, char_at (route_path v) 0 = Some "/"%char) routes →
  Router_add_all new_router routes = Done r →
  route ∈ routes → markers (route_path route) = 0 →
  ∃ found,
    fst (Router_find r (method route) (route_path route))
    = Returns (Some found)
    ∧ callback found = callback route ∧ params found = Some ∅.
Proof.
  intros Hl Hadd Hin Hst.
  destruct (Router_built_tree routes r route Hadd Hin) as (T & HT & Htree).
  eapply Router_find_callback; [exact HT| |].
  - eapply Radix_find_registered_static; [|exact Htree| |done].
    + by apply by_method_slash.
    + by apply by_method_elem.
  - exists route. split; [|done].
    rewrite (Router_add_all_routes _ _ _ Hadd). by apply elem_of_app; right.
Qed.

Lemma static_route_dispatched_witness :
  let routes := [MkRoute "GET" "/users/:id" 1 None None;
                 MkRoute "POST" "/users/new" 2 (Some "new.html") None;
                 MkRoute "GET" "/users/new" 3 None None] in
  ∃ r, Router_add_all new_router routes = Done r
       ∧ ∃ found, fst (Router_find r "GET" "/users/new")
                  = Returns (Some found)
                  ∧ callback found = 3 ∧ params found = Some ∅.
Proof.
  intros routes. eexists. split; [vm_compute; reflexivity|].
  apply (static_route_dispatched routes _
           (MkRoute "GET" "/users/new" 3 None None));
    [repeat constructor|vm_compute; reflexivity| |reflexivity].
  right. right. by left.
Defined.

(** X9: every method has a tree of its own: after a successful run of
    Router.add calls on a new router, the tree of a method is the tree that
    the routes of that method build on their own, in their order, whatever
    was registered for other methods in between. *)
Theorem method_tree_holds_its_routes routes r m :
  Router_add_all new_router routes = Done r →
  Radix_add_all empty_radix
    ((λ v, (route_path v, callback v)) <$> filter (λ v, method v = m) routes)
  = Done (default empty_radix (radixGroup r !! m)).
Proof.
  intros Hadd.
  by destruct (Router_add_all_group routes new_router r m Hadd) as [Htree _].
Qed.

Lemma method_tree_holds_its_routes_witness :
  let routes := [MkRoute "GET" "/users/:id" 1 None None;
                 MkRoute "POST" "/users/new" 2 (Some "new.html") None;
                 MkRoute "GET" "/users/new" 3 None None] in
  ∃ r, Router_add_all new_router routes = Done r
       ∧ Radix_add_all empty_radix [("/users/:id", 1); ("/users/new", 3)]
         = Done (default empty_radix (radixGroup r !! "GET")).
Proof.
  intros routes. eexists. split; [vm_compute; reflexivity|].
  apply (method_tree_holds_its_routes routes _ "GET").
  vm_compute. reflexivity.
Defined.

(** X10: Radix.find returns no handler of its own making: a handler it
    returns is the handler of the root or of a node below the root. *)
Theorem find_returns_handler_of_tree root p h ps :
  Radix_find root p = Some (Some h, ps) →
  ∃ n, within root n ∧ handler n = Some h.
Proof.
  intros Hfind. eapply find_loop_within; [|exact Hfind].
  constructor; [by left|done].
Qed.

Lemma find_returns_handler_of_tree_witness :
  let root := Node "/users/"
    (<[Some ":"%char := Node ":id" ∅ (Some 1)]>
       {[ Some "n"%char := Node "new" ∅ (Some 2) ]}) None in
  Radix_find root "/users/42" = Some (Some 1, {[ "id" := "42" ]})
  ∧ ∃ n, within root n ∧ handler n = Some 1.
Proof.
  intros root. split; [vm_compute; reflexivity|].
  apply (find_returns_handler_of_tree root "/users/42" 1 {[ "id" := "42" ]}).
  vm_compute. reflexivity.
Defined.
